(** * The AFL LLVM-mode runtime with branch-distance recording

    A shallow embedding of [br_pass/afl-2.52b/llvm_mode/afl-llvm-rt.o.c]
    (the runtime linked into instrumented targets) and of the edge
    instrumentation emitted by
    [approach_pass/llvm_mode/afl-llvm-pass.so.cc_obtain_br].

    Conventions.
    - A C integer is a [Z]; every assignment to a fixed-width variable
      writes the wrap-around out ([CInt.sint], [CInt.uint]).
    - The coverage map is a [list Z] of bytes (each in [0, 256)); reads and
      writes outside the buffer are undefined behaviour in C and are
      [None] / [Undefined] here.
    - A function that may end the process returns an [outcome].

    Part I holds the embedding, Part II the facts proved about it. *)

From stdpp Require Import base list strings.
From Stdlib Require Import ZArith Lia Permutation Sorted.

Local Open Scope Z_scope.

(** * Part I: the embedding *)

(** ** Fixed-width integers *)

Module CInt.

(** Value of a [w]-bit unsigned variable after storing [x] in it. *)
Definition uint (w x : Z) : Z := x mod 2 ^ w.

(** Value of a [w]-bit two's-complement variable after storing [x].  For
    the result of a signed subtraction the C standard leaves overflow
    undefined; the value taken here is the one the machine subtraction
    produces. *)
Definition sint (w x : Z) : Z := (x + 2 ^ (w - 1)) mod 2 ^ w - 2 ^ (w - 1).

(** Representable range of a signed [w]-bit variable. *)
Definition fits (w x : Z) : Prop := - 2 ^ (w - 1) <= x < 2 ^ (w - 1).

End CInt.

(** ** Byte buffers *)

Module Mem.

(** [p[i]] as an rvalue, [p] a [u8 *]. *)
Definition load_u8 (m : list Z) (i : Z) : option Z :=
  if 0 <=? i then m !! Z.to_nat i else None.

(** [p[i]] as an rvalue, [p] a [char *]; plain [char] is signed on the
    targets AFL runs on. *)
Definition load_char (m : list Z) (i : Z) : option Z :=
  CInt.sint 8 <$> load_u8 m i.

(** [p[i] = v] for a byte-sized lvalue: the low eight bits of [v]. *)
Definition store_u8 (m : list Z) (i v : Z) : option (list Z) :=
  if (0 <=? i) && (i <? Z.of_nat (length m))
  then Some (<[Z.to_nat i := v mod 256]> m)
  else None.

(** [p[k]] as an rvalue, [p] an [int *]: four bytes, least significant
    first. *)
Definition load_int (m : list Z) (k : Z) : option Z :=
  match load_u8 m (4 * k), load_u8 m (4 * k + 1),
        load_u8 m (4 * k + 2), load_u8 m (4 * k + 3) with
  | Some b0, Some b1, Some b2, Some b3 =>
      Some (CInt.sint 32 (b0 + 256 * b1 + 65536 * b2 + 16777216 * b3))
  | _, _, _, _ => None
  end.

(** [p[k] = v], [p] an [int *]. *)
Definition store_int (m : list Z) (k v : Z) : option (list Z) :=
  m1 ← store_u8 m (4 * k) v;
  m2 ← store_u8 m1 (4 * k + 1) (v / 256);
  m3 ← store_u8 m2 (4 * k + 2) (v / 65536);
  store_u8 m3 (4 * k + 3) (v / 16777216).

(** [memset(p, c, n)]. *)
Definition memset (m : list Z) (c : Z) (n : nat) : option (list Z) :=
  if (n <=? length m)%nat
  then Some (replicate n (c mod 256) ++ drop n m)
  else None.

End Mem.

(** ** How a call ends *)

Inductive ending : Type :=
| ExitCode (code : Z)      (* exit(code) or _exit(code) *)
| AbortSignal.             (* abort() *)

Inductive outcome (S A : Type) : Type :=
| Returned (s : S) (a : A)         (* the call returns [a] to its caller *)
| Terminated (s : S) (how : ending) (* the process ends inside the call *)
| Blocked (s : S)                  (* inside a system call that has not returned *)
| Undefined.                       (* access outside a buffer *)

Arguments Returned {S A} s a.
Arguments Terminated {S A} s how.
Arguments Blocked {S A} s.
Arguments Undefined {S A}.

(** ** What the runtime takes from outside this file

    [config.h] and [types.h] are not part of the sources at hand, so the
    constants they define are fields here, together with the C library
    and operating-system services the runtime calls. *)

Record platform : Type := Platform {
  MAP_SIZE : nat;                        (* config.h: size of the map *)
  SHM_ENV_VAR : string;                  (* config.h *)
  FORKSRV_FD : Z;                        (* config.h *)
  getenv : string -> option string;
  atoi : string -> Z;
  sscanf_u : string -> option Z;         (* sscanf(s, "%u", &x): [Some x] iff it returns 1 *)
  shmat : Z -> option (list Z);          (* [None]: shmat returned (void * )-1 *)
  random : nat -> Z;                     (* the successive results of random() *)
  on_stop : list Z -> list Z             (* what the controller writes into the
                                            shared map while the process is stopped *)
}.

(** [R(x)] of types.h and [AFL_R(x)] of the pass, at the [n]-th draw. *)
Definition R (P : platform) (n : nat) (x : Z) : Z := random P n mod x.

(** ** Globals of the runtime (lines 47-59, 177-178, 233) *)

(** What [__afl_area_ptr] points to: [__afl_area_initial], or the attached
    shared segment with its contents. *)
Inductive area_ref : Type :=
| InitialArea
| SharedArea (seg : list Z).

Record runtime : Type := Runtime {
  afl_area_initial : list Z;     (* u8 __afl_area_initial[MAP_SIZE] *)
  afl_area_ptr : area_ref;       (* u8* __afl_area_ptr *)
  afl_prev_loc : Z;              (* __thread u32 __afl_prev_loc *)
  is_persistent : Z;             (* static u8 is_persistent *)
  first_pass : Z;                (* static u8 first_pass = 1 *)
  cycle_cnt : Z;                 (* static u32 cycle_cnt *)
  init_done : Z                  (* static u8 init_done *)
}.

(** The state a process starts in: the static initialisers. *)
Definition runtime_start (P : platform) : runtime :=
  {| afl_area_initial := replicate (MAP_SIZE P) 0;
     afl_area_ptr := InitialArea;
     afl_prev_loc := 0;
     is_persistent := 0;
     first_pass := 1;
     cycle_cnt := 0;
     init_done := 0 |}.

(** The bytes [__afl_area_ptr] points at. *)
Definition area (rt : runtime) : list Z :=
  match afl_area_ptr rt with
  | InitialArea => afl_area_initial rt
  | SharedArea seg => seg
  end.

(** The runtime after the bytes behind [__afl_area_ptr] became [m]. *)
Definition set_area (rt : runtime) (m : list Z) : runtime :=
  match afl_area_ptr rt with
  | InitialArea =>
      {| afl_area_initial := m; afl_area_ptr := InitialArea;
         afl_prev_loc := afl_prev_loc rt; is_persistent := is_persistent rt;
         first_pass := first_pass rt; cycle_cnt := cycle_cnt rt;
         init_done := init_done rt |}
  | SharedArea _ =>
      {| afl_area_initial := afl_area_initial rt; afl_area_ptr := SharedArea m;
         afl_prev_loc := afl_prev_loc rt; is_persistent := is_persistent rt;
         first_pass := first_pass rt; cycle_cnt := cycle_cnt rt;
         init_done := init_done rt |}
  end.

Definition set_area_ptr (rt : runtime) (p : area_ref) : runtime :=
  {| afl_area_initial := afl_area_initial rt; afl_area_ptr := p;
     afl_prev_loc := afl_prev_loc rt; is_persistent := is_persistent rt;
     first_pass := first_pass rt; cycle_cnt := cycle_cnt rt;
     init_done := init_done rt |}.

Definition set_prev_loc (rt : runtime) (v : Z) : runtime :=
  {| afl_area_initial := afl_area_initial rt; afl_area_ptr := afl_area_ptr rt;
     afl_prev_loc := v; is_persistent := is_persistent rt;
     first_pass := first_pass rt; cycle_cnt := cycle_cnt rt;
     init_done := init_done rt |}.

Definition set_first_pass (rt : runtime) (v : Z) : runtime :=
  {| afl_area_initial := afl_area_initial rt; afl_area_ptr := afl_area_ptr rt;
     afl_prev_loc := afl_prev_loc rt; is_persistent := is_persistent rt;
     first_pass := v; cycle_cnt := cycle_cnt rt;
     init_done := init_done rt |}.

Definition set_cycle_cnt (rt : runtime) (v : Z) : runtime :=
  {| afl_area_initial := afl_area_initial rt; afl_area_ptr := afl_area_ptr rt;
     afl_prev_loc := afl_prev_loc rt; is_persistent := is_persistent rt;
     first_pass := first_pass rt; cycle_cnt := v;
     init_done := init_done rt |}.

Definition set_init_done (rt : runtime) (v : Z) : runtime :=
  {| afl_area_initial := afl_area_initial rt; afl_area_ptr := afl_area_ptr rt;
     afl_prev_loc := afl_prev_loc rt; is_persistent := is_persistent rt;
     first_pass := first_pass rt; cycle_cnt := cycle_cnt rt;
     init_done := v |}.

(** ** SHM setup (lines 64-89) *)

Definition afl_map_shm (P : platform) (rt : runtime) : outcome runtime unit :=
  match getenv P (SHM_ENV_VAR P) with
  | Some id_str =>
      let shm_id := CInt.uint 32 (atoi P id_str) in
      match shmat P shm_id with
      | None => Terminated rt (ExitCode 1)
      | Some seg =>
          let rt1 := set_area_ptr rt (SharedArea seg) in
          match Mem.store_u8 (area rt1) 0 1 with
          | Some m => Returned (set_area rt1 m) tt
          | None => Undefined
          end
      end
  | None => Returned rt tt
  end.

(** ** Fork server (lines 94-170)

    The function talks to the controller and to the kernel through system
    calls.  It is embedded as a machine whose control points are the
    blocking calls of the source: at each point the pending call is issued,
    and the machine moves on when the call's answer arrives.  [kill] and
    [close] do not block and their results are ignored by the source: they
    are recorded in the trace only. *)

(** Constants of <signal.h> and <sys/wait.h> (Linux values). *)
Definition SIGCONT : Z := 18.
Definition SIGSTOP : Z := 19.
Definition WUNTRACED : Z := 2.
Definition WIFSTOPPED (status : Z) : bool := Z.land status 255 =? 127.

Inductive syscall : Type :=
| SysWrite (fd payload : Z)       (* write(fd, &payload, 4) *)
| SysRead (fd : Z)                (* read(fd, &was_killed, 4) *)
| SysFork
| SysWaitpid (pid options : Z)    (* waitpid(pid, &status, options) *)
| SysKill (pid sig : Z)
| SysClose (fd : Z)
| SysRaise (sig : Z).

(** What a system call answers: its return value, and the word it stored
    through its pointer argument ([was_killed] for read, [status] for
    waitpid). *)
Record answer : Type := Answer { ret : Z; data : Z }.

(** Locals of [__afl_start_forkserver]. *)
Record fs_locals : Type := FsLocals {
  child_pid : Z;        (* s32 child_pid *)
  child_stopped : Z;    (* u8 child_stopped = 0 *)
  was_killed : Z;       (* u32 was_killed *)
  status : Z            (* int status *)
}.

Definition fs_locals_start : fs_locals :=
  {| child_pid := 0; child_stopped := 0; was_killed := 0; status := 0 |}.

(** The blocking calls of the function. *)
Inductive fs_point : Type :=
| AtHandshake      (* line 104 *)
| AtRead           (* line 113 *)
| AtReap           (* line 121 *)
| AtFork           (* line 128 *)
| AtWritePid       (* line 153 *)
| AtWait           (* line 155 *)
| AtWriteStatus.   (* line 166 *)

(** How the function is left. *)
Inductive fs_end : Type :=
| Disengaged       (* line 104: return in the original process *)
| InChild          (* line 137: return in the forked child *)
| FsExit (code : Z).

Inductive fs_status : Type :=
| FsAt (pt : fs_point) (l : fs_locals)
| FsEnded (e : fs_end).

(** The call issued at a control point. *)
Definition pending (P : platform) (is_persistent : Z) (pt : fs_point)
    (l : fs_locals) : syscall :=
  match pt with
  | AtHandshake => SysWrite (FORKSRV_FD P + 1) 0
  | AtRead => SysRead (FORKSRV_FD P)
  | AtReap => SysWaitpid (child_pid l) 0
  | AtFork => SysFork
  | AtWritePid => SysWrite (FORKSRV_FD P + 1) (child_pid l)
  | AtWait =>
      SysWaitpid (child_pid l) (if is_persistent =? 0 then 0 else WUNTRACED)
  | AtWriteStatus => SysWrite (FORKSRV_FD P + 1) (status l)
  end.

(** Lines 124-149, entered with the locals [l]: either fork, or resume the
    stopped child. *)
Definition fork_or_resume (l : fs_locals) : list syscall * fs_status :=
  if child_stopped l =? 0
  then ([], FsAt AtFork l)
  else ([SysKill (child_pid l) SIGCONT],
        FsAt AtWritePid
          {| child_pid := child_pid l; child_stopped := 0;
             was_killed := was_killed l; status := status l |}).

(** The code between the answer to the call pending at [pt] and the next
    blocking call: the non-blocking calls made on the way, and where the
    function is afterwards. *)
Definition fs_step (P : platform) (pt : fs_point) (l : fs_locals)
    (a : answer) : list syscall * fs_status :=
  match pt with
  | AtHandshake =>
      if ret a =? 4 then ([], FsAt AtRead l) else ([], FsEnded Disengaged)
  | AtRead =>
      if ret a =? 4 then
        let l1 := {| child_pid := child_pid l; child_stopped := child_stopped l;
                     was_killed := CInt.uint 32 (data a); status := status l |} in
        if negb (child_stopped l1 =? 0) && negb (was_killed l1 =? 0)
        then ([], FsAt AtReap
                    {| child_pid := child_pid l1; child_stopped := 0;
                       was_killed := was_killed l1; status := status l1 |})
        else fork_or_resume l1
      else ([], FsEnded (FsExit 1))
  | AtReap =>
      if ret a <? 0 then ([], FsEnded (FsExit 1))
      else fork_or_resume
             {| child_pid := child_pid l; child_stopped := child_stopped l;
                was_killed := was_killed l; status := CInt.sint 32 (data a) |}
  | AtFork =>
      let pid := CInt.sint 32 (ret a) in
      if pid <? 0 then ([], FsEnded (FsExit 1))
      else if pid =? 0
      then ([SysClose (FORKSRV_FD P); SysClose (FORKSRV_FD P + 1)],
            FsEnded InChild)
      else ([], FsAt AtWritePid
                  {| child_pid := pid; child_stopped := child_stopped l;
                     was_killed := was_killed l; status := status l |})
  | AtWritePid =>
      if ret a =? 4 then ([], FsAt AtWait l) else ([], FsEnded (FsExit 1))
  | AtWait =>
      if ret a <? 0 then ([], FsEnded (FsExit 1))
      else
        let st := CInt.sint 32 (data a) in
        ([], FsAt AtWriteStatus
               {| child_pid := child_pid l;
                  child_stopped := if WIFSTOPPED st then 1 else child_stopped l;
                  was_killed := was_killed l; status := st |})
  | AtWriteStatus =>
      if ret a =? 4 then ([], FsAt AtRead l) else ([], FsEnded (FsExit 1))
  end.

(** The function run from a status against the answers of the outside
    world, in the order the calls are made.  The trace lists every call
    issued, the pending one included; answers left over when the function
    has ended are not consumed. *)
Fixpoint fs_run (P : platform) (is_persistent : Z) (s : fs_status)
    (script : list answer) : list syscall * fs_status :=
  match s, script with
  | FsAt pt l, a :: rest =>
      let '(calls, s') := fs_step P pt l a in
      let issued :=
        match s' with
        | FsAt pt' l' => [pending P is_persistent pt' l']
        | FsEnded _ => []
        end in
      let '(tr, s'') := fs_run P is_persistent s' rest in
      (calls ++ issued ++ tr, s'')
  | _, _ => ([], s)
  end.

Definition afl_start_forkserver (P : platform) (is_persistent : Z)
    (script : list answer) : list syscall * fs_status :=
  let '(tr, s) := fs_run P is_persistent (FsAt AtHandshake fs_locals_start) script in
  (pending P is_persistent AtHandshake fs_locals_start :: tr, s).

(** ** Persistent mode handler (lines 175-225)

    The result carries the value returned and the signals the call raised
    on itself.  While the process is stopped the controller may rewrite
    the shared map ([on_stop]). *)

Definition stopped_and_resumed (P : platform) (rt : runtime) : runtime :=
  match afl_area_ptr rt with
  | InitialArea => rt
  | SharedArea seg => set_area_ptr rt (SharedArea (on_stop P seg))
  end.

Definition afl_persistent_loop (P : platform) (max_cnt : Z) (rt : runtime)
    : outcome runtime (Z * list syscall) :=
  if negb (first_pass rt =? 0) then
    if negb (is_persistent rt =? 0) then
      match Mem.memset (area rt) 0 (MAP_SIZE P) with
      | Some m0 =>
          match Mem.store_u8 m0 0 1 with
          | Some m1 =>
              let rt1 := set_prev_loc (set_area rt m1) 0 in
              Returned
                (set_first_pass (set_cycle_cnt rt1 (CInt.uint 32 max_cnt)) 0)
                (1, [])
          | None => Undefined
          end
      | None => Undefined
      end
    else
      Returned (set_first_pass (set_cycle_cnt rt (CInt.uint 32 max_cnt)) 0)
               (1, [])
  else if negb (is_persistent rt =? 0) then
    let rt1 := set_cycle_cnt rt (CInt.uint 32 (cycle_cnt rt - 1)) in
    if negb (cycle_cnt rt1 =? 0) then
      let rt2 := stopped_and_resumed P rt1 in
      match Mem.store_u8 (area rt2) 0 1 with
      | Some m => Returned (set_prev_loc (set_area rt2 m) 0) (1, [SysRaise SIGSTOP])
      | None => Undefined
      end
    else Returned (set_area_ptr rt1 InitialArea) (0, [])
  else Returned rt (0, []).

(** ** Initialisation (lines 231-252) *)

Definition afl_manual_init (P : platform) (script : list answer)
    (rt : runtime) : outcome runtime (list syscall) :=
  if init_done rt =? 0 then
    match afl_map_shm P rt with
    | Returned rt1 _ =>
        match afl_start_forkserver P (is_persistent rt1) script with
        | (tr, FsEnded Disengaged) | (tr, FsEnded InChild) =>
            Returned (set_init_done rt1 1) tr
        | (tr, FsEnded (FsExit code)) => Terminated rt1 (ExitCode code)
        | (tr, FsAt _ _) => Blocked rt1
        end
    | Terminated rt1 how => Terminated rt1 how
    | Blocked rt1 => Blocked rt1
    | Undefined => Undefined
    end
  else Returned rt [].

Definition afl_auto_init (P : platform) (script : list answer)
    (rt : runtime) : outcome runtime (list syscall) :=
  afl_manual_init P script rt.

(** ** Edge coverage *)

(** The instructions the pass puts at the head of a basic block whose
    location is [cur_loc] (pass, lines 136-161): load [__afl_prev_loc],
    index the map with [prev_loc ^ cur_loc] (the 32-bit index of the
    address computation is a signed quantity), add one to that byte, and
    store [cur_loc >> 1] into [__afl_prev_loc]. *)
Definition record_edge (cur_loc : Z) (rt : runtime) : option runtime :=
  let prev_loc := afl_prev_loc rt in
  let idx := CInt.sint 32 (Z.lxor prev_loc cur_loc) in
  counter ← Mem.load_u8 (area rt) idx;
  m ← Mem.store_u8 (area rt) idx (counter + 1);
  Some (set_prev_loc (set_area rt m) (CInt.uint 32 (Z.shiftr cur_loc 1))).

(** Which blocks of a function receive the instructions above, and with
    which location (pass, lines 129-136): [n] counts the draws of
    [AFL_R] made so far; a block the ratio skips is [None]. *)
Fixpoint assign_locations (P : platform) (inst_ratio : Z) (n : nat)
    (blocks : nat) : list (option Z) :=
  match blocks with
  | O => []
  | S blocks' =>
      if R P n 100 >=? inst_ratio
      then None :: assign_locations P inst_ratio (S n) blocks'
      else Some (R P (S n) (Z.of_nat (MAP_SIZE P)))
             :: assign_locations P inst_ratio (S (S n)) blocks'
  end.

(** [__sanitizer_cov_trace_pc_guard] (lines 262-264), [guard] being the
    word the argument points to. *)
Definition sanitizer_cov_trace_pc_guard (guard : Z) (rt : runtime)
    : option runtime :=
  counter ← Mem.load_u8 (area rt) guard;
  m ← Mem.store_u8 (area rt) guard (counter + 1);
  Some (set_area rt m).

(** ** Instrumentation ratio *)

Definition newline : string := String (Ascii.ascii_of_nat 10) EmptyString.

Definition ratio_diagnostic_runtime : string :=
  "[-] ERROR: Invalid AFL_INST_RATIO (must be 1-100)." +:+ newline.

Definition ratio_diagnostic_pass : string :=
  "Bad value of AFL_INST_RATIO (must be between 1 and 100)".

(** Lines 292-299: the guards after the first one. *)
Fixpoint fill_guards (P : platform) (inst_ratio : Z) (n : nat)
    (guards : list Z) : list Z :=
  match guards with
  | [] => []
  | _ :: rest =>
      if R P n 100 <? inst_ratio
      then CInt.uint 32 (R P (S n) (Z.of_nat (MAP_SIZE P) - 1) + 1)
             :: fill_guards P inst_ratio (S (S n)) rest
      else 0 :: fill_guards P inst_ratio (S n) rest
  end.

(** [__sanitizer_cov_trace_pc_guard_init] (lines 271-301) on the guard
    table [start, stop).  The state is the table and what was written to
    stderr. *)
Definition sanitizer_cov_trace_pc_guard_init (P : platform)
    (guards : list Z) : outcome (list Z * list string) unit :=
  match guards with
  | [] => Returned (guards, []) tt
  | g0 :: rest =>
      if negb (g0 =? 0) then Returned (guards, []) tt
      else
        let inst_ratio :=
          match getenv P "AFL_INST_RATIO" with
          | Some x => CInt.uint 32 (atoi P x)
          | None => 100
          end in
        if (inst_ratio =? 0) || (inst_ratio >? 100)
        then Terminated (guards, [ratio_diagnostic_runtime]) AbortSignal
        else
          Returned
            (CInt.uint 32 (R P 0 (Z.of_nat (MAP_SIZE P) - 1) + 1)
               :: fill_guards P inst_ratio 1 rest, [])
            tt
  end.

(** "Decide instrumentation ratio" (pass, lines 99-108 and 264-273).
    [FATAL] of debug.h prints its message and leaves with [exit(1)]. *)
Definition decide_inst_ratio (P : platform) : outcome (list string) Z :=
  match getenv P "AFL_INST_RATIO" with
  | Some inst_ratio_str =>
      match sscanf_u P inst_ratio_str with
      | Some x =>
          let inst_ratio := CInt.uint 32 x in
          if (inst_ratio =? 0) || (inst_ratio >? 100)
          then Terminated [ratio_diagnostic_pass] (ExitCode 1)
          else Returned [] inst_ratio
      | None => Terminated [ratio_diagnostic_pass] (ExitCode 1)
      end
  | None => Returned [] 100
  end.

(** The locations [AFLCoverage::runOnModule] hands out to the [blocks]
    basic blocks of a module (pass, lines 99-136). *)
Definition run_on_module (P : platform) (blocks : nat)
    : outcome (list string) (list (option Z)) :=
  match decide_inst_ratio P with
  | Returned err inst_ratio =>
      Returned err (assign_locations P inst_ratio 0 blocks)
  | Terminated err how => Terminated err how
  | Blocked err => Blocked err
  | Undefined => Undefined
  end.

(** ** Target-branch value capture (lines 320-396) *)

(** The body shared by the six functions, [v1] and [v2] being the two
    [int] values the function stores. *)
Definition capture (m : list Z) (br_id v1 v2 : Z) : outcome (list Z) unit :=
  match Mem.load_int m 0 with
  | Some target_br_id =>
      if br_id =? target_br_id then
        match (m1 ← Mem.store_int m 1 v1;
               m2 ← Mem.store_int m1 2 v2;
               Mem.store_int m2 3 12) with
        | Some m' => Terminated m' (ExitCode 0)
        | None => Undefined
        end
      else Returned m tt
  | None => Undefined
  end.

Definition check_br8 (m : list Z) (br_id op1 op2 constant_loc : Z) :=
  capture m br_id (CInt.sint 32 op1) (CInt.sint 32 op2).

Definition check_br16 (m : list Z) (br_id op1 op2 constant_loc : Z) :=
  capture m br_id (CInt.sint 32 op1) (CInt.sint 32 op2).

Definition check_br32 (m : list Z) (br_id op1 op2 constant_loc : Z) :=
  capture m br_id (CInt.sint 32 op1) (CInt.sint 32 op2).

Definition check_br64 (m : list Z) (br_id op1 op2 constant_loc : Z) :=
  capture m br_id (CInt.sint 32 op1) (CInt.sint 32 op2).

(** [s[0]] for a C string given by its characters before the
    terminating NUL. *)
Definition first_char (s : list Z) : Z := hd 0 s.

Definition check_strcmp (m : list Z) (br_id type : Z) (op1 op2 : list Z)
    (ret constant_loc : Z) :=
  capture m br_id (CInt.sint 32 (first_char op1)) (CInt.sint 32 (first_char op2)).

Definition check_strncmp (m : list Z) (br_id type : Z) (op1 op2 : list Z)
    (len ret constant_loc : Z) :=
  capture m br_id (CInt.sint 32 (first_char op1)) (CInt.sint 32 (first_char op2)).

(** ** Branch-distance recorder (lines 399-838) *)

(** The groups of [case] labels of the [switch (type)]. *)
Inductive cmp_family : Type := FamGt | FamEq | FamGe | FamLt | FamLe.

Definition switch_case (type : Z) : option cmp_family :=
  match type with
  | 0 | 1 => Some FamGt
  | 2 | 7 | 11 => Some FamEq
  | 3 | 4 => Some FamGe
  | 5 | 6 => Some FamLt
  | 8 | 9 => Some FamLe
  | _ => None
  end.

(** The block under a true first condition:
    [if (val == 0) cell = 1; else if (val == 2) cell = 3;]
    with [extra] added to the value stored ([len << 2] in [log_strncmp],
    nothing elsewhere). *)
Definition mark_first (m : list Z) (br_id val extra : Z) : option (list Z) :=
  if val =? 0 then Mem.store_u8 m br_id (1 + extra)
  else if val =? 2 then Mem.store_u8 m br_id (3 + extra)
  else Some m.

(** The block under the [else if]:
    [if (val == 0) cell = 2; else if (val == 1) cell = 3;] *)
Definition mark_second (m : list Z) (br_id val extra : Z) : option (list Z) :=
  if val =? 0 then Mem.store_u8 m br_id (2 + extra)
  else if val =? 1 then Mem.store_u8 m br_id (3 + extra)
  else Some m.

(** The [switch] of [log_br8], [log_br16], [log_br32] and [log_br64],
    which is the same text in the four functions. *)
Definition log_br_switch (m : list Z) (br_id type br_dist val : Z)
    : option (list Z) :=
  match switch_case type with
  | Some FamGt =>
      if br_dist >? 0 then mark_first m br_id val 0
      else if br_dist <=? 0 then mark_second m br_id val 0
      else Some m
  | Some FamEq =>
      if br_dist =? 0 then mark_first m br_id val 0
      else if negb (br_dist =? 0) then mark_second m br_id val 0
      else Some m
  | Some FamGe =>
      if br_dist >=? 0 then mark_first m br_id val 0
      else if br_dist <? 0 then mark_second m br_id val 0
      else Some m
  | Some FamLt =>
      if br_dist <? 0 then mark_first m br_id val 0
      else if br_dist >=? 0 then mark_second m br_id val 0
      else Some m
  | Some FamLe =>
      if br_dist <=? 0 then mark_first m br_id val 0
      else if br_dist >? 0 then mark_second m br_id val 0
      else Some m
  | None => Some m
  end.

(** The four integer recorders differ in the type of [br_dist] only:
    [int] for [char], [short] and [int] operands (the first two are
    promoted to [int] before the subtraction), [long long] for
    [long long] operands. *)
Definition log_br (dist_bits : Z) (m : list Z)
    (br_id type op1 op2 constant_loc : Z) : option (list Z) :=
  let br_dist := CInt.sint dist_bits (op1 - op2) in
  val ← Mem.load_char m br_id;
  if val =? 3 then Some m
  else log_br_switch m br_id type br_dist val.

Definition log_br8 := log_br 32.
Definition log_br16 := log_br 32.
Definition log_br32 := log_br 32.
Definition log_br64 := log_br 64.

Definition log_strcmp (m : list Z) (br_id type ret constant_loc : Z)
    : option (list Z) :=
  let br_dist := ret in
  val ← Mem.load_char m br_id;
  if val =? 3 then Some m
  else if br_dist =? 0 then mark_first m br_id val 0
  else if negb (br_dist =? 0) then mark_second m br_id val 0
  else Some m.

Definition log_strncmp (m : list Z) (br_id type len ret constant_loc : Z)
    : option (list Z) :=
  let br_dist := ret in
  val0 ← Mem.load_char m br_id;
  let val := CInt.sint 8 (Z.land val0 3) in
  let extra := CInt.sint 32 (Z.shiftl len 2) in
  if val =? 3 then Some m
  else if br_dist =? 0 then mark_first m br_id val extra
  else if negb (br_dist =? 0) then mark_second m br_id val extra
  else Some m.

(** One call of a recorder for a given branch id. *)
Inductive record_call : Type :=
| Br8 (type op1 op2 constant_loc : Z)
| Br16 (type op1 op2 constant_loc : Z)
| Br32 (type op1 op2 constant_loc : Z)
| Br64 (type op1 op2 constant_loc : Z)
| Strcmp (type ret constant_loc : Z)
| Strncmp (type len ret constant_loc : Z).

Definition record_branch (m : list Z) (br_id : Z) (c : record_call)
    : option (list Z) :=
  match c with
  | Br8 type op1 op2 cl => log_br8 m br_id type op1 op2 cl
  | Br16 type op1 op2 cl => log_br16 m br_id type op1 op2 cl
  | Br32 type op1 op2 cl => log_br32 m br_id type op1 op2 cl
  | Br64 type op1 op2 cl => log_br64 m br_id type op1 op2 cl
  | Strcmp type r cl => log_strcmp m br_id type r cl
  | Strncmp type len r cl => log_strncmp m br_id type len r cl
  end.

(** A sequence of calls for one branch id, with the value of the cell
    after each call. *)
Fixpoint record_all (m : list Z) (br_id : Z) (cs : list record_call)
    : option (list Z) :=
  match cs with
  | [] => Some m
  | c :: rest => m' ← record_branch m br_id c; record_all m' br_id rest
  end.


(** One call of a capture function for a given branch id. *)
Inductive check_call : Type :=
| Chk8 (op1 op2 constant_loc : Z)
| Chk16 (op1 op2 constant_loc : Z)
| Chk32 (op1 op2 constant_loc : Z)
| Chk64 (op1 op2 constant_loc : Z)
| ChkStrcmp (type : Z) (op1 op2 : list Z) (ret constant_loc : Z)
| ChkStrncmp (type : Z) (op1 op2 : list Z) (len ret constant_loc : Z).

Definition maybe_capture (m : list Z) (br_id : Z) (c : check_call)
    : outcome (list Z) unit :=
  match c with
  | Chk8 op1 op2 cl => check_br8 m br_id op1 op2 cl
  | Chk16 op1 op2 cl => check_br16 m br_id op1 op2 cl
  | Chk32 op1 op2 cl => check_br32 m br_id op1 op2 cl
  | Chk64 op1 op2 cl => check_br64 m br_id op1 op2 cl
  | ChkStrcmp type op1 op2 r cl => check_strcmp m br_id type op1 op2 r cl
  | ChkStrncmp type op1 op2 len r cl =>
      check_strncmp m br_id type op1 op2 len r cl
  end.

(** ** The process as a whole

    Everything in the runtime that reads or writes its globals, as one
    type of calls, so that a run of the process is a list of them. *)

Inductive rt_call : Type :=
| CallAutoInit (script : list answer)
| CallManualInit (script : list answer)
| CallPersistentLoop (max_cnt : Z)
| CallEdge (cur_loc : Z)
| CallTracePcGuard (guard : Z)
| CallRecord (br_id : Z) (c : record_call)
| CallCheck (br_id : Z) (c : check_call).

(** The calls a step made on the outside world. *)
Definition rt_exec (P : platform) (c : rt_call) (rt : runtime)
    : outcome runtime (list syscall) :=
  match c with
  | CallAutoInit script => afl_auto_init P script rt
  | CallManualInit script => afl_manual_init P script rt
  | CallPersistentLoop max_cnt =>
      match afl_persistent_loop P max_cnt rt with
      | Returned rt' (_, raised) => Returned rt' raised
      | Terminated rt' how => Terminated rt' how
      | Blocked rt' => Blocked rt'
      | Undefined => Undefined
      end
  | CallEdge cur_loc =>
      match record_edge cur_loc rt with
      | Some rt' => Returned rt' []
      | None => Undefined
      end
  | CallTracePcGuard guard =>
      match sanitizer_cov_trace_pc_guard guard rt with
      | Some rt' => Returned rt' []
      | None => Undefined
      end
  | CallRecord br_id c =>
      match record_branch (area rt) br_id c with
      | Some m => Returned (set_area rt m) []
      | None => Undefined
      end
  | CallCheck br_id c =>
      match maybe_capture (area rt) br_id c with
      | Returned m _ => Returned (set_area rt m) []
      | Terminated m how => Terminated (set_area rt m) how
      | Blocked m => Blocked (set_area rt m)
      | Undefined => Undefined
      end
  end.

(** A run: the calls in order, up to the first that does not return.  The
    result lists the outside calls made. *)
Fixpoint rt_run (P : platform) (cs : list rt_call) (rt : runtime)
    : outcome runtime (list syscall) :=
  match cs with
  | [] => Returned rt []
  | c :: rest =>
      match rt_exec P c rt with
      | Returned rt' tr =>
          match rt_run P rest rt' with
          | Returned rt'' tr' => Returned rt'' (tr ++ tr')
          | other => other
          end
      | other => other
      end
  end.

(** The states a process can be in between two calls. *)
Inductive reachable (P : platform) : runtime -> Prop :=
| reach_start : reachable P (runtime_start P)
| reach_step rt c rt' tr :
    reachable P rt -> rt_exec P c rt = Returned rt' tr -> reachable P rt'.

(** The persistent-mode handler called [n] times in a row: the values
    returned and the signals raised. *)
Fixpoint loop_calls (P : platform) (n : nat) (max_cnt : Z) (rt : runtime)
    : outcome runtime (list Z * list syscall) :=
  match n with
  | O => Returned rt ([], [])
  | S n' =>
      match afl_persistent_loop P max_cnt rt with
      | Returned rt' (r, raised) =>
          match loop_calls P n' max_cnt rt' with
          | Returned rt'' (rs, raised') => Returned rt'' (r :: rs, raised ++ raised')
          | other => other
          end
      | Terminated rt' how => Terminated rt' how
      | Blocked rt' => Blocked rt'
      | Undefined => Undefined
      end
  end.

(** ** A decimal reading of [atoi] and of [sscanf("%u")]

    The two library functions are fields of [platform]; these are the
    instances used in the examples: optional white space, an optional
    sign, then decimal digits. *)

Definition is_space (c : Ascii.ascii) : bool :=
  let n := Ascii.nat_of_ascii c in
  ((n =? 32) || ((9 <=? n) && (n <=? 13)))%nat.

Definition digit_value (c : Ascii.ascii) : option Z :=
  let n := Z.of_nat (Ascii.nat_of_ascii c) in
  if (48 <=? n) && (n <=? 57) then Some (n - 48) else None.

Fixpoint skip_spaces (s : string) : string :=
  match s with
  | String c rest => if is_space c then skip_spaces rest else s
  | EmptyString => s
  end.

(** The digits at the head of [s], as a number, and whether there was
    one. *)
Fixpoint read_digits (s : string) (acc : Z) (seen : bool) : Z * bool :=
  match s with
  | String c rest =>
      match digit_value c with
      | Some d => read_digits rest (10 * acc + d) true
      | None => (acc, seen)
      end
  | EmptyString => (acc, seen)
  end.

Definition read_signed (s : string) : Z * bool :=
  match skip_spaces s with
  | String c rest =>
      if (Ascii.nat_of_ascii c =? 45)%nat
      then let '(v, seen) := read_digits rest 0 false in (- v, seen)
      else if (Ascii.nat_of_ascii c =? 43)%nat then read_digits rest 0 false
      else read_digits (String c rest) 0 false
  | EmptyString => (0, false)
  end.

Definition atoi_decimal (s : string) : Z := CInt.sint 32 (fst (read_signed s)).

Definition sscanf_u_decimal (s : string) : option Z :=
  let '(v, seen) := read_signed s in
  if seen then Some (CInt.uint 32 v) else None.

(** A platform for the examples: a map of eight bytes, the environment
    [env], and a shared segment of eight zero bytes under id 7. *)
Definition example_platform (env : string -> option string) : platform :=
  {| MAP_SIZE := 8;
     SHM_ENV_VAR := "__AFL_SHM_ID";
     FORKSRV_FD := 198;
     getenv := env;
     atoi := atoi_decimal;
     sscanf_u := sscanf_u_decimal;
     shmat := fun id => if id =? 7 then Some (replicate 8 0) else None;
     random := fun n => Z.of_nat n * 7919 + 3;
     on_stop := fun seg => replicate (length seg) 0 |}.

Definition env_of (name value : string) : string -> option string :=
  fun x => if String.eqb x name then Some value else None.

Definition no_env : string -> option string := fun _ => None.

(** ** Vocabulary of the specification *)

(** The state of a branch site: the two low bits of its cell. *)
Inductive br_state : Type := Unseen | Polarity1 | Polarity2 | Saturated.

Definition state_of (cell : Z) : br_state :=
  match Z.land cell 3 with
  | 0 => Unseen
  | 1 => Polarity1
  | 2 => Polarity2
  | _ => Saturated
  end.

(** [unseen < {polarity-1, polarity-2} < saturated]. *)
Definition state_le (a b : br_state) : bool :=
  match a, b with
  | Unseen, _ => true
  | _, Saturated => true
  | Polarity1, Polarity1 => true
  | Polarity2, Polarity2 => true
  | _, _ => false
  end.

(** The tie-break table: the predicate of a kind group on the distance. *)
Definition holds (f : cmp_family) (distance : Z) : bool :=
  match f with
  | FamGt => distance >? 0
  | FamEq => distance =? 0
  | FamGe => distance >=? 0
  | FamLt => distance <? 0
  | FamLe => distance <=? 0
  end.

(** The distance a recorder works with, for a call. *)
Definition distance_of (c : record_call) : Z :=
  match c with
  | Br8 _ op1 op2 _ | Br16 _ op1 op2 _ | Br32 _ op1 op2 _ =>
      CInt.sint 32 (op1 - op2)
  | Br64 _ op1 op2 _ => CInt.sint 64 (op1 - op2)
  | Strcmp _ r _ | Strncmp _ _ r _ => r
  end.

(** The kind group of a call; the string recorders use the equality
    rule whatever their [type]. *)
Definition family_of (c : record_call) : option cmp_family :=
  match c with
  | Br8 type _ _ _ | Br16 type _ _ _ | Br32 type _ _ _ | Br64 type _ _ _ =>
      switch_case type
  | Strcmp _ _ _ | Strncmp _ _ _ _ => Some FamEq
  end.

(** The polarity a call observes: [Some true] when the predicate of its
    kind holds of its distance, [Some false] when it does not, [None]
    when its kind is in no group. *)
Definition observed (c : record_call) : option bool :=
  match family_of c with
  | Some f => Some (holds f (distance_of c))
  | None => None
  end.

Definition polarity_state (p : bool) : br_state :=
  if p then Polarity1 else Polarity2.

(** The state machine of the specification: [unseen -> this polarity],
    [other polarity -> saturated], same polarity and saturated stay. *)
Definition spec_next (s : br_state) (o : option bool) : br_state :=
  match o, s with
  | None, _ => s
  | Some p, Unseen => polarity_state p
  | Some _, Saturated => Saturated
  | Some true, Polarity1 => Polarity1
  | Some false, Polarity2 => Polarity2
  | Some true, Polarity2 => Saturated
  | Some false, Polarity1 => Saturated
  end.

(** Whether a call reads the state through the two-bit mask
    ([log_strncmp]) or as the whole cell (the others). *)
Definition masks_cell (c : record_call) : bool :=
  match c with
  | Strncmp _ _ _ _ => true
  | _ => false
  end.

(** The final state the specification gives a stream of observations
    started from [unseen]. *)
Definition spec_final (obs : list bool) : br_state :=
  match existsb id obs, existsb negb obs with
  | false, false => Unseen
  | true, false => Polarity1
  | false, true => Polarity2
  | true, true => Saturated
  end.

(** The integer recorders by operand width. *)
Inductive width : Type := W8 | W16 | W32 | W64.

Definition operand_bits (w : width) : Z :=
  match w with W8 => 8 | W16 => 16 | W32 => 32 | W64 => 64 end.

Definition call_of (w : width) (type : Z) (ops : Z * Z) : record_call :=
  match w with
  | W8 => Br8 type (fst ops) (snd ops) 0
  | W16 => Br16 type (fst ops) (snd ops) 0
  | W32 => Br32 type (fst ops) (snd ops) 0
  | W64 => Br64 type (fst ops) (snd ops) 0
  end.

(** What a recorder compares with 0, 1, 2 and 3 when the cell holds
    [cell]: the cell as a [char], masked to two bits in [log_strncmp]. *)
Definition state_read (c : record_call) (cell : Z) : Z :=
  if masks_cell c
  then CInt.sint 8 (Z.land (CInt.sint 8 cell) 3)
  else CInt.sint 8 cell.

(** What [log_strncmp] adds to the state it stores. *)
Definition packed_len (c : record_call) : Z :=
  match c with
  | Strncmp _ len _ _ => CInt.sint 32 (Z.shiftl len 2)
  | _ => 0
  end.

(** The block a recorder runs for an observation. *)
Definition mark (p : bool) (m : list Z) (br_id val extra : Z)
    : option (list Z) :=
  if p then mark_first m br_id val extra else mark_second m br_id val extra.


(** What a stream of operand pairs leaves in an unseen cell, [P] telling
    of a pair whether the predicate of the kind holds of its distance:
    bit 0 when it held of some pair, bit 1 when it failed of some pair. *)
Definition final_cell (P : Z * Z -> bool) (pairs : list (Z * Z)) : Z :=
  Z.lor (if existsb P pairs then 1 else 0)
        (if existsb (fun ops => negb (P ops)) pairs then 2 else 0).

(** What the recorder of width [w] decides for a pair under the kind
    group [f]: the test of the group applied to the [br_dist] it
    computes. *)
Definition recorded_polarity (w : width) (f : cmp_family) (ops : Z * Z) : bool :=
  holds f (distance_of (call_of w 0 ops)).

(** The polarity predicate of the specification for a pair: the
    predicate of the kind group on the distance
    [operand_a - operand_b], the exact difference. *)
Definition polarity_of (f : cmp_family) (ops : Z * Z) : bool :=
  holds f (fst ops - snd ops).

(** A pair the recorder of width [w] can be called with, whose
    difference fits the type it is computed in: always so for [char] and
    [short] operands, which are promoted to [int]. *)
Definition distance_fits (w : width) (ops : Z * Z) : Prop :=
  CInt.fits (operand_bits w) (fst ops) /\
  CInt.fits (operand_bits w) (snd ops) /\
  match w with
  | W8 | W16 => True
  | W32 | W64 => CInt.fits (operand_bits w) (fst ops - snd ops)
  end.

(** The two [int] values a capture call stores: each integer operand
    cast to [int], the first character of each string operand. *)
Definition stored_values (c : check_call) : Z * Z :=
  match c with
  | Chk8 op1 op2 _ | Chk16 op1 op2 _ | Chk32 op1 op2 _ | Chk64 op1 op2 _ =>
      (CInt.sint 32 op1, CInt.sint 32 op2)
  | ChkStrcmp _ op1 op2 _ _ | ChkStrncmp _ op1 op2 _ _ _ =>
      (CInt.sint 32 (first_char op1), CInt.sint 32 (first_char op2))
  end.

(** The integer operands of a capture call, with their width in bits. *)
Definition int_operands (c : check_call) : option (Z * Z * Z) :=
  match c with
  | Chk8 op1 op2 _ => Some (8, op1, op2)
  | Chk16 op1 op2 _ => Some (16, op1, op2)
  | Chk32 op1 op2 _ => Some (32, op1, op2)
  | Chk64 op1 op2 _ => Some (64, op1, op2)
  | ChkStrcmp _ _ _ _ _ | ChkStrncmp _ _ _ _ _ _ => None
  end.

(** A map of sixteen bytes whose first word is 7. *)
Definition capture_map : list Z := 7 :: replicate 15 0.

(** The failures of the protocol: a read or a write that does not
    transfer four bytes, a [fork] or a [waitpid] that returns a negative
    value. *)
Definition protocol_failure (pt : fs_point) (a : answer) : bool :=
  match pt with
  | AtHandshake | AtRead | AtWritePid | AtWriteStatus => negb (ret a =? 4)
  | AtFork => CInt.sint 32 (ret a) <? 0
  | AtReap | AtWait => ret a <? 0
  end.

(** A [waitpid] that asks for stopped children too. *)
Definition reports_stops (c : syscall) : bool :=
  match c with
  | SysWaitpid _ options => negb (Z.land options WUNTRACED =? 0)
  | _ => false
  end.

(** The call of the fast path: [kill(child_pid, SIGCONT)]. *)
Definition resumes_child (c : syscall) : bool :=
  match c with
  | SysKill _ _ => true
  | _ => false
  end.

Definition raises_signal (c : syscall) : bool :=
  match c with
  | SysRaise _ => true
  | _ => false
  end.

(** What the kernel guarantees about the answers in a script: a
    [waitpid] called without [WUNTRACED] does not report a stopped
    child.  The script is followed from the status [s]. *)
Fixpoint kernel_waits (P : platform) (is_persistent : Z) (s : fs_status)
    (script : list answer) : bool :=
  match s, script with
  | FsAt pt l, a :: rest =>
      (reports_stops (pending P is_persistent pt l)
       || match pending P is_persistent pt l with
          | SysWaitpid _ _ => negb (WIFSTOPPED (CInt.sint 32 (data a)))
          | _ => true
          end)
      && kernel_waits P is_persistent (snd (fs_step P pt l a)) rest
  | _, _ => true
  end.

(** ** More of the two sources *)

(** A path through instrumented blocks: the edge instructions run for
    each location in turn. *)
Fixpoint record_edges (locs : list Z) (rt : runtime) : option runtime :=
  match locs with
  | [] => Some rt
  | c :: rest => rt' ← record_edge c rt; record_edges rest rt'
  end.

(** The map indices a path touches, from the register value [prev]. *)
Fixpoint edge_keys (prev : Z) (locs : list Z) : list Z :=
  match locs with
  | [] => []
  | c :: rest => Z.lxor c prev :: edge_keys (Z.shiftr c 1) rest
  end.

(** The argument the pass computes for [log_br] from two operands of an
    integer type of [bits] bits (pass, lines 173-181): the subtraction in
    that type, sign-extended to 64 bits below 64 bits, truncated to 64
    bits at 128 bits. *)
Definition pass_br_dist (bits op1 op2 : Z) : Z :=
  let br_dist := CInt.sint bits (op1 - op2) in
  if bits <? 64 then br_dist
  else if bits =? 128 then CInt.sint 64 br_dist
  else br_dist.

(** [sprintf(p, "%02X", v)] for an [int] argument: the digits of the
    value read as [unsigned int], in upper-case hexadecimal, at least
    two of them; as character codes. *)
Definition hex_digit (d : Z) : Z := if d <? 10 then 48 + d else 55 + d.

Fixpoint to_hex (fuel : nat) (u : Z) : list Z :=
  match fuel with
  | O => []
  | S fuel' =>
      if u <? 16 then [hex_digit u]
      else to_hex fuel' (u / 16) ++ [hex_digit (u mod 16)]
  end.

Definition sprintf_02X (v : Z) : list Z :=
  let ds := to_hex 8 (CInt.uint 32 v) in
  if (length ds <? 2)%nat then 48 :: ds else ds.

(** Consecutive bytes stored from index [i] on. *)
Fixpoint write_bytes (m : list Z) (i : Z) (bs : list Z) : option (list Z) :=
  match bs with
  | [] => Some m
  | b :: rest => m' ← Mem.store_u8 m i b; write_bytes m' (i + 1) rest
  end.

(** The loop of [string2hexString] (lines 865-870), on the part of the
    input buffer from [input[loop]] on; the result is the output buffer
    and [i].  Running off the input buffer is [None]. *)
Fixpoint hex_loop (input output : list Z) (i : Z) : option (list Z * Z) :=
  match input with
  | [] => None
  | b :: rest =>
      let c := CInt.sint 8 b in
      if negb (c =? 0) then
        out ← write_bytes output i (sprintf_02X c ++ [0]);
        hex_loop rest out (i + 2)
      else Some (output, i)
  end.

(** [string2hexString] (lines 857-873). *)
Definition string2hexString (input output : list Z) : option (list Z) :=
  r ← hex_loop input output 0;
  Mem.store_u8 (fst r) (snd r) 0.

(** The loop of [string2hexStringn] (lines 882-887): [input[loop]] is
    read before [loop < len] is tested. *)
Fixpoint hex_loopn (input output : list Z) (i loop len : Z)
    : option (list Z * Z) :=
  match input with
  | [] => None
  | b :: rest =>
      let c := CInt.sint 8 b in
      if negb (c =? 0) && (loop <? len) then
        out ← write_bytes output i (sprintf_02X c ++ [0]);
        hex_loopn rest out (i + 2) (loop + 1) len
      else Some (output, i)
  end.

(** [string2hexStringn] (lines 875-890). *)
Definition string2hexStringn (input output : list Z) (len : Z)
    : option (list Z) :=
  r ← hex_loopn input output 0 0 len;
  Mem.store_u8 (fst r) (snd r) 0.

(** The text in a buffer: the characters before the first NUL. *)
Fixpoint c_string (buf : list Z) : list Z :=
  match buf with
  | [] => []
  | b :: rest => if b =? 0 then [] else b :: c_string rest
  end.

(** Two hexadecimal digits for each character of a text. *)
Definition hex_pair (b : Z) : list Z := [hex_digit (b / 16); hex_digit (b mod 16)].

Definition hex_text (s : list Z) : list Z := concat (map hex_pair s).

(** The value of a hexadecimal digit, and the text two digits a
    character spell. *)
Definition unhex_digit (d : Z) : Z := if d <? 58 then d - 48 else d - 55.

Fixpoint unhex_text (h : list Z) : list Z :=
  match h with
  | hi :: lo :: rest => (16 * unhex_digit hi + unhex_digit lo) :: unhex_text rest
  | _ => []
  end.

(** A call of the fork server that names a process names a child. *)
Definition names_child (c : syscall) : bool :=
  match c with
  | SysWaitpid pid _ | SysKill pid _ => 0 <? pid
  | _ => true
  end.

(** The least upper bound of two states. *)
Definition state_join (a b : br_state) : br_state :=
  match a, b with
  | Unseen, s | s, Unseen => s
  | Polarity1, Polarity1 => Polarity1
  | Polarity2, Polarity2 => Polarity2
  | _, _ => Saturated
  end.

(** A stream of results of [strcmp] fed to [log_strcmp], and a stream of
    lengths and results of [strncmp] fed to [log_strncmp]. *)
Definition strcmp_calls (rets : list Z) : list record_call :=
  map (fun r => Strcmp 0 r 0) rets.

Definition strncmp_calls (rs : list (Z * Z)) : list record_call :=
  map (fun lr => Strncmp 0 (fst lr) (snd lr) 0) rs.

(** The locals name a child wherever the function is about to use
    [child_pid]. *)
Definition names_child_inv (pt : fs_point) (l : fs_locals) : Prop :=
  (pt = AtReap \/ pt = AtWritePid \/ pt = AtWait \/ pt = AtWriteStatus ->
   0 < child_pid l) /\
  (child_stopped l <> 0 -> 0 < child_pid l).

(** * Part II: facts *)

(** ** Fixed-width integers *)

(** The ranges of the four operand widths, written out. *)
Ltac fits_consts :=
  unfold CInt.fits in *;
  change (Z.min 8 32) with 8 in *; change (Z.min 16 32) with 16 in *;
  change (Z.min 32 32) with 32 in *; change (Z.min 64 32) with 32 in *;
  change (2 ^ (8 - 1)) with 128 in *;
  change (2 ^ (16 - 1)) with 32768 in *;
  change (2 ^ (32 - 1)) with 2147483648 in *;
  change (2 ^ (64 - 1)) with 9223372036854775808 in *.

Lemma pow2_double w : 0 < w -> 2 ^ w = 2 * 2 ^ (w - 1).
Proof.
  intros Hw. rewrite <- Z.pow_succ_r by lia. f_equal. lia.
Qed.

Lemma sint_fits w x : 0 < w -> CInt.fits w x -> CInt.sint w x = x.
Proof.
  unfold CInt.fits, CInt.sint. intros Hw Hx.
  pose proof (pow2_double w Hw) as E.
  rewrite Z.mod_small; lia.
Qed.

Lemma sint_range w x : 0 < w -> CInt.fits w (CInt.sint w x).
Proof.
  unfold CInt.fits, CInt.sint. intros Hw.
  pose proof (pow2_double w Hw) as E.
  assert (0 < 2 ^ (w - 1)) by (apply Z.pow_pos_nonneg; lia).
  pose proof (Z.mod_pos_bound (x + 2 ^ (w - 1)) (2 ^ w)). lia.
Qed.

(** A stored value differs from the exact one by a multiple of [2 ^ w]. *)
Lemma sint_congruent w x : 0 < w -> exists q, CInt.sint w x = x - q * 2 ^ w.
Proof.
  intros Hw. unfold CInt.sint.
  exists ((x + 2 ^ (w - 1)) / 2 ^ w).
  assert (0 < 2 ^ w) by (apply Z.pow_pos_nonneg; lia).
  pose proof (Z.div_mod (x + 2 ^ (w - 1)) (2 ^ w)). lia.
Qed.

Lemma uint_range w x : 0 <= w -> 0 <= CInt.uint w x < 2 ^ w.
Proof.
  intros Hw. unfold CInt.uint. apply Z.mod_pos_bound.
  apply Z.pow_pos_nonneg; lia.
Qed.

Lemma uint_small w x : 0 <= x < 2 ^ w -> CInt.uint w x = x.
Proof. intros H. unfold CInt.uint. apply Z.mod_small. exact H. Qed.

Lemma sint8_byte b :
  0 <= b < 256 -> CInt.sint 8 b = if b <? 128 then b else b - 256.
Proof.
  intros Hb. unfold CInt.sint. change (2 ^ (8 - 1)) with 128.
  change (2 ^ 8) with 256.
  destruct (Z.ltb_spec b 128).
  - rewrite Z.mod_small; lia.
  - replace (b + 128) with ((b - 128) + 1 * 256) by lia.
    rewrite Z.mod_add by lia. rewrite Z.mod_small; lia.
Qed.

Lemma land3_mod4 x : Z.land x 3 = x mod 4.
Proof. change 3 with (Z.ones 2). rewrite Z.land_ones by lia. reflexivity. Qed.

Lemma land3_range x : 0 <= Z.land x 3 < 4.
Proof. rewrite land3_mod4. apply Z.mod_pos_bound. lia. Qed.

(** ** Byte buffers *)

Lemma load_u8_Some m i b :
  Mem.load_u8 m i = Some b <-> 0 <= i /\ m !! Z.to_nat i = Some b.
Proof.
  unfold Mem.load_u8. destruct (Z.leb_spec 0 i) as [Hi|Hi]; split.
  - auto.
  - intros [_ E]. exact E.
  - discriminate.
  - intros [Hge _]. lia.
Qed.

Lemma load_u8_in_range m i :
  0 <= i < Z.of_nat (length m) -> exists b, Mem.load_u8 m i = Some b.
Proof.
  intros Hi. unfold Mem.load_u8.
  destruct (Z.leb_spec 0 i); [|lia].
  destruct (lookup_lt_is_Some_2 m (Z.to_nat i)) as [b Hb]; [lia|eauto].
Qed.

Lemma load_u8_bound m i b :
  Mem.load_u8 m i = Some b -> 0 <= i < Z.of_nat (length m).
Proof.
  intros H. apply load_u8_Some in H as [Hi Hb].
  apply lookup_lt_Some in Hb. lia.
Qed.

Lemma store_u8_in_range m i v :
  0 <= i < Z.of_nat (length m) ->
  Mem.store_u8 m i v = Some (<[Z.to_nat i := v mod 256]> m).
Proof.
  intros Hi. unfold Mem.store_u8.
  destruct (Z.leb_spec 0 i); [|lia].
  destruct (Z.ltb_spec i (Z.of_nat (length m))); [reflexivity|lia].
Qed.

Lemma store_u8_Some m i v m' :
  Mem.store_u8 m i v = Some m' ->
  0 <= i < Z.of_nat (length m) /\ m' = <[Z.to_nat i := v mod 256]> m.
Proof.
  unfold Mem.store_u8.
  destruct (Z.leb_spec 0 i); destruct (Z.ltb_spec i (Z.of_nat (length m)));
    simpl; intros E; inversion E; subst; split; auto; lia.
Qed.

Lemma store_u8_length m i v m' :
  Mem.store_u8 m i v = Some m' -> length m' = length m.
Proof.
  intros H. apply store_u8_Some in H as [_ ->]. apply length_insert.
Qed.

Lemma load_store_same m i v m' :
  Mem.store_u8 m i v = Some m' -> Mem.load_u8 m' i = Some (v mod 256).
Proof.
  intros H. apply store_u8_Some in H as [Hi ->].
  apply load_u8_Some. split; [lia|].
  apply list_lookup_insert_eq. lia.
Qed.

Lemma load_store_other m i v m' j :
  Mem.store_u8 m i v = Some m' -> j <> i ->
  Mem.load_u8 m' j = Mem.load_u8 m j.
Proof.
  intros H Hne. apply store_u8_Some in H as [Hi ->].
  unfold Mem.load_u8. destruct (Z.leb_spec 0 j); [|reflexivity].
  apply list_lookup_insert_ne. lia.
Qed.

(** ** Branch-distance recorder *)

Lemma holds_complement f d :
  holds f d = false ->
  match f with
  | FamGt => d <=? 0
  | FamEq => negb (d =? 0)
  | FamGe => d <? 0
  | FamLt => d >=? 0
  | FamLe => d >? 0
  end = true.
Proof.
  destruct f; simpl; intros H.
  - destruct (Z.gtb_spec d 0); [discriminate|]. apply Z.leb_le. lia.
  - rewrite H. reflexivity.
  - rewrite Z.geb_leb in H. apply Z.leb_gt in H. apply Z.ltb_lt. lia.
  - apply Z.ltb_ge in H. rewrite Z.geb_leb. apply Z.leb_le. lia.
  - apply Z.leb_gt in H. rewrite Z.gtb_ltb. apply Z.ltb_lt. lia.
Qed.

(** The [switch] runs the first block when the predicate of the kind
    holds and the second block when it does not. *)
Lemma log_br_switch_mark m br_id type br_dist val :
  log_br_switch m br_id type br_dist val =
  match switch_case type with
  | Some f => mark (holds f br_dist) m br_id val 0
  | None => Some m
  end.
Proof.
  unfold log_br_switch, mark.
  destruct (switch_case type) as [f|]; [|reflexivity].
  destruct (holds f br_dist) eqn:E.
  - destruct f; simpl in E; rewrite E; reflexivity.
  - pose proof (holds_complement f br_dist E) as C.
    destruct f; simpl in E, C; rewrite E; try rewrite C; reflexivity.
Qed.

(** At a cell that reads 3 neither block stores. *)
Lemma mark_saturated p m br_id extra : mark p m br_id 3 extra = Some m.
Proof. destruct p; reflexivity. Qed.

(** Every recorder is: read the cell, run the block of the observation. *)
Lemma record_branch_mark m br_id c cell :
  Mem.load_u8 m br_id = Some cell ->
  record_branch m br_id c =
  match observed c with
  | Some p => mark p m br_id (state_read c cell) (packed_len c)
  | None => Some m
  end.
Proof.
  intros Hload.
  assert (forall bits type op1 op2 cl,
    log_br bits m br_id type op1 op2 cl =
    match switch_case type with
    | Some f => mark (holds f (CInt.sint bits (op1 - op2))) m br_id
                  (CInt.sint 8 cell) 0
    | None => Some m
    end) as Hbr.
  { intros. unfold log_br, Mem.load_char. rewrite Hload. simpl.
    rewrite log_br_switch_mark.
    destruct (Z.eqb_spec (CInt.sint 8 cell) 3) as [E|E]; [|reflexivity].
    rewrite E. destruct (switch_case type); [|reflexivity].
    rewrite mark_saturated. reflexivity. }
  destruct c; unfold observed, state_read;
    cbn [record_branch family_of distance_of masks_cell packed_len];
    unfold log_br8, log_br16, log_br32, log_br64;
    try (rewrite Hbr; destruct (switch_case type); reflexivity).
  - unfold log_strcmp, Mem.load_char. rewrite Hload. simpl.
    destruct (Z.eqb_spec (CInt.sint 8 cell) 3) as [E|E].
    + rewrite E, mark_saturated. reflexivity.
    + unfold mark. destruct (ret0 =? 0); reflexivity.
  - unfold log_strncmp, Mem.load_char. rewrite Hload. simpl.
    destruct (Z.eqb_spec (CInt.sint 8 (Z.land (CInt.sint 8 cell) 3)) 3) as [E|E].
    + rewrite E, mark_saturated. reflexivity.
    + unfold mark. destruct (ret0 =? 0); reflexivity.
Qed.

Lemma land3_stored k e :
  0 <= k < 4 -> e mod 4 = 0 -> Z.land ((k + e) mod 256) 3 = k.
Proof.
  intros Hk He. rewrite land3_mod4.
  rewrite Z.mod_mod_divide by (exists 64; lia).
  rewrite Z.add_mod by lia. rewrite He, Z.add_0_r, Z.mod_mod by lia.
  apply Z.mod_small. exact Hk.
Qed.

Lemma packed_len_aligned c : packed_len c mod 4 = 0.
Proof.
  destruct c; try reflexivity. simpl.
  destruct (sint_congruent 32 (Z.shiftl len 2)) as [q ->]; [lia|].
  rewrite Z.shiftl_mul_pow2 by lia.
  replace (len * 2 ^ 2 - q * 2 ^ 32) with ((len - q * 2 ^ 30) * 4) by lia.
  apply Z.mod_mul. lia.
Qed.

Lemma land3_sint8 cell : 0 <= cell < 256 -> Z.land (CInt.sint 8 cell) 3 = Z.land cell 3.
Proof.
  intros Hb. rewrite sint8_byte by exact Hb.
  destruct (cell <? 128); [reflexivity|].
  rewrite !land3_mod4.
  replace (cell - 256) with (cell + (-64) * 4) by lia.
  apply Z.mod_add. lia.
Qed.

(** What a recorder reads as the state is the state of the cell whenever
    it reads one of 0, 1, 2, 3. *)
Lemma state_read_bits c cell :
  0 <= cell < 256 -> 0 <= state_read c cell < 4 ->
  Z.land cell 3 = state_read c cell.
Proof.
  intros Hb. unfold state_read. destruct (masks_cell c).
  - intros _. pose proof (land3_range (CInt.sint 8 cell)) as R.
    rewrite sint_fits; [apply eq_sym, land3_sint8, Hb|lia|].
    unfold CInt.fits. simpl. lia.
  - rewrite sint8_byte by exact Hb. destruct (Z.ltb_spec cell 128); intros Hs.
    + rewrite land3_mod4. apply Z.mod_small. lia.
    + lia.
Qed.

Lemma state_read_exact c cell :
  0 <= cell < 256 -> masks_cell c = true \/ cell < 4 ->
  state_read c cell = Z.land cell 3.
Proof.
  intros Hb Hc. unfold state_read. destruct (masks_cell c) eqn:E.
  - pose proof (land3_range (CInt.sint 8 cell)) as R.
    rewrite sint_fits; [apply land3_sint8, Hb|lia|].
    unfold CInt.fits. simpl. lia.
  - destruct Hc as [Hc|Hc]; [discriminate|].
    rewrite sint8_byte by exact Hb. destruct (Z.ltb_spec cell 128); [|lia].
    rewrite land3_mod4. symmetry. apply Z.mod_small. lia.
Qed.

Lemma state_of_bits cell k :
  Z.land cell 3 = k ->
  state_of cell =
  match k with 0 => Unseen | 1 => Polarity1 | 2 => Polarity2 | _ => Saturated end.
Proof. intros <-. reflexivity. Qed.

Lemma state_le_refl s : state_le s s = true.
Proof. destruct s; reflexivity. Qed.


Lemma state_le_antisym a b :
  state_le a b = true -> state_le b a = true -> a = b.
Proof. destruct a, b; simpl; congruence. Qed.

Lemma spec_next_above s o : state_le s (spec_next s o) = true.
Proof. destruct s, o as [[]|]; reflexivity. Qed.

(** The code of a state, as the recorders store it. *)
Lemma mark_store p m br_id s e :
  mark p m br_id s e =
  if s =? 0 then Mem.store_u8 m br_id ((if p then 1 else 2) + e)
  else if s =? (if p then 2 else 1) then Mem.store_u8 m br_id (3 + e)
  else Some m.
Proof. destruct p; reflexivity. Qed.

(** One call of a recorder, at a cell inside the map. *)
Lemma record_branch_step m br_id c cell :
  Mem.load_u8 m br_id = Some cell -> 0 <= cell < 256 ->
  exists m' cell',
    record_branch m br_id c = Some m' /\
    Mem.load_u8 m' br_id = Some cell' /\ 0 <= cell' < 256 /\
    (forall j, j <> br_id -> Mem.load_u8 m' j = Mem.load_u8 m j) /\
    state_le (state_of cell) (state_of cell') = true /\
    (state_of cell' = state_of cell -> m' = m) /\
    (masks_cell c = true \/ cell < 4 ->
     state_of cell' = spec_next (state_of cell) (observed c)) /\
    (cell = 3 -> m' = m).
Proof.
  intros Hload Hb.
  pose proof (load_u8_bound _ _ _ Hload) as Hin.
  rewrite (record_branch_mark _ _ _ _ Hload).
  assert (exists m' cell', Some m = Some m' /\
    Mem.load_u8 m' br_id = Some cell' /\ 0 <= cell' < 256 /\
    (forall j, j <> br_id -> Mem.load_u8 m' j = Mem.load_u8 m j) /\
    state_le (state_of cell) (state_of cell') = true /\
    (state_of cell' = state_of cell -> m' = m) /\
    (cell = 3 -> m' = m) /\ cell' = cell) as Hsame.
  { exists m, cell. repeat split; auto using state_le_refl; lia. }
  destruct (observed c) as [p|] eqn:Hobs.
  2:{ destruct Hsame as (m' & cell' & E & H1 & H2 & H3 & H4 & H5 & H6 & ->).
      exists m', cell. repeat split; auto; lia. }
  rewrite mark_store.
  pose proof (state_read_bits c cell Hb) as Hbits.
  pose proof (state_read_exact c cell Hb) as Hexact.
  pose proof (packed_len_aligned c) as Hal.
  set (s := state_read c cell) in *.
  assert (forall k, 0 < k < 4 -> s = 0 \/ (s <> 3 /\ 0 < s < 4) ->
    (s = 0 -> state_of ((k + packed_len c) mod 256) =
              spec_next (state_of cell) (Some p)) ->
    (s <> 0 -> state_of ((k + packed_len c) mod 256) = Saturated /\
               spec_next (state_of cell) (Some p) = Saturated) ->
    exists m' cell',
      Mem.store_u8 m br_id (k + packed_len c) = Some m' /\
      Mem.load_u8 m' br_id = Some cell' /\ 0 <= cell' < 256 /\
      (forall j, j <> br_id -> Mem.load_u8 m' j = Mem.load_u8 m j) /\
      state_le (state_of cell) (state_of cell') = true /\
      (state_of cell' = state_of cell -> m' = m) /\
      (masks_cell c = true \/ cell < 4 ->
       state_of cell' = spec_next (state_of cell) (Some p)) /\
      (cell = 3 -> m' = m)) as Hstore.
  { intros k Hk' Hs H0 H1.
    assert (0 <= k < 4) as Hk by lia.
    assert (Z.land cell 3 = s) as Hland by (apply Hbits; lia).
    assert (state_of ((k + packed_len c) mod 256) =
            spec_next (state_of cell) (Some p)) as Hnext.
    { destruct (Z.eq_dec s 0) as [Es|Es]; [auto|].
      destruct (H1 Es) as [-> ->]. reflexivity. }
    assert (state_of ((k + packed_len c) mod 256) <> state_of cell) as Hne.
    { rewrite (state_of_bits _ _ (land3_stored k _ Hk Hal)).
      rewrite (state_of_bits _ _ Hland).
      destruct (Z.eq_dec s 0) as [Es|Es].
      - rewrite Es.
        assert (k = 1 \/ k = 2 \/ k = 3) as [->|[->| ->]] by lia; discriminate.
      - destruct (H1 Es) as [Hsat _].
        rewrite (state_of_bits _ _ (land3_stored k _ Hk Hal)) in Hsat.
        rewrite Hsat.
        assert (s = 1 \/ s = 2) as [->| ->] by lia; discriminate. }
    eexists _, _. split; [apply store_u8_in_range, Hin|].
    split; [eapply load_store_same, store_u8_in_range, Hin|].
    split; [apply Z.mod_pos_bound; lia|].
    split; [intros j Hj; eapply load_store_other;
            [apply store_u8_in_range, Hin|exact Hj]|].
    split; [rewrite Hnext; apply spec_next_above|].
    split; [intros E; contradiction|].
    split; [intros _; exact Hnext|].
    intros ->. exfalso.
    assert (s = 3) as E3 by (rewrite Hexact by lia; reflexivity). lia. }
  assert (forall k, Z.land cell 3 = k ->
            state_of cell = match k with 0 => Unseen | 1 => Polarity1
                                  | 2 => Polarity2 | _ => Saturated end) as Hst.
  { intros k Hk. apply state_of_bits, Hk. }
  destruct (Z.eqb_spec s 0) as [E0|E0].
  - apply Hstore; [destruct p; lia|auto| |congruence].
    assert (0 <= (if p then 1 else 2) < 4) as Hp by (destruct p; lia).
    intros _. rewrite (state_of_bits _ _ (land3_stored _ _ Hp Hal)).
    rewrite (Hst s) by (apply Hbits; lia). rewrite E0.
    destruct p; reflexivity.
  - destruct (Z.eqb_spec s (if p then 2 else 1)) as [E1|E1].
    + apply Hstore; [lia|right; destruct p; lia|congruence|].
      intros _. rewrite (state_of_bits _ _ (land3_stored 3 _ ltac:(lia) Hal)).
      rewrite (Hst s) by (apply Hbits; destruct p; lia). rewrite E1.
      destruct p; split; reflexivity.
    + destruct Hsame as (m' & cell' & E & H1 & H2 & H3 & H4 & H5 & H6 & ->).
      exists m', cell. repeat split; auto; try lia.
      intros Hc. rewrite (Hst s) by (symmetry; apply Hexact, Hc).
      assert (0 <= s < 4) as Hs.
      { rewrite Hexact by exact Hc. apply land3_range. }
      assert (s = 3 \/ s = (if p then 1 else 2)) as [->|Es].
      { destruct p; lia. }
      * destruct p; reflexivity.
      * rewrite Es. destruct p; reflexivity.
Qed.






(** ** Order independence *)

Lemma existsb_Permutation {A} (f : A -> bool) l l' :
  Permutation l l' -> existsb f l = existsb f l'.
Proof.
  induction 1 as [|x l l' _ IH|x y l|l l' l'' _ IH1 _ IH2]; simpl.
  - reflexivity.
  - rewrite IH. reflexivity.
  - destruct (f x), (f y); reflexivity.
  - congruence.
Qed.

Lemma final_cell_Permutation (P : Z * Z -> bool) pairs pairs' :
  Permutation pairs pairs' -> final_cell P pairs = final_cell P pairs'.
Proof.
  intros H. unfold final_cell.
  rewrite (existsb_Permutation P _ _ H).
  rewrite (existsb_Permutation (fun ops : Z * Z => negb (P ops)) _ _ H).
  reflexivity.
Qed.

Lemma final_cell_cons (P : Z * Z -> bool) (ops : Z * Z) rest cell :
  0 <= cell < 4 ->
  Z.lor (Z.lor cell (if P ops then 1 else 2)) (final_cell P rest) =
  Z.lor cell (final_cell P (ops :: rest)).
Proof.
  intros Hc. unfold final_cell. simpl.
  assert (cell = 0 \/ cell = 1 \/ cell = 2 \/ cell = 3)
    as [->|[->|[->| ->]]] by lia;
    destruct (P ops), (existsb P rest),
      (existsb (fun ops : Z * Z => negb (P ops)) rest); reflexivity.
Qed.

Lemma final_cell_range (P : Z * Z -> bool) pairs : 0 <= final_cell P pairs < 4.
Proof.
  unfold final_cell.
  destruct (existsb P pairs), (existsb (fun ops : Z * Z => negb (P ops)) pairs);
    vm_compute; split; congruence.
Qed.

Lemma lor_state_range cell (p : bool) :
  0 <= cell < 4 -> 0 <= Z.lor cell (if p then 1 else 2) < 4.
Proof.
  intros Hc.
  assert (cell = 0 \/ cell = 1 \/ cell = 2 \/ cell = 3)
    as [->|[->|[->| ->]]] by lia; destruct p; vm_compute; split; congruence.
Qed.

Lemma distance_of_call w type type' ops :
  distance_of (call_of w type ops) = distance_of (call_of w type' ops).
Proof. destruct w; reflexivity. Qed.

Lemma observed_call_of w type ops :
  observed (call_of w type ops) =
  match switch_case type with
  | Some f => Some (recorded_polarity w f ops)
  | None => None
  end.
Proof.
  unfold observed, recorded_polarity.
  rewrite (distance_of_call w type 0).
  destruct w; reflexivity.
Qed.

(** An integer recorder at a cell that reads 0, 1, 2 or 3 sets the bit of
    the polarity it observes. *)
Lemma record_int_lor w type f ops m br_id cell :
  switch_case type = Some f ->
  Mem.load_u8 m br_id = Some cell -> 0 <= cell < 4 ->
  record_branch m br_id (call_of w type ops) =
  Some (<[Z.to_nat br_id := Z.lor cell (if recorded_polarity w f ops then 1 else 2)]> m).
Proof.
  intros Hf Hload Hc.
  pose proof (load_u8_bound _ _ _ Hload) as Hin.
  apply load_u8_Some in Hload as Hlook. destruct Hlook as [_ Hlook].
  rewrite (record_branch_mark _ _ _ _ Hload), observed_call_of, Hf.
  rewrite mark_store.
  assert (state_read (call_of w type ops) cell = cell) as ->.
  { rewrite state_read_exact by lia. rewrite land3_mod4.
    apply Z.mod_small. lia. }
  assert (packed_len (call_of w type ops) = 0) as -> by (destruct w; reflexivity).
  rewrite !Z.add_0_r.
  set (p := recorded_polarity w f ops).
  assert (cell = 0 \/ cell = 1 \/ cell = 2 \/ cell = 3)
    as [->|[->|[->| ->]]] by lia; destruct p; simpl;
    try (rewrite store_u8_in_range by exact Hin; reflexivity);
    rewrite list_insert_id by exact Hlook; reflexivity.
Qed.

(** The closed form of a stream of pairs at one site. *)
Lemma record_pairs_closed w type f m br_id pairs : forall cell,
  switch_case type = Some f ->
  Mem.load_u8 m br_id = Some cell -> 0 <= cell < 4 ->
  record_all m br_id (map (call_of w type) pairs) =
  Some (<[Z.to_nat br_id := Z.lor cell (final_cell (recorded_polarity w f) pairs)]> m).
Proof.
  revert m. induction pairs as [|ops rest IH]; intros m cell Hf Hload Hc.
  - simpl. apply load_u8_Some in Hload as [_ Hlook].
    rewrite Z.lor_0_r, list_insert_id by exact Hlook. reflexivity.
  - simpl. rewrite (record_int_lor w type f ops m br_id cell Hf Hload Hc).
    simpl.
    pose proof (load_u8_bound _ _ _ Hload) as Hin.
    assert (Mem.load_u8
              (<[Z.to_nat br_id := Z.lor cell (if recorded_polarity w f ops then 1 else 2)]> m)
              br_id = Some (Z.lor cell (if recorded_polarity w f ops then 1 else 2)))
      as Hload'.
    { apply load_u8_Some. split; [lia|]. apply list_lookup_insert_eq. lia. }
    rewrite (IH _ _ Hf Hload' (lor_state_range _ _ Hc)).
    rewrite list_insert_insert_eq, final_cell_cons by exact Hc.
    reflexivity.
Qed.

(** A kind outside the table leaves the map alone. *)
Lemma record_pairs_unknown w type m br_id pairs cell :
  switch_case type = None ->
  Mem.load_u8 m br_id = Some cell ->
  record_all m br_id (map (call_of w type) pairs) = Some m.
Proof.
  intros Hf Hload. induction pairs as [|ops rest IH]; [reflexivity|].
  simpl. rewrite (record_branch_mark _ _ _ _ Hload), observed_call_of, Hf.
  simpl. exact IH.
Qed.

Lemma final_cell_saturated (P : Z * Z -> bool) pairs :
  final_cell P pairs = 3 <->
  (exists ops, In ops pairs /\ P ops = true) /\
  (exists ops, In ops pairs /\ P ops = false).
Proof.
  unfold final_cell.
  rewrite <- (existsb_exists P pairs).
  assert ((exists ops, In ops pairs /\ P ops = false) <->
          existsb (fun ops : Z * Z => negb (P ops)) pairs = true) as ->.
  { rewrite existsb_exists. split; intros (ops & Hin & Hp); exists ops;
      split; auto; destruct (P ops); simpl in *; congruence. }
  destruct (existsb P pairs), (existsb (fun ops : Z * Z => negb (P ops)) pairs);
    simpl; split; intros H; try discriminate; try tauto;
    destruct H; discriminate.
Qed.

(** For each integer recorder, each comparison kind and each finite
    sequence of operand pairs fed to it for one branch id from the unseen
    state: the sequence goes through; the map it leaves is the same for
    every order of the pairs; and, for a kind of the table, the cell ends
    saturated exactly when the recorder's test held of the [br_dist] it
    computed for some pair and failed of the one it computed for some
    pair. *)
Lemma recorded_state_order_independent (w : width) (type : Z)
    (m : list Z) (br_id : Z) (pairs pairs' : list (Z * Z)) :
  Mem.load_u8 m br_id = Some 0 ->
  Permutation pairs pairs' ->
  exists m',
    record_all m br_id (map (call_of w type) pairs) = Some m' /\
    record_all m br_id (map (call_of w type) pairs') = Some m' /\
    forall f, switch_case type = Some f ->
      (Mem.load_u8 m' br_id = Some 3 <->
       (exists ops, In ops pairs /\ recorded_polarity w f ops = true) /\
       (exists ops, In ops pairs /\ recorded_polarity w f ops = false)).
Proof.
  intros Hload Hperm.
  pose proof (load_u8_bound _ _ _ Hload) as Hin.
  destruct (switch_case type) as [f|] eqn:Hf.
  - exists (<[Z.to_nat br_id := Z.lor 0 (final_cell (recorded_polarity w f) pairs)]> m).
    split; [|split].
    + apply record_pairs_closed; auto; lia.
    + rewrite (final_cell_Permutation _ _ _ Hperm).
      apply record_pairs_closed; auto; lia.
    + intros f' Hf'. injection Hf' as <-.
      rewrite <- final_cell_saturated.
      assert (Mem.load_u8
                (<[Z.to_nat br_id := Z.lor 0 (final_cell (recorded_polarity w f) pairs)]> m)
                br_id = Some (final_cell (recorded_polarity w f) pairs)) as ->.
      { apply load_u8_Some. split; [lia|].
        rewrite Z.lor_0_l. apply list_lookup_insert_eq. lia. }
      split; congruence.
  - exists m. split; [|split].
    + eapply record_pairs_unknown; eauto.
    + eapply record_pairs_unknown; eauto.
    + intros f' Hf'. discriminate.
Qed.

(** ** The distance of an ordered comparison *)

(** [log_br8] and [log_br16] subtract after promotion to [int]: the
    distance of operands of those widths is the exact difference. *)
Lemma narrow_distance_exact (w : width) (type op1 op2 : Z) :
  w = W8 \/ w = W16 ->
  CInt.fits (operand_bits w) op1 -> CInt.fits (operand_bits w) op2 ->
  distance_of (call_of w type (op1, op2)) = op1 - op2.
Proof.
  unfold CInt.fits.
  intros [-> | ->]; simpl; intros H1 H2; apply sint_fits; try lia;
    unfold CInt.fits; simpl; lia.
Qed.

(** [log_br32] and [log_br64] subtract in the width of the operands: the
    distance is the exact difference when that fits the width. *)
Lemma wide_distance_exact (w : width) (type op1 op2 : Z) :
  w = W32 \/ w = W64 ->
  CInt.fits (operand_bits w) (op1 - op2) ->
  distance_of (call_of w type (op1, op2)) = op1 - op2.
Proof.
  intros [-> | ->]; simpl; intros H; apply sint_fits; try lia; exact H.
Qed.

(** C5, at the operands [INT_MAX] and [-1] of [log_br32] and
    [LLONG_MAX] and [-1] of [log_br64] under a greater-than kind: both
    operands fit their width and the exact difference is positive, so the
    predicate [distance > 0] holds of it; the recorders compute a negative
    distance, observe the other polarity and store 2 in an unseen cell,
    where the pair [(5, 3)] of the same polarity stores 1. *)
Theorem wide_distance_wraps :
  (CInt.fits 32 2147483647 /\ CInt.fits 32 (-1) /\
   holds FamGt (2147483647 - -1) = true /\
   distance_of (Br32 0 2147483647 (-1) 0) = -2147483648 /\
   observed (Br32 0 2147483647 (-1) 0) = Some false /\
   log_br32 [0] 0 0 2147483647 (-1) 0 = Some [2] /\
   log_br32 [0] 0 0 5 3 0 = Some [1]) /\
  (CInt.fits 64 9223372036854775807 /\ CInt.fits 64 (-1) /\
   holds FamGt (9223372036854775807 - -1) = true /\
   distance_of (Br64 0 9223372036854775807 (-1) 0) = -9223372036854775808 /\
   observed (Br64 0 9223372036854775807 (-1) 0) = Some false /\
   log_br64 [0] 0 0 9223372036854775807 (-1) 0 = Some [2] /\
   log_br64 [0] 0 0 5 3 0 = Some [1]).
Proof.
  unfold CInt.fits.
  split; repeat split; try (vm_compute; congruence); try reflexivity.
Qed.

(** ** The final state and the distance of the specification *)

(** Where the difference fits, the recorder decides as the predicate of
    the specification does. *)
Lemma recorded_polarity_exact (w : width) (f : cmp_family) (ops : Z * Z) :
  distance_fits w ops -> recorded_polarity w f ops = polarity_of f ops.
Proof.
  destruct ops as [op1 op2]. unfold distance_fits, recorded_polarity, polarity_of.
  cbn [fst snd]. intros (H1 & H2 & Hd). f_equal.
  destruct w.
  - apply narrow_distance_exact; auto.
  - apply narrow_distance_exact; auto.
  - apply wide_distance_exact; auto.
  - apply wide_distance_exact; auto.
Qed.

(** For pairs whose difference fits (every pair of [char] or [short]
    operands), the final state is as the specification has it: the same
    for every order, and saturated exactly when the predicate of the kind
    is true of the exact distance of some pair and false of the exact
    distance of some pair. *)
Lemma final_state_exact (w : width) (type : Z)
    (m : list Z) (br_id : Z) (pairs pairs' : list (Z * Z)) :
  Mem.load_u8 m br_id = Some 0 ->
  Permutation pairs pairs' ->
  (forall ops, In ops pairs -> distance_fits w ops) ->
  exists m',
    record_all m br_id (map (call_of w type) pairs) = Some m' /\
    record_all m br_id (map (call_of w type) pairs') = Some m' /\
    forall f, switch_case type = Some f ->
      (Mem.load_u8 m' br_id = Some 3 <->
       (exists ops, In ops pairs /\ polarity_of f ops = true) /\
       (exists ops, In ops pairs /\ polarity_of f ops = false)).
Proof.
  intros Hload Hperm Hfit.
  destruct (recorded_state_order_independent w type m br_id pairs pairs'
              Hload Hperm) as (m' & H1 & H2 & Hsat).
  exists m'. split; [exact H1|]. split; [exact H2|].
  intros f Hf. rewrite (Hsat f Hf).
  split; intros [(a & Ha & Hpa) (b & Hb & Hpb)]; split.
  - exists a. split; [exact Ha|].
    rewrite <- (recorded_polarity_exact w f a (Hfit a Ha)). exact Hpa.
  - exists b. split; [exact Hb|].
    rewrite <- (recorded_polarity_exact w f b (Hfit b Hb)). exact Hpb.
  - exists a. split; [exact Ha|].
    rewrite (recorded_polarity_exact w f a (Hfit a Ha)). exact Hpa.
  - exists b. split; [exact Hb|].
    rewrite (recorded_polarity_exact w f b (Hfit b Hb)). exact Hpb.
Qed.

(** C2, at a greater-than site of [log_br32] fed the pairs
    [(INT_MAX, -1)] and [(5, 3)] from the unseen state, and of [log_br64]
    fed [(LLONG_MAX, -1)] and [(5, 3)]: the operands fit their width and
    the predicate [distance > 0] is true of the distance
    [operand_a - operand_b] of both pairs, so the sequence holds no pair
    for which it is false; the final cell is the same in both orders, but
    it is saturated.  [log_br16] fed [(SHRT_MAX, -1)] and [(5, 3)] ends
    at polarity-1, as the claim has it. *)
Theorem final_state_wraps :
  (CInt.fits 32 2147483647 /\ CInt.fits 32 (-1) /\
   CInt.fits 32 5 /\ CInt.fits 32 3 /\
   switch_case 0 = Some FamGt /\
   existsb (polarity_of FamGt) [(2147483647, -1); (5, 3)] = true /\
   existsb (fun ops => negb (polarity_of FamGt ops))
     [(2147483647, -1); (5, 3)] = false /\
   record_all [0] 0 (map (call_of W32 0) [(2147483647, -1); (5, 3)])
     = Some [3] /\
   record_all [0] 0 (map (call_of W32 0) [(5, 3); (2147483647, -1)])
     = Some [3]) /\
  (CInt.fits 64 9223372036854775807 /\ CInt.fits 64 (-1) /\
   existsb (fun ops => negb (polarity_of FamGt ops))
     [(9223372036854775807, -1); (5, 3)] = false /\
   record_all [0] 0 (map (call_of W64 0) [(9223372036854775807, -1); (5, 3)])
     = Some [3] /\
   record_all [0] 0 (map (call_of W64 0) [(5, 3); (9223372036854775807, -1)])
     = Some [3]) /\
  (existsb (fun ops => negb (polarity_of FamGt ops))
     [(32767, -1); (5, 3)] = false /\
   record_all [0] 0 (map (call_of W16 0) [(32767, -1); (5, 3)]) = Some [1] /\
   record_all [0] 0 (map (call_of W16 0) [(5, 3); (32767, -1)]) = Some [1]).
Proof.
  unfold CInt.fits.
  split; [|split].
  - split; [vm_compute; split; congruence|].
    split; [vm_compute; split; congruence|].
    split; [vm_compute; split; congruence|].
    split; [vm_compute; split; congruence|].
    split; [reflexivity|].
    split; [reflexivity|].
    split; [reflexivity|].
    split; vm_compute; reflexivity.
  - split; [vm_compute; split; congruence|].
    split; [vm_compute; split; congruence|].
    split; [reflexivity|].
    split; vm_compute; reflexivity.
  - split; [reflexivity|].
    split; vm_compute; reflexivity.
Qed.

(** ** Edge coverage *)

Lemma lxor_below_pow2 a b k :
  0 <= k -> 0 <= a < 2 ^ k -> 0 <= b < 2 ^ k -> 0 <= Z.lxor a b < 2 ^ k.
Proof.
  intros Hk Ha Hb.
  assert (0 <= Z.lxor a b) as Hnn by (apply Z.lxor_nonneg; lia).
  split; [exact Hnn|].
  destruct (Z.eq_dec (Z.lxor a b) 0) as [E|E].
  - rewrite E. apply Z.pow_pos_nonneg; lia.
  - apply Z.log2_lt_pow2; [lia|].
    pose proof (Z.log2_lxor a b ltac:(lia) ltac:(lia)) as Hl.
    assert (forall x, 0 <= x < 2 ^ k -> x <> 0 -> Z.log2 x < k) as Hlog.
    { intros x Hx Hx0. apply Z.log2_lt_pow2; lia. }
    assert (0 < k) as Hkpos.
    { destruct (Z.eq_dec k 0) as [->|]; [|lia].
      simpl in Ha, Hb. assert (a = 0) by lia. assert (b = 0) by lia.
      subst. rewrite Z.lxor_0_l in E. congruence. }
    destruct (Z.eq_dec a 0) as [->|Ha0]; destruct (Z.eq_dec b 0) as [->|Hb0].
    + rewrite Z.lxor_0_l in E. congruence.
    + rewrite Z.lxor_0_l. apply Hlog; lia.
    + rewrite Z.lxor_0_r. apply Hlog; lia.
    + pose proof (Hlog a Ha Ha0). pose proof (Hlog b Hb Hb0). lia.
Qed.

Lemma area_set_area rt m : area (set_area rt m) = m.
Proof. unfold area, set_area. destruct (afl_area_ptr rt); reflexivity. Qed.

Lemma area_set_prev_loc rt v : area (set_prev_loc rt v) = area rt.
Proof. reflexivity. Qed.

(** What the edge instructions do when the index is inside the map. *)
Lemma record_edge_step (rt : runtime) (c counter : Z) :
  0 <= c < 2 ^ 32 ->
  0 <= Z.lxor c (afl_prev_loc rt) < 2 ^ 31 ->
  Mem.load_u8 (area rt) (Z.lxor c (afl_prev_loc rt)) = Some counter ->
  exists rt',
    record_edge c rt = Some rt' /\
    Mem.load_u8 (area rt') (Z.lxor c (afl_prev_loc rt))
      = Some ((counter + 1) mod 256) /\
    (forall j, j <> Z.lxor c (afl_prev_loc rt) ->
       Mem.load_u8 (area rt') j = Mem.load_u8 (area rt) j) /\
    length (area rt') = length (area rt) /\
    afl_prev_loc rt' = Z.shiftr c 1 /\
    rt' = set_prev_loc
            (set_area rt (<[Z.to_nat (Z.lxor c (afl_prev_loc rt))
                            := (counter + 1) mod 256]> (area rt)))
            (Z.shiftr c 1).
Proof.
  intros Hc Hidx Hload.
  pose proof (load_u8_bound _ _ _ Hload) as Hin.
  assert (CInt.sint 32 (Z.lxor (afl_prev_loc rt) c)
          = Z.lxor c (afl_prev_loc rt)) as Hsint.
  { rewrite Z.lxor_comm. apply sint_fits; [lia|].
    unfold CInt.fits. simpl. lia. }
  assert (CInt.uint 32 (Z.shiftr c 1) = Z.shiftr c 1) as Hshift.
  { apply uint_small. rewrite Z.shiftr_div_pow2 by lia.
    change (2 ^ 1) with 2. split.
    - apply Z.div_pos; lia.
    - apply Z.div_lt_upper_bound; lia. }
  unfold record_edge. rewrite Hsint, Hload. simpl.
  rewrite store_u8_in_range by exact Hin. simpl. rewrite Hshift.
  eexists. split; [reflexivity|].
  rewrite area_set_prev_loc, area_set_area.
  repeat split.
  - apply load_u8_Some. split; [lia|]. apply list_lookup_insert_eq. lia.
  - intros j Hj. unfold Mem.load_u8. destruct (0 <=? j) eqn:E; [|reflexivity].
    apply list_lookup_insert_ne. apply Z.leb_le in E. lia.
  - apply length_insert.
Qed.

(** C3.  One execution of the edge instructions for the location [c],
    with [p] in the previous-location register and the byte at index
    [c XOR p] holding [counter]: that byte becomes [counter + 1] modulo
    256, every other byte of the map keeps its value, the register
    becomes [c >> 1], and the rest of the recorder state (which buffer the
    pointer designates, the persistent-mode variables, the
    initialisation flag) is as before. *)
Theorem record_edge_effect (rt : runtime) (c counter : Z) :
  0 <= c < 2 ^ 32 ->
  0 <= Z.lxor c (afl_prev_loc rt) < 2 ^ 31 ->
  Mem.load_u8 (area rt) (Z.lxor c (afl_prev_loc rt)) = Some counter ->
  exists rt',
    record_edge c rt = Some rt' /\
    Mem.load_u8 (area rt') (Z.lxor c (afl_prev_loc rt))
      = Some ((counter + 1) mod 256) /\
    (forall j, j <> Z.lxor c (afl_prev_loc rt) ->
       Mem.load_u8 (area rt') j = Mem.load_u8 (area rt) j) /\
    length (area rt') = length (area rt) /\
    afl_prev_loc rt' = Z.shiftr c 1 /\
    rt' = set_prev_loc
            (set_area rt (<[Z.to_nat (Z.lxor c (afl_prev_loc rt))
                            := (counter + 1) mod 256]> (area rt)))
            (Z.shiftr c 1).
Proof. exact (record_edge_step rt c counter). Qed.

(** The theorem in the starting state of the example platform, at
    location 5. *)
Lemma record_edge_effect_witness :
  exists rt',
    record_edge 5 (runtime_start (example_platform no_env)) = Some rt' /\
    Mem.load_u8 (area rt') 5 = Some 1 /\
    afl_prev_loc rt' = 2.
Proof.
  destruct (record_edge_effect (runtime_start (example_platform no_env)) 5 0)
    as (rt' & Hrun & Hbyte & _ & _ & Hprev & _).
  - lia.
  - vm_compute. split; congruence.
  - reflexivity.
  - exists rt'. split; [exact Hrun|]. split; [exact Hbyte|exact Hprev].
Defined.

(** With a map whose size is a power of two, locations below the size
    and a register below the size, the instructions stay inside the map
    and leave the register below the size. *)
Lemma record_edge_total (rt : runtime) (c k : Z) :
  0 <= k <= 31 ->
  Z.of_nat (length (area rt)) = 2 ^ k ->
  0 <= c < 2 ^ k -> 0 <= afl_prev_loc rt < 2 ^ k ->
  exists rt',
    record_edge c rt = Some rt' /\
    Z.of_nat (length (area rt')) = 2 ^ k /\
    0 <= afl_prev_loc rt' < 2 ^ k.
Proof.
  intros Hk Hlen Hc Hp.
  pose proof (lxor_below_pow2 c (afl_prev_loc rt) k ltac:(lia) Hc Hp) as Hx.
  assert (2 ^ k <= 2 ^ 31) as Hpow by (apply Z.pow_le_mono_r; lia).
  assert (2 ^ 31 < 2 ^ 32) as Hpow' by (apply Z.pow_lt_mono_r; lia).
  destruct (load_u8_in_range (area rt) (Z.lxor c (afl_prev_loc rt)))
    as [counter Hload]; [lia|].
  destruct (record_edge_step rt c counter)
    as (rt' & Hrun & _ & _ & Hlen' & Hprev & _); [lia|lia|exact Hload|].
  exists rt'. split; [exact Hrun|]. split; [rewrite Hlen'; exact Hlen|].
  rewrite Hprev, Z.shiftr_div_pow2 by lia. change (2 ^ 1) with 2. split.
  - apply Z.div_pos; lia.
  - apply Z.div_lt_upper_bound; lia.
Qed.

(** ** Target-branch value capture *)

(** The four bytes of an [int], least significant first, add up to the
    value modulo [2 ^ 32]. *)
Lemma int_bytes_sum v :
  CInt.sint 32 (v mod 256 + 256 * ((v / 256) mod 256)
                + 65536 * ((v / 65536) mod 256)
                + 16777216 * ((v / 16777216) mod 256))
  = CInt.sint 32 v.
Proof.
  pose proof (Z.div_mod v 256 ltac:(lia)) as E0.
  pose proof (Z.div_mod (v / 256) 256 ltac:(lia)) as E1.
  pose proof (Z.div_mod (v / 65536) 256 ltac:(lia)) as E2.
  pose proof (Z.div_mod (v / 16777216) 256 ltac:(lia)) as E3.
  replace (v / 256 / 256) with (v / 65536) in E1
    by (rewrite Z.div_div by lia; reflexivity).
  replace (v / 65536 / 256) with (v / 16777216) in E2
    by (rewrite Z.div_div by lia; reflexivity).
  set (q := v / 16777216 / 256) in *.
  unfold CInt.sint. change (2 ^ (32 - 1)) with 2147483648.
  change (2 ^ 32) with 4294967296.
  replace (v + 2147483648) with
    (v mod 256 + 256 * ((v / 256) mod 256) + 65536 * ((v / 65536) mod 256)
     + 16777216 * ((v / 16777216) mod 256) + 2147483648 + q * 4294967296)
    by lia.
  rewrite Z.mod_add by lia. reflexivity.
Qed.

Lemma store_int_in_range m k v :
  0 <= k -> 4 * k + 3 < Z.of_nat (length m) ->
  Mem.store_int m k v =
  Some (<[Z.to_nat (4 * k + 3) := (v / 16777216) mod 256]>
        (<[Z.to_nat (4 * k + 2) := (v / 65536) mod 256]>
         (<[Z.to_nat (4 * k + 1) := (v / 256) mod 256]>
          (<[Z.to_nat (4 * k) := v mod 256]> m)))).
Proof.
  intros Hk Hlen. unfold Mem.store_int.
  rewrite store_u8_in_range by lia. simpl.
  rewrite store_u8_in_range by (rewrite length_insert; lia). simpl.
  rewrite store_u8_in_range by (rewrite !length_insert; lia). simpl.
  rewrite store_u8_in_range by (rewrite !length_insert; lia).
  reflexivity.
Qed.

Lemma store_int_length m k v m' :
  Mem.store_int m k v = Some m' -> length m' = length m.
Proof.
  unfold Mem.store_int. intros H.
  destruct (Mem.store_u8 m (4 * k) v) as [m1|] eqn:E1; [|discriminate].
  simpl in H.
  destruct (Mem.store_u8 m1 (4 * k + 1) (v / 256)) as [m2|] eqn:E2; [|discriminate].
  simpl in H.
  destruct (Mem.store_u8 m2 (4 * k + 2) (v / 65536)) as [m3|] eqn:E3; [|discriminate].
  simpl in H.
  apply store_u8_length in E1, E2, E3, H. congruence.
Qed.

(** A byte outside the four of word [k] keeps its value. *)
Lemma store_int_other m k v m' j :
  Mem.store_int m k v = Some m' ->
  j < 4 * k \/ 4 * k + 3 < j ->
  Mem.load_u8 m' j = Mem.load_u8 m j.
Proof.
  unfold Mem.store_int. intros H Hj.
  destruct (Mem.store_u8 m (4 * k) v) as [m1|] eqn:E1; [|discriminate].
  simpl in H.
  destruct (Mem.store_u8 m1 (4 * k + 1) (v / 256)) as [m2|] eqn:E2; [|discriminate].
  simpl in H.
  destruct (Mem.store_u8 m2 (4 * k + 2) (v / 65536)) as [m3|] eqn:E3; [|discriminate].
  simpl in H.
  rewrite (load_store_other _ _ _ _ j H) by lia.
  rewrite (load_store_other _ _ _ _ j E3) by lia.
  rewrite (load_store_other _ _ _ _ j E2) by lia.
  apply (load_store_other _ _ _ _ j E1). lia.
Qed.

Lemma load_int_store_other m k v m' k' :
  Mem.store_int m k v = Some m' -> k' <> k ->
  Mem.load_int m' k' = Mem.load_int m k'.
Proof.
  intros H Hk. unfold Mem.load_int.
  rewrite !(store_int_other _ _ _ _ _ H) by lia. reflexivity.
Qed.

Lemma load_int_store_same m k v m' :
  Mem.store_int m k v = Some m' ->
  Mem.load_int m' k = Some (CInt.sint 32 v).
Proof.
  unfold Mem.store_int. intros H.
  destruct (Mem.store_u8 m (4 * k) v) as [m1|] eqn:E1; [|discriminate].
  simpl in H.
  destruct (Mem.store_u8 m1 (4 * k + 1) (v / 256)) as [m2|] eqn:E2; [|discriminate].
  simpl in H.
  destruct (Mem.store_u8 m2 (4 * k + 2) (v / 65536)) as [m3|] eqn:E3; [|discriminate].
  simpl in H.
  unfold Mem.load_int.
  rewrite (load_store_same _ _ _ _ H).
  rewrite (load_store_other _ _ _ _ (4 * k + 2) H) by lia.
  rewrite (load_store_same _ _ _ _ E3).
  rewrite (load_store_other _ _ _ _ (4 * k + 1) H) by lia.
  rewrite (load_store_other _ _ _ _ (4 * k + 1) E3) by lia.
  rewrite (load_store_same _ _ _ _ E2).
  rewrite (load_store_other _ _ _ _ (4 * k) H) by lia.
  rewrite (load_store_other _ _ _ _ (4 * k) E3) by lia.
  rewrite (load_store_other _ _ _ _ (4 * k) E2) by lia.
  rewrite (load_store_same _ _ _ _ E1).
  rewrite int_bytes_sum. reflexivity.
Qed.

Lemma sint_idem w x : 0 < w -> CInt.sint w (CInt.sint w x) = CInt.sint w x.
Proof. intros Hw. apply sint_fits; [exact Hw|]. apply sint_range, Hw. Qed.

(** The shared body of the capture functions. *)
Lemma capture_effect m br_id v1 v2 target :
  (16 <= length m)%nat ->
  Mem.load_int m 0 = Some target ->
  (br_id <> target -> capture m br_id v1 v2 = Returned m tt) /\
  (br_id = target ->
   exists m',
     capture m br_id v1 v2 = Terminated m' (ExitCode 0) /\
     Mem.load_int m' 0 = Some target /\
     Mem.load_int m' 1 = Some (CInt.sint 32 v1) /\
     Mem.load_int m' 2 = Some (CInt.sint 32 v2) /\
     Mem.load_int m' 3 = Some 12 /\
     length m' = length m /\
     forall j, 16 <= j -> Mem.load_u8 m' j = Mem.load_u8 m j).
Proof.
  intros Hlen Htarget. unfold capture. rewrite Htarget. split.
  - intros Hne. destruct (Z.eqb_spec br_id target); [contradiction|reflexivity].
  - intros ->. rewrite Z.eqb_refl.
    destruct (Mem.store_int m 1 v1) as [m1|] eqn:E1.
    2:{ rewrite store_int_in_range in E1 by lia. discriminate. }
    pose proof (store_int_length _ _ _ _ E1) as L1.
    destruct (Mem.store_int m1 2 v2) as [m2|] eqn:E2.
    2:{ rewrite store_int_in_range in E2 by lia. discriminate. }
    pose proof (store_int_length _ _ _ _ E2) as L2.
    destruct (Mem.store_int m2 3 12) as [m3|] eqn:E3.
    2:{ rewrite store_int_in_range in E3 by lia. discriminate. }
    pose proof (store_int_length _ _ _ _ E3) as L3.
    simpl. rewrite E2. simpl. rewrite E3.
    exists m3. split; [reflexivity|]. repeat split.
    + rewrite (load_int_store_other _ _ _ _ 0 E3) by lia.
      rewrite (load_int_store_other _ _ _ _ 0 E2) by lia.
      rewrite (load_int_store_other _ _ _ _ 0 E1) by lia. exact Htarget.
    + rewrite (load_int_store_other _ _ _ _ 1 E3) by lia.
      rewrite (load_int_store_other _ _ _ _ 1 E2) by lia.
      apply (load_int_store_same _ _ _ _ E1).
    + rewrite (load_int_store_other _ _ _ _ 2 E3) by lia.
      apply (load_int_store_same _ _ _ _ E2).
    + apply (load_int_store_same _ _ _ _ E3).
    + congruence.
    + intros j Hj.
      rewrite (store_int_other _ _ _ _ j E3) by lia.
      rewrite (store_int_other _ _ _ _ j E2) by lia.
      apply (store_int_other _ _ _ _ j E1). lia.
Qed.

Lemma maybe_capture_body m br_id c :
  maybe_capture m br_id c =
  capture m br_id (fst (stored_values c)) (snd (stored_values c)).
Proof. destruct c; reflexivity. Qed.

(** C4, as the code has it.  A capture call whose branch id differs from
    the [int] at the head of the map returns and leaves the map as it
    was.  A call whose id matches stores, in words 1, 2 and 3 of the map,
    its two operands converted to [int] and the sentinel 12, leaves the
    rest of the map alone and ends the process with [exit(0)].  The
    value stored is the operand itself for an operand that fits 32 bits
    (every 8-, 16- and 32-bit operand); a 64-bit operand is cut to its low
    32 bits and a string operand to its first character. *)
Theorem capture_slot (m : list Z) (br_id target : Z) (c : check_call) :
  (16 <= length m)%nat ->
  Mem.load_int m 0 = Some target ->
  (br_id <> target -> maybe_capture m br_id c = Returned m tt) /\
  (br_id = target ->
   exists m',
     maybe_capture m br_id c = Terminated m' (ExitCode 0) /\
     Mem.load_int m' 0 = Some target /\
     Mem.load_int m' 1 = Some (fst (stored_values c)) /\
     Mem.load_int m' 2 = Some (snd (stored_values c)) /\
     Mem.load_int m' 3 = Some 12 /\
     forall j, 16 <= j -> Mem.load_u8 m' j = Mem.load_u8 m j) /\
  (forall bits op1 op2,
     int_operands c = Some (bits, op1, op2) ->
     CInt.fits (Z.min bits 32) op1 -> CInt.fits (Z.min bits 32) op2 ->
     stored_values c = (op1, op2)).
Proof.
  intros Hlen Htarget.
  rewrite maybe_capture_body.
  destruct (capture_effect m br_id (fst (stored_values c))
              (snd (stored_values c)) target Hlen Htarget) as [Hne Heq].
  split; [exact Hne|]. split.
  - intros E. destruct (Heq E) as (m' & Hrun & H0 & H1 & H2 & H3 & _ & Hrest).
    exists m'. split; [exact Hrun|]. split; [exact H0|].
    assert (forall x y, stored_values c = (x, y) ->
              CInt.sint 32 x = x /\ CInt.sint 32 y = y) as Hidem.
    { intros x y Hxy. destruct c; simpl in Hxy; inversion Hxy; subst;
        split; apply sint_idem; lia. }
    destruct (stored_values c) as [x y] eqn:Hxy.
    destruct (Hidem x y eq_refl) as [Hx Hy]. simpl in *.
    rewrite Hx in H1. rewrite Hy in H2. auto.
  - intros bits op1 op2 Hops H1 H2.
    assert (forall b x, b = 8 \/ b = 16 \/ b = 32 \/ b = 64 ->
              CInt.fits (Z.min b 32) x -> CInt.sint 32 x = x) as Hfit.
    { intros b x Hb Hx. apply sint_fits; [lia|].
      destruct Hb as [->|[->|[->| ->]]]; fits_consts; lia. }
    destruct c; simpl in Hops; inversion Hops; subst; simpl; f_equal;
      (eapply Hfit; [|eassumption]; lia).
Qed.

(** The theorem at [capture_map], whose first word is 7, for the 16-bit
    operands -2 and 300: at id 7 the operands land in words 1 and 2. *)
Lemma capture_slot_witness :
  exists m',
    maybe_capture capture_map 7 (Chk16 (-2) 300 0) = Terminated m' (ExitCode 0) /\
    Mem.load_int m' 1 = Some (-2) /\
    Mem.load_int m' 2 = Some 300 /\
    Mem.load_int m' 3 = Some 12.
Proof.
  destruct (capture_slot capture_map 7 7 (Chk16 (-2) 300 0))
    as (_ & Hmatch & _).
  - apply Nat.leb_le. reflexivity.
  - reflexivity.
  - destruct (Hmatch eq_refl) as (m' & Hrun & _ & H1 & H2 & H3 & _).
    exists m'. split; [exact Hrun|]. split; [exact H1|]. split; [exact H2|exact H3].
Defined.

(** C4 as stated fails at [check_br64] with the operand [2 ^ 32] and at
    [check_strcmp] with the operands "hi" and "ho": the id matches, the
    process exits, and word 1 holds 0, not [2 ^ 32]; the strings leave
    their first characters only, so that "hi" against "ho" is captured
    as two equal values. *)
Lemma capture_loses_operands :
  (exists m',
     check_br64 capture_map 7 4294967296 1 0 = Terminated m' (ExitCode 0) /\
     Mem.load_int m' 1 = Some 0 /\
     Mem.load_int m' 1 <> Some 4294967296) /\
  (exists m',
     check_strcmp capture_map 7 0 [104; 105] [104; 111] 1 0
       = Terminated m' (ExitCode 0) /\
     Mem.load_int m' 1 = Some 104 /\ Mem.load_int m' 2 = Some 104 /\
     [104; 105] <> [104; 111]).
Proof.
  split.
  - eexists. split; [vm_compute; reflexivity|].
    split; [vm_compute; reflexivity|]. vm_compute. congruence.
  - eexists. split; [vm_compute; reflexivity|].
    split; [vm_compute; reflexivity|].
    split; [vm_compute; reflexivity|]. congruence.
Qed.

(** ** Fork server *)

Lemma fs_run_ended P isp e script :
  fs_run P isp (FsEnded e) script = ([], FsEnded e).
Proof. destruct script; reflexivity. Qed.

(** Running a script is running its beginning, then the rest from where
    the beginning left the function. *)
Lemma fs_run_app P isp pre : forall s post,
  fs_run P isp s (pre ++ post) =
  let '(tr1, s1) := fs_run P isp s pre in
  let '(tr2, s2) := fs_run P isp s1 post in
  (tr1 ++ tr2, s2).
Proof.
  induction pre as [|a pre IH]; intros s post.
  - simpl. destruct s.
    + simpl. destruct (fs_run P isp (FsAt pt l) post). reflexivity.
    + rewrite fs_run_ended. reflexivity.
  - destruct s as [pt l|e].
    + simpl. destruct (fs_step P pt l a) as [calls s'].
      rewrite IH.
      destruct (fs_run P isp s' pre) as [tr1 s1].
      destruct (fs_run P isp s1 post) as [tr2 s2].
      rewrite <- !app_assoc. reflexivity.
    + simpl. rewrite fs_run_ended. reflexivity.
Qed.

(** A failed call other than the first write ends the process. *)
Lemma fs_step_failure P pt l a :
  pt <> AtHandshake -> protocol_failure pt a = true ->
  fs_step P pt l a = ([], FsEnded (FsExit 1)).
Proof.
  intros Hpt Hfail. destruct pt; try contradiction; simpl in *.
  - destruct (ret a =? 4); [discriminate|reflexivity].
  - rewrite Hfail. reflexivity.
  - rewrite Hfail. reflexivity.
  - destruct (ret a =? 4); [discriminate|reflexivity].
  - rewrite Hfail. reflexivity.
  - destruct (ret a =? 4); [discriminate|reflexivity].
Qed.

Lemma forkserver_after P isp pre tr pt l post :
  afl_start_forkserver P isp pre = (tr, FsAt pt l) ->
  afl_start_forkserver P isp (pre ++ post) =
  let '(tr2, s2) := fs_run P isp (FsAt pt l) post in (tr ++ tr2, s2).
Proof.
  unfold afl_start_forkserver. rewrite fs_run_app.
  destruct (fs_run P isp (FsAt AtHandshake fs_locals_start) pre) as [tr1 s1].
  intros E. inversion E; subst.
  destruct (fs_run P isp (FsAt pt l) post) as [tr2 s2]. reflexivity.
Qed.

Lemma forkserver_failure P isp pre tr pt l a rest :
  afl_start_forkserver P isp pre = (tr, FsAt pt l) ->
  pt <> AtHandshake -> protocol_failure pt a = true ->
  afl_start_forkserver P isp (pre ++ a :: rest) = (tr, FsEnded (FsExit 1)).
Proof.
  intros Hpre Hpt Hfail.
  rewrite (forkserver_after _ _ _ _ _ _ _ Hpre).
  simpl. rewrite (fs_step_failure P pt l a Hpt Hfail).
  rewrite fs_run_ended. rewrite app_nil_r. reflexivity.
Qed.

Lemma forkserver_no_controller P isp a rest :
  ret a <> 4 ->
  afl_start_forkserver P isp (a :: rest) =
  ([SysWrite (FORKSRV_FD P + 1) 0], FsEnded Disengaged).
Proof.
  intros Hret. unfold afl_start_forkserver. simpl.
  destruct (Z.eqb_spec (ret a) 4); [contradiction|].
  rewrite fs_run_ended. reflexivity.
Qed.

(** C6.  In the fork server, a first write that does not transfer four
    bytes makes the function return in the process that called it, after
    that one call, whatever the outside world would answer next; and
    [__afl_manual_init] then returns to the target.  From every point the
    function can reach after the first write, a failure of the pending
    call (a request read or a pid or status write short of four bytes,
    [fork] or [waitpid] negative) ends the process with [_exit(1)] and no
    further call, whatever the outside world would answer next. *)
Theorem supervisor_failure_handling (P : platform) (rt rt1 : runtime) :
  init_done rt = 0 ->
  afl_map_shm P rt = Returned rt1 tt ->
  (forall a rest, ret a <> 4 ->
     afl_start_forkserver P (is_persistent rt1) (a :: rest) =
       ([SysWrite (FORKSRV_FD P + 1) 0], FsEnded Disengaged) /\
     afl_manual_init P (a :: rest) rt =
       Returned (set_init_done rt1 1) [SysWrite (FORKSRV_FD P + 1) 0]) /\
  (forall pre tr pt l a rest,
     afl_start_forkserver P (is_persistent rt1) pre = (tr, FsAt pt l) ->
     pt <> AtHandshake -> protocol_failure pt a = true ->
     afl_start_forkserver P (is_persistent rt1) (pre ++ a :: rest) =
       (tr, FsEnded (FsExit 1)) /\
     afl_manual_init P (pre ++ a :: rest) rt = Terminated rt1 (ExitCode 1)).
Proof.
  intros Hinit Hshm. split.
  - intros a rest Hret.
    pose proof (forkserver_no_controller P (is_persistent rt1) a rest Hret) as E.
    split; [exact E|].
    unfold afl_manual_init. rewrite Hinit, Hshm. simpl Z.eqb. cbv iota.
    rewrite E. reflexivity.
  - intros pre tr pt l a rest Hpre Hpt Hfail.
    pose proof (forkserver_failure P _ pre tr pt l a rest Hpre Hpt Hfail) as E.
    split; [exact E|].
    unfold afl_manual_init. rewrite Hinit, Hshm. simpl Z.eqb. cbv iota.
    rewrite E. reflexivity.
Qed.

(** The theorem on the example platform without a shared segment: no
    controller at the first write; then a controller that is there, asks
    for one run, and whose pipe breaks when the pid is written. *)
Lemma supervisor_failure_handling_witness :
  afl_manual_init (example_platform no_env) [Answer (-1) 0]
    (runtime_start (example_platform no_env))
  = Returned (set_init_done (runtime_start (example_platform no_env)) 1)
      [SysWrite 199 0] /\
  afl_manual_init (example_platform no_env)
    ([Answer 4 0; Answer 4 0; Answer 1234 0] ++ Answer 0 0 :: [Answer 4 0])
    (runtime_start (example_platform no_env))
  = Terminated (runtime_start (example_platform no_env)) (ExitCode 1).
Proof.
  destruct (supervisor_failure_handling (example_platform no_env)
              (runtime_start (example_platform no_env))
              (runtime_start (example_platform no_env)) eq_refl eq_refl)
    as [Hfirst Hlater].
  split.
  - apply (Hfirst (Answer (-1) 0) []). simpl. lia.
  - eapply (Hlater [Answer 4 0; Answer 4 0; Answer 1234 0] _ AtWritePid _
              (Answer 0 0) [Answer 4 0]).
    + reflexivity.
    + discriminate.
    + reflexivity.
Defined.

(** The blocking calls of the fork server can all be reached: a script
    for each of them, with the persistent-mode flag at 0. *)
Lemma forkserver_points_reached (P : platform) :
  snd (afl_start_forkserver P 0 []) = FsAt AtHandshake fs_locals_start /\
  snd (afl_start_forkserver P 0 [Answer 4 0]) = FsAt AtRead fs_locals_start /\
  snd (afl_start_forkserver P 0 [Answer 4 0; Answer 4 0])
    = FsAt AtFork fs_locals_start /\
  snd (afl_start_forkserver P 0 [Answer 4 0; Answer 4 0; Answer 9 0])
    = FsAt AtWritePid (FsLocals 9 0 0 0) /\
  snd (afl_start_forkserver P 0
         [Answer 4 0; Answer 4 0; Answer 9 0; Answer 4 0])
    = FsAt AtWait (FsLocals 9 0 0 0) /\
  snd (afl_start_forkserver P 0
         [Answer 4 0; Answer 4 0; Answer 9 0; Answer 4 0; Answer 9 4991])
    = FsAt AtWriteStatus (FsLocals 9 1 0 4991) /\
  snd (afl_start_forkserver P 0
         [Answer 4 0; Answer 4 0; Answer 9 0; Answer 4 0; Answer 9 4991;
          Answer 4 0; Answer 4 1])
    = FsAt AtReap (FsLocals 9 0 1 4991).
Proof. repeat split; reflexivity. Qed.

(** ** SHM setup *)

(** C8.  [__afl_map_shm]: with the handle in the environment and a failed
    attachment the process ends with [_exit(1)]; with the handle and a
    successful attachment the function returns with [__afl_area_ptr] on
    the shared segment, whose byte 0 is 1 and whose other bytes are as
    attached, and with the private buffer and the other globals as
    before; without the handle the function returns with nothing
    changed, the pointer included. *)
Theorem map_shm_attach (P : platform) (rt : runtime) :
  (forall id_str,
     getenv P (SHM_ENV_VAR P) = Some id_str ->
     shmat P (CInt.uint 32 (atoi P id_str)) = None ->
     afl_map_shm P rt = Terminated rt (ExitCode 1)) /\
  (forall id_str seg,
     getenv P (SHM_ENV_VAR P) = Some id_str ->
     shmat P (CInt.uint 32 (atoi P id_str)) = Some seg ->
     (0 < length seg)%nat ->
     exists rt',
       afl_map_shm P rt = Returned rt' tt /\
       afl_area_ptr rt' = SharedArea (<[0%nat := 1]> seg) /\
       area rt' = <[0%nat := 1]> seg /\
       Mem.load_u8 (area rt') 0 = Some 1 /\
       (forall j, j <> 0 -> Mem.load_u8 (area rt') j = Mem.load_u8 seg j) /\
       rt' = set_area_ptr rt (SharedArea (<[0%nat := 1]> seg))) /\
  (getenv P (SHM_ENV_VAR P) = None -> afl_map_shm P rt = Returned rt tt).
Proof.
  unfold afl_map_shm. split; [|split].
  - intros id_str Henv Hshm. rewrite Henv, Hshm. reflexivity.
  - intros id_str seg Henv Hshm Hlen. rewrite Henv, Hshm.
    assert (area (set_area_ptr rt (SharedArea seg)) = seg) as -> by reflexivity.
    rewrite store_u8_in_range by lia.
    eexists. split; [reflexivity|].
    change (Z.to_nat 0) with 0%nat. change (1 mod 256) with 1.
    repeat split.
    + apply load_u8_Some. split; [lia|].
      apply list_lookup_insert_eq. exact Hlen.
    + intros j Hj. unfold area. simpl. unfold Mem.load_u8.
      destruct (Z.leb_spec 0 j); [|reflexivity].
      apply list_lookup_insert_ne. lia.
  - intros Henv. rewrite Henv. reflexivity.
Qed.

(** The theorem on the example platform: segment 7 exists, segment 8
    does not. *)
Lemma map_shm_attach_witness :
  afl_map_shm (example_platform (env_of "__AFL_SHM_ID" "8"))
    (runtime_start (example_platform no_env))
  = Terminated (runtime_start (example_platform no_env)) (ExitCode 1) /\
  (exists rt',
     afl_map_shm (example_platform (env_of "__AFL_SHM_ID" "7"))
       (runtime_start (example_platform no_env)) = Returned rt' tt /\
     Mem.load_u8 (area rt') 0 = Some 1) /\
  afl_map_shm (example_platform no_env)
    (runtime_start (example_platform no_env))
  = Returned (runtime_start (example_platform no_env)) tt.
Proof.
  split; [|split].
  - apply (map_shm_attach (example_platform (env_of "__AFL_SHM_ID" "8"))
             (runtime_start (example_platform no_env))) with (id_str := "8");
      reflexivity.
  - destruct (map_shm_attach (example_platform (env_of "__AFL_SHM_ID" "7"))
                (runtime_start (example_platform no_env)))
      as (_ & Hok & _).
    destruct (Hok "7" (replicate 8 0) eq_refl eq_refl)
      as (rt' & Hrun & _ & _ & Hmark & _).
    + simpl. lia.
    + exists rt'. split; [exact Hrun|exact Hmark].
  - apply (map_shm_attach (example_platform no_env)
             (runtime_start (example_platform no_env))). reflexivity.
Defined.

(** ** Persistent mode handler *)

Lemma loop_calls_app P budget a : forall b rt rt1 rs1 ev1 rt2 rs2 ev2,
  loop_calls P a budget rt = Returned rt1 (rs1, ev1) ->
  loop_calls P b budget rt1 = Returned rt2 (rs2, ev2) ->
  loop_calls P (a + b) budget rt = Returned rt2 (rs1 ++ rs2, ev1 ++ ev2).
Proof.
  induction a as [|a IH]; intros b rt rt1 rs1 ev1 rt2 rs2 ev2 H1 H2.
  - simpl in H1. inversion H1; subst. simpl. exact H2.
  - simpl in H1. simpl.
    destruct (afl_persistent_loop P budget rt) as [rt' [r raised]|?|?|];
      try discriminate.
    destruct (loop_calls P a budget rt') as [rt'' [rs ev]|?|?|] eqn:E;
      try discriminate.
    inversion H1; subst.
    rewrite (IH b rt' rt1 rs ev rt2 rs2 ev2 E H2).
    rewrite <- app_assoc. reflexivity.
Qed.

(** The first call in persistent mode: the map is cleared, its byte 0 is
    set and the budget taken. *)
Lemma persistent_first_call P budget rt :
  first_pass rt <> 0 -> is_persistent rt <> 0 ->
  (MAP_SIZE P <= length (area rt))%nat -> (0 < length (area rt))%nat ->
  exists rt',
    afl_persistent_loop P budget rt = Returned rt' (1, []) /\
    first_pass rt' = 0 /\ is_persistent rt' = is_persistent rt /\
    cycle_cnt rt' = CInt.uint 32 budget /\
    length (area rt') = length (area rt) /\
    Mem.load_u8 (area rt') 0 = Some 1.
Proof.
  intros Hfirst Hpers Hsize Hlen. unfold afl_persistent_loop.
  destruct (Z.eqb_spec (first_pass rt) 0); [contradiction|].
  destruct (Z.eqb_spec (is_persistent rt) 0); [contradiction|]. simpl.
  unfold Mem.memset. destruct (Nat.leb_spec (MAP_SIZE P) (length (area rt))); [|lia].
  assert (length (replicate (MAP_SIZE P) (0 mod 256) ++ drop (MAP_SIZE P) (area rt))
          = length (area rt)) as Hl.
  { rewrite length_app, length_replicate, length_drop. lia. }
  rewrite store_u8_in_range by lia.
  eexists. split; [reflexivity|].
  assert (forall m, area (set_first_pass
            (set_cycle_cnt (set_prev_loc (set_area rt m) 0)
               (CInt.uint 32 budget)) 0) = m) as Harea.
  { intros m. unfold area, set_area. destruct (afl_area_ptr rt); reflexivity. }
  repeat split.
  - unfold set_first_pass, set_cycle_cnt, set_prev_loc, set_area. simpl.
    destruct (afl_area_ptr rt); reflexivity.
  - rewrite Harea, length_insert. exact Hl.
  - rewrite Harea. apply load_u8_Some. split; [lia|].
    apply list_lookup_insert_eq. simpl. lia.
Qed.

(** A later call in persistent mode with budget left: the process stops
    itself, and sets byte 0 when it is resumed. *)
Lemma persistent_next_call P budget rt :
  first_pass rt = 0 -> is_persistent rt <> 0 ->
  1 < cycle_cnt rt < 2 ^ 32 ->
  (0 < length (area rt))%nat ->
  (forall seg, length (on_stop P seg) = length seg) ->
  exists rt',
    afl_persistent_loop P budget rt = Returned rt' (1, [SysRaise SIGSTOP]) /\
    first_pass rt' = 0 /\ is_persistent rt' = is_persistent rt /\
    cycle_cnt rt' = cycle_cnt rt - 1 /\
    length (area rt') = length (area rt) /\
    Mem.load_u8 (area rt') 0 = Some 1.
Proof.
  intros Hfirst Hpers Hcnt Hlen Hstop. unfold afl_persistent_loop.
  rewrite Hfirst. simpl.
  destruct (Z.eqb_spec (is_persistent rt) 0); [contradiction|]. simpl.
  rewrite uint_small by lia.
  destruct (Z.eqb_spec (cycle_cnt rt - 1) 0); [lia|]. simpl.
  set (rt2 := stopped_and_resumed P (set_cycle_cnt rt (cycle_cnt rt - 1))).
  assert (length (area rt2) = length (area rt)) as Hl.
  { unfold rt2, stopped_and_resumed, area, set_cycle_cnt. simpl.
    destruct (afl_area_ptr rt); simpl; [reflexivity|apply Hstop]. }
  rewrite store_u8_in_range by lia.
  eexists. split; [reflexivity|].
  assert (forall m, area (set_prev_loc (set_area rt2 m) 0) = m) as Harea.
  { intros m. unfold area, set_area. destruct (afl_area_ptr rt2); reflexivity. }
  repeat split.
  - unfold set_prev_loc, set_area. destruct (afl_area_ptr rt2) eqn:E; simpl;
      unfold rt2, stopped_and_resumed, set_cycle_cnt; simpl;
      destruct (afl_area_ptr rt); simpl; exact Hfirst.
  - unfold set_prev_loc, set_area. destruct (afl_area_ptr rt2) eqn:E; simpl;
      unfold rt2, stopped_and_resumed, set_cycle_cnt; simpl;
      destruct (afl_area_ptr rt); reflexivity.
  - unfold set_prev_loc, set_area. destruct (afl_area_ptr rt2) eqn:E; simpl;
      unfold rt2, stopped_and_resumed, set_cycle_cnt; simpl;
      destruct (afl_area_ptr rt); reflexivity.
  - rewrite Harea, length_insert. exact Hl.
  - rewrite Harea. apply load_u8_Some. split; [lia|].
    apply list_lookup_insert_eq. simpl. lia.
Qed.

(** The call that finds the budget used up. *)
Lemma persistent_last_call P budget rt :
  first_pass rt = 0 -> is_persistent rt <> 0 -> cycle_cnt rt = 1 ->
  afl_persistent_loop P budget rt =
  Returned (set_area_ptr (set_cycle_cnt rt 0) InitialArea) (0, []).
Proof.
  intros Hfirst Hpers Hcnt. unfold afl_persistent_loop.
  rewrite Hfirst, Hcnt. simpl.
  destruct (Z.eqb_spec (is_persistent rt) 0); [contradiction|]. reflexivity.
Qed.

(** [n] calls after the first one, with more than [n] of the budget
    left. *)
Lemma persistent_proceeds P budget n : forall rt,
  first_pass rt = 0 -> is_persistent rt <> 0 ->
  Z.of_nat n < cycle_cnt rt < 2 ^ 32 ->
  (0 < length (area rt))%nat ->
  (forall seg, length (on_stop P seg) = length seg) ->
  exists rt',
    loop_calls P n budget rt
      = Returned rt' (replicate n 1, replicate n (SysRaise SIGSTOP)) /\
    first_pass rt' = 0 /\ is_persistent rt' = is_persistent rt /\
    cycle_cnt rt' = cycle_cnt rt - Z.of_nat n /\
    (0 < length (area rt'))%nat /\
    ((0 < n)%nat -> Mem.load_u8 (area rt') 0 = Some 1).
Proof.
  induction n as [|n IH]; intros rt Hfirst Hpers Hcnt Hlen Hstop.
  - exists rt. simpl. repeat split; auto; lia.
  - destruct (persistent_next_call P budget rt Hfirst Hpers ltac:(lia) Hlen Hstop)
      as (rt1 & Hcall & Hf1 & Hp1 & Hc1 & Hl1 & Hb1).
    destruct (IH rt1 Hf1 ltac:(congruence) ltac:(lia) ltac:(lia) Hstop)
      as (rt' & Hrest & Hf' & Hp' & Hc' & Hl' & Hb').
    exists rt'. simpl loop_calls. rewrite Hcall, Hrest.
    split; [reflexivity|]. split; [exact Hf'|].
    split; [congruence|]. split; [lia|]. split; [exact Hl'|].
    intros _. destruct n as [|n'].
    + simpl in Hrest. inversion Hrest; subst. exact Hb1.
    + apply Hb'. lia.
Qed.

(** Outside persistent mode: one [1], then [0] for ever, no signal and
    no write to the map. *)
Lemma not_persistent_calls P budget n rt :
  first_pass rt <> 0 -> is_persistent rt = 0 ->
  loop_calls P (S n) budget rt =
  Returned (set_first_pass (set_cycle_cnt rt (CInt.uint 32 budget)) 0)
           (1 :: replicate n 0, []).
Proof.
  intros Hfirst Hpers. simpl. unfold afl_persistent_loop at 1.
  destruct (Z.eqb_spec (first_pass rt) 0); [contradiction|].
  rewrite Hpers. simpl.
  set (rt1 := set_first_pass (set_cycle_cnt rt (CInt.uint 32 budget)) 0).
  assert (loop_calls P n budget rt1 = Returned rt1 (replicate n 0, [])) as ->.
  { induction n as [|n IH]; [reflexivity|].
    simpl. unfold afl_persistent_loop at 1. simpl. rewrite Hpers. simpl.
    rewrite IH. reflexivity. }
  reflexivity.
Qed.

(** The first [S j] calls in persistent mode with a budget above [j]. *)
Lemma persistent_prefix P (k : nat) j rt :
  first_pass rt <> 0 -> is_persistent rt <> 0 ->
  (j < k)%nat -> Z.of_nat k < 2 ^ 32 ->
  (MAP_SIZE P <= length (area rt))%nat -> (0 < length (area rt))%nat ->
  (forall seg, length (on_stop P seg) = length seg) ->
  exists rt',
    loop_calls P (S j) (Z.of_nat k) rt
      = Returned rt' (replicate (S j) 1, replicate j (SysRaise SIGSTOP)) /\
    first_pass rt' = 0 /\ is_persistent rt' <> 0 /\
    cycle_cnt rt' = Z.of_nat k - Z.of_nat j /\
    Mem.load_u8 (area rt') 0 = Some 1.
Proof.
  intros Hfirst Hpers Hj Hk Hsize Hlen Hstop.
  destruct (persistent_first_call P (Z.of_nat k) rt Hfirst Hpers Hsize Hlen)
    as (rt1 & Hcall & Hf1 & Hp1 & Hc1 & Hl1 & Hb1).
  rewrite uint_small in Hc1 by lia.
  destruct (persistent_proceeds P (Z.of_nat k) j rt1 Hf1 ltac:(congruence)
              ltac:(lia) ltac:(lia) Hstop)
    as (rt' & Hrest & Hf' & Hp' & Hc' & Hl' & Hb').
  exists rt'. split.
  - change (S j) with (1 + j)%nat.
    apply (loop_calls_app P (Z.of_nat k) 1 j rt rt1 [1] [] rt'
             (replicate j 1) (replicate j (SysRaise SIGSTOP))).
    + simpl. rewrite Hcall. reflexivity.
    + exact Hrest.
  - split; [exact Hf'|]. split; [congruence|]. split; [lia|].
    destruct j as [|j'].
    + simpl in Hrest. inversion Hrest; subst. exact Hb1.
    + apply Hb'. lia.
Qed.

(** C7.  The persistent-mode handler, called for the first time in a
    state where [first_pass] is set.  In persistent mode, with a budget
    [k] between 1 and [2 ^ 32 - 1] passed at each call: the first [k]
    calls return 1 and the next one returns 0, and after each of the
    first [k] calls byte 0 of the map is 1.  Outside persistent mode, for
    every budget: the first call returns 1 and every later call 0. *)
Theorem persistent_loop_budget (P : platform) (rt : runtime) (k : nat) :
  first_pass rt <> 0 ->
  (is_persistent rt <> 0 ->
   (1 <= k)%nat -> Z.of_nat k < 2 ^ 32 ->
   (MAP_SIZE P <= length (area rt))%nat -> (0 < length (area rt))%nat ->
   (forall seg, length (on_stop P seg) = length seg) ->
   (exists rt' raised,
      loop_calls P (S k) (Z.of_nat k) rt
        = Returned rt' (replicate k 1 ++ [0], raised)) /\
   (forall j, (1 <= j <= k)%nat ->
      exists rtj raised,
        loop_calls P j (Z.of_nat k) rt = Returned rtj (replicate j 1, raised) /\
        Mem.load_u8 (area rtj) 0 = Some 1)) /\
  (is_persistent rt = 0 ->
   forall n budget, exists rt',
     loop_calls P (S n) budget rt = Returned rt' (1 :: replicate n 0, [])).
Proof.
  intros Hfirst. split.
  - intros Hpers Hk1 Hk Hsize Hlen Hstop. split.
    + destruct k as [|k']; [lia|].
      destruct (persistent_prefix P (S k') k' rt Hfirst Hpers ltac:(lia) Hk
                  Hsize Hlen Hstop)
        as (rt1 & Hcalls & Hf1 & Hp1 & Hc1 & _).
      eexists _, _.
      replace (S (S k')) with (S k' + 1)%nat by lia.
      eapply (loop_calls_app P _ (S k') 1); [exact Hcalls|].
      simpl. rewrite (persistent_last_call P _ rt1 Hf1 Hp1 ltac:(lia)).
      reflexivity.
    + intros j Hj. destruct j as [|j']; [lia|].
      destruct (persistent_prefix P k j' rt Hfirst Hpers ltac:(lia) Hk
                  Hsize Hlen Hstop)
        as (rtj & Hcalls & _ & _ & _ & Hb).
      exists rtj, (replicate j' (SysRaise SIGSTOP)). split; assumption.
  - intros Hpers n budget. eexists.
    apply not_persistent_calls; assumption.
Qed.

(** The theorem on the example platform, whose map has eight bytes, with
    the map filled with 9 and a budget of 3: in persistent mode four
    calls give 1, 1, 1, 0 and the map starts with 1 after the second
    call; outside persistent mode four calls give 1, 0, 0, 0. *)
Lemma persistent_loop_budget_witness :
  (exists rt' raised,
     loop_calls (example_platform no_env) 4 3
       (Runtime (replicate 8 9) InitialArea 0 1 1 0 0)
     = Returned rt' ([1; 1; 1; 0], raised)) /\
  (exists rt2 raised,
     loop_calls (example_platform no_env) 2 3
       (Runtime (replicate 8 9) InitialArea 0 1 1 0 0)
     = Returned rt2 ([1; 1], raised) /\
     Mem.load_u8 (area rt2) 0 = Some 1) /\
  (exists rt',
     loop_calls (example_platform no_env) 4 3
       (Runtime (replicate 8 9) InitialArea 0 0 1 0 0)
     = Returned rt' ([1; 0; 0; 0], [])).
Proof.
  destruct (persistent_loop_budget (example_platform no_env)
              (Runtime (replicate 8 9) InitialArea 0 1 1 0 0) 3)
    as [Hactive _]; [discriminate|].
  destruct Hactive as [Hall Heach].
  - discriminate.
  - lia.
  - reflexivity.
  - simpl. lia.
  - simpl. lia.
  - intros seg. simpl. apply length_replicate.
  - split; [exact Hall|]. split.
    + apply (Heach 2%nat). lia.
    + destruct (persistent_loop_budget (example_platform no_env)
                  (Runtime (replicate 8 9) InitialArea 0 0 1 0 0) 3)
        as [_ Hinactive]; [discriminate|].
      apply (Hinactive eq_refl 3%nat 3).
Defined.

(** ** Instrumentation ratio *)

(** C9, as the code has it.  The ratio is read in two places.  In the
    pass, at instrumentation time: a value that [sscanf] does not read as
    a number, 0, or a value above 100 ends the pass with the diagnostic
    and [exit(1)] before any location is handed out; when the pass goes
    on, the ratio it uses is 100 for an unset variable and otherwise the
    value read, which lies in 1-100.  In the runtime, when the guard
    table is initialised: a value that [atoi] reads as 0 (a text without
    a number among them) or as a number above 100 ends the process with
    the diagnostic on stderr and [abort], the table untouched; when the
    initialiser fills the table, the ratio lies in 1-100.  No value is
    brought into the range. *)
Theorem inst_ratio_checked (P : platform) :
  (forall s,
     getenv P "AFL_INST_RATIO" = Some s ->
     (sscanf_u P s = None \/
      exists x, sscanf_u P s = Some x /\
                (CInt.uint 32 x = 0 \/ 100 < CInt.uint 32 x)) ->
     decide_inst_ratio P = Terminated [ratio_diagnostic_pass] (ExitCode 1) /\
     forall blocks,
       run_on_module P blocks = Terminated [ratio_diagnostic_pass] (ExitCode 1)) /\
  (forall err v,
     decide_inst_ratio P = Returned err v ->
     1 <= v <= 100 /\
     (getenv P "AFL_INST_RATIO" = None /\ v = 100 \/
      exists s x, getenv P "AFL_INST_RATIO" = Some s /\
                  sscanf_u P s = Some x /\ v = CInt.uint 32 x)) /\
  (forall s rest,
     getenv P "AFL_INST_RATIO" = Some s ->
     CInt.uint 32 (atoi P s) = 0 \/ 100 < CInt.uint 32 (atoi P s) ->
     sanitizer_cov_trace_pc_guard_init P (0 :: rest) =
       Terminated (0 :: rest, [ratio_diagnostic_runtime]) AbortSignal) /\
  (forall rest guards err,
     sanitizer_cov_trace_pc_guard_init P (0 :: rest) = Returned (guards, err) tt ->
     getenv P "AFL_INST_RATIO" = None \/
     exists s, getenv P "AFL_INST_RATIO" = Some s /\
               1 <= CInt.uint 32 (atoi P s) <= 100).
Proof.
  split; [|split; [|split]].
  - intros s Henv Hbad.
    assert (decide_inst_ratio P = Terminated [ratio_diagnostic_pass] (ExitCode 1))
      as E.
    { unfold decide_inst_ratio. rewrite Henv.
      destruct Hbad as [->|(x & -> & Hx)]; [reflexivity|]. cbv zeta.
      destruct Hx as [->|Hx]; [reflexivity|].
      destruct (Z.eqb_spec (CInt.uint 32 x) 0); [reflexivity|].
      destruct (Z.gtb_spec (CInt.uint 32 x) 100); [reflexivity|lia]. }
    split; [exact E|]. intros blocks. unfold run_on_module. rewrite E.
    reflexivity.
  - intros err v. unfold decide_inst_ratio.
    destruct (getenv P "AFL_INST_RATIO") as [s|].
    + destruct (sscanf_u P s) as [x|] eqn:Hscan; [|discriminate]. cbv zeta.
      destruct (Z.eqb_spec (CInt.uint 32 x) 0); [discriminate|].
      destruct (Z.gtb_spec (CInt.uint 32 x) 100); [discriminate|].
      simpl. intros E. inversion E; subst.
      pose proof (uint_range 32 x ltac:(lia)).
      split; [lia|right; exists s, x].
      split; [reflexivity|split; [exact Hscan|reflexivity]].
    + intros E. inversion E; subst. split; [lia|left; auto].
  - intros s rest Henv Hbad. unfold sanitizer_cov_trace_pc_guard_init.
    rewrite Henv. simpl.
    destruct Hbad as [->|Hbad]; [reflexivity|].
    destruct (Z.eqb_spec (CInt.uint 32 (atoi P s)) 0); [reflexivity|].
    destruct (Z.gtb_spec (CInt.uint 32 (atoi P s)) 100); [reflexivity|lia].
  - intros rest guards err. unfold sanitizer_cov_trace_pc_guard_init. simpl.
    destruct (getenv P "AFL_INST_RATIO") as [s|]; [|auto].
    destruct (Z.eqb_spec (CInt.uint 32 (atoi P s)) 0); [discriminate|].
    destruct (Z.gtb_spec (CInt.uint 32 (atoi P s)) 100); [discriminate|].
    intros _. right. exists s. split; [reflexivity|].
    pose proof (uint_range 32 (atoi P s) ltac:(lia)). lia.
Qed.

(** The theorem on the example platform: the pass refuses "abc" and
    the guard initialiser refuses "101". *)
Lemma inst_ratio_checked_witness :
  decide_inst_ratio (example_platform (env_of "AFL_INST_RATIO" "abc"))
    = Terminated [ratio_diagnostic_pass] (ExitCode 1) /\
  sanitizer_cov_trace_pc_guard_init
    (example_platform (env_of "AFL_INST_RATIO" "101")) [0; 0; 0]
    = Terminated ([0; 0; 0], [ratio_diagnostic_runtime]) AbortSignal.
Proof.
  split.
  - apply (inst_ratio_checked
             (example_platform (env_of "AFL_INST_RATIO" "abc"))) with (s := "abc").
    + reflexivity.
    + left. reflexivity.
  - apply (inst_ratio_checked
             (example_platform (env_of "AFL_INST_RATIO" "101"))) with (s := "101").
    + reflexivity.
    + right. vm_compute. reflexivity.
Defined.

(** C9 as stated fails in the runtime: with the ratio "0", a text
    without a number, or "101" in the environment, initialising a guard
    table at run time ends the process with the diagnostic and [abort]. *)
Lemma inst_ratio_fatal_at_runtime :
  sanitizer_cov_trace_pc_guard_init
    (example_platform (env_of "AFL_INST_RATIO" "0")) [0; 0; 0]
    = Terminated ([0; 0; 0], [ratio_diagnostic_runtime]) AbortSignal /\
  sanitizer_cov_trace_pc_guard_init
    (example_platform (env_of "AFL_INST_RATIO" "abc")) [0; 0; 0]
    = Terminated ([0; 0; 0], [ratio_diagnostic_runtime]) AbortSignal /\
  sanitizer_cov_trace_pc_guard_init
    (example_platform (env_of "AFL_INST_RATIO" "101")) [0; 0; 0]
    = Terminated ([0; 0; 0], [ratio_diagnostic_runtime]) AbortSignal.
Proof. repeat split; vm_compute; reflexivity. Qed.

(** ** The persistent-mode flag *)

Lemma is_persistent_set_area rt m :
  is_persistent (set_area rt m) = is_persistent rt.
Proof. unfold set_area. destruct (afl_area_ptr rt); reflexivity. Qed.

Lemma first_pass_set_area rt m : first_pass (set_area rt m) = first_pass rt.
Proof. unfold set_area. destruct (afl_area_ptr rt); reflexivity. Qed.

Lemma map_shm_keeps_flag P rt rt' :
  afl_map_shm P rt = Returned rt' tt -> is_persistent rt' = is_persistent rt.
Proof.
  unfold afl_map_shm.
  destruct (getenv P (SHM_ENV_VAR P)) as [id_str|].
  - destruct (shmat P (CInt.uint 32 (atoi P id_str))) as [seg|]; [|discriminate].
    destruct (Mem.store_u8 _ 0 1) as [m|]; [|discriminate].
    intros E. inversion E; subst. rewrite is_persistent_set_area. reflexivity.
  - intros E. inversion E; subst. reflexivity.
Qed.

Lemma manual_init_keeps_flag P script rt rt' tr :
  afl_manual_init P script rt = Returned rt' tr ->
  is_persistent rt' = is_persistent rt.
Proof.
  unfold afl_manual_init. destruct (init_done rt =? 0).
  - destruct (afl_map_shm P rt) as [rt1 []|?|?|] eqn:Hshm; try discriminate.
    apply map_shm_keeps_flag in Hshm.
    destruct (afl_start_forkserver P (is_persistent rt1) script) as [tr' [pt l|[| |code]]];
      try discriminate; intros E; inversion E; subst; simpl; exact Hshm.
  - intros E. inversion E; subst. reflexivity.
Qed.

Lemma persistent_loop_keeps_flag P budget rt rt' r :
  afl_persistent_loop P budget rt = Returned rt' r ->
  is_persistent rt' = is_persistent rt.
Proof.
  unfold afl_persistent_loop.
  destruct (first_pass rt =? 0); destruct (is_persistent rt =? 0) eqn:Ep; simpl.
  - intros E. inversion E; subst. reflexivity.
  - destruct (CInt.uint 32 (cycle_cnt rt - 1) =? 0); simpl.
    + intros E. inversion E; subst. reflexivity.
    + destruct (Mem.store_u8 _ 0 1) as [m|]; [|discriminate].
      intros E. inversion E; subst. simpl.
      rewrite is_persistent_set_area.
      unfold stopped_and_resumed. simpl.
      destruct (afl_area_ptr rt); reflexivity.
  - intros E. inversion E; subst. reflexivity.
  - destruct (Mem.memset (area rt) 0 (MAP_SIZE P)) as [m0|]; [|discriminate].
    destruct (Mem.store_u8 m0 0 1) as [m1|]; [|discriminate].
    intros E. inversion E; subst. simpl. apply is_persistent_set_area.
Qed.

(** No call of the runtime changes [is_persistent]. *)
Lemma rt_exec_keeps_flag P c rt rt' tr :
  rt_exec P c rt = Returned rt' tr -> is_persistent rt' = is_persistent rt.
Proof.
  destruct c; simpl.
  - apply manual_init_keeps_flag.
  - apply manual_init_keeps_flag.
  - destruct (afl_persistent_loop P max_cnt rt) as [rt1 [r raised]|?|?|] eqn:E;
      try discriminate.
    intros H. inversion H; subst. eapply persistent_loop_keeps_flag; eauto.
  - unfold record_edge.
    destruct (Mem.load_u8 _ _) as [counter|]; [|discriminate]. simpl.
    destruct (Mem.store_u8 _ _ _) as [m|]; [|discriminate]. simpl.
    intros H. inversion H; subst. simpl. apply is_persistent_set_area.
  - unfold sanitizer_cov_trace_pc_guard.
    destruct (Mem.load_u8 _ _) as [counter|]; [|discriminate]. simpl.
    destruct (Mem.store_u8 _ _ _) as [m|]; [|discriminate]. simpl.
    intros H. inversion H; subst. apply is_persistent_set_area.
  - destruct (record_branch (area rt) br_id c) as [m|]; [|discriminate].
    intros H. inversion H; subst. apply is_persistent_set_area.
  - destruct (maybe_capture (area rt) br_id c) as [m []|?|?|]; try discriminate.
    intros H. inversion H; subst. apply is_persistent_set_area.
Qed.

Lemma reachable_flag P rt : reachable P rt -> is_persistent rt = 0.
Proof.
  induction 1 as [|rt c rt' tr _ IH Hstep].
  - reflexivity.
  - rewrite (rt_exec_keeps_flag _ _ _ _ _ Hstep). exact IH.
Qed.

(** With the flag at 0 the handler raises no signal and leaves the map
    and the pointer alone. *)
Lemma not_persistent_call P budget rt :
  is_persistent rt = 0 ->
  exists rt',
    afl_persistent_loop P budget rt
      = Returned rt' ((if first_pass rt =? 0 then 0 else 1), []) /\
    afl_area_ptr rt' = afl_area_ptr rt /\
    afl_area_initial rt' = afl_area_initial rt /\
    first_pass rt' = 0 /\ is_persistent rt' = 0.
Proof.
  intros Hpers. unfold afl_persistent_loop. rewrite Hpers.
  destruct (first_pass rt =? 0) eqn:E; simpl.
  - exists rt. repeat split; auto. apply Z.eqb_eq, E.
  - eexists. split; [reflexivity|]. repeat split; auto.
Qed.

(** With the flag at 0 no [waitpid] of the fork server asks for stopped
    children. *)
Lemma fs_run_plain_waits P script : forall s,
  (forall pt l, s = FsAt pt l -> reports_stops (pending P 0 pt l) = false) ->
  existsb reports_stops (fst (fs_run P 0 s script)) = false.
Proof.
  assert (forall pt l, reports_stops (pending P 0 pt l) = false) as Hpend.
  { intros pt l. destruct pt; reflexivity. }
  assert (forall pt l a, existsb reports_stops (fst (fs_step P pt l a)) = false)
    as Hstep.
  { intros pt l a. destruct pt; simpl; unfold fork_or_resume;
      repeat match goal with
             | |- context [if ?b then _ else _] => destruct b; simpl
             end; reflexivity. }
  induction script as [|a rest IH]; intros s _.
  - destruct s; reflexivity.
  - destruct s as [pt l|e]; [|reflexivity].
    simpl. specialize (Hstep pt l a).
    destruct (fs_step P pt l a) as [calls s'].
    specialize (IH s' ltac:(intros; apply Hpend)).
    destruct (fs_run P 0 s' rest) as [tr s'']. simpl in *.
    rewrite !existsb_app, Hstep, IH.
    destruct s' as [pt' l'|e']; simpl; [rewrite Hpend|]; reflexivity.
Qed.

(** With the flag at 0 and a kernel that reports stopped children to
    [WUNTRACED] waits only, [child_stopped] stays 0 and the child is
    never resumed with [SIGCONT]. *)
Lemma fs_run_never_resumes P script : forall s,
  (forall pt l, s = FsAt pt l -> child_stopped l = 0) ->
  kernel_waits P 0 s script = true ->
  existsb resumes_child (fst (fs_run P 0 s script)) = false /\
  (forall pt l, snd (fs_run P 0 s script) = FsAt pt l -> child_stopped l = 0).
Proof.
  assert (forall pt l, resumes_child (pending P 0 pt l) = false) as Hpend.
  { intros pt l. destruct pt; reflexivity. }
  induction script as [|a rest IH]; intros s Hinv Hk.
  - destruct s; simpl; split; auto.
  - destruct s as [pt l|e].
    2:{ simpl. split; [reflexivity|]. intros pt l E. discriminate. }
    specialize (Hinv pt l eq_refl).
    simpl in Hk. apply andb_prop in Hk as [Hwait Hk].
    assert (existsb resumes_child (fst (fs_step P pt l a)) = false /\
            forall pt' l', snd (fs_step P pt l a) = FsAt pt' l' ->
                           child_stopped l' = 0) as [Hcalls Hinv'].
    { destruct pt; simpl in *; unfold fork_or_resume; simpl;
        try rewrite Hinv; simpl;
        repeat match goal with
               | |- context [if ?b then _ else _] => destruct b eqn:?; simpl
               end;
        split; try reflexivity; intros pt' l' E; inversion E; subst; simpl;
        try exact Hinv; try reflexivity; try discriminate. }
    simpl. destruct (fs_step P pt l a) as [calls s'].
    simpl in Hcalls, Hinv', Hk.
    destruct (IH s' Hinv' Hk) as [Htr Hend].
    destruct (fs_run P 0 s' rest) as [tr s'']. simpl in *.
    split; [|exact Hend].
    rewrite !existsb_app, Hcalls, Htr.
    destruct s' as [pt' l'|e']; simpl; [rewrite Hpend|]; reflexivity.
Qed.

(** C10.  [is_persistent] starts at 0 and no call of the runtime changes
    it, so it is 0 in every state a process reaches.  In such a state
    the persistent-mode handler, for every budget, raises no signal and
    leaves the map and [__afl_area_ptr] as they are; called for the first
    time it returns 1 once and 0 at every later call; the fork server
    issues no [waitpid] with [WUNTRACED]; and, the kernel reporting
    stopped children to [WUNTRACED] waits only, it never resumes a child
    with [SIGCONT]. *)
Theorem persistent_mode_unreachable (P : platform) :
  is_persistent (runtime_start P) = 0 /\
  (forall rt c rt' tr,
     rt_exec P c rt = Returned rt' tr -> is_persistent rt' = is_persistent rt) /\
  (forall rt, reachable P rt ->
     is_persistent rt = 0 /\
     (forall budget, exists rt',
        afl_persistent_loop P budget rt
          = Returned rt' ((if first_pass rt =? 0 then 0 else 1), []) /\
        afl_area_ptr rt' = afl_area_ptr rt /\
        afl_area_initial rt' = afl_area_initial rt) /\
     (first_pass rt <> 0 ->
      forall n budget, exists rt',
        loop_calls P (S n) budget rt = Returned rt' (1 :: replicate n 0, [])) /\
     (forall script,
        existsb reports_stops
          (fst (afl_start_forkserver P (is_persistent rt) script)) = false /\
        (kernel_waits P (is_persistent rt) (FsAt AtHandshake fs_locals_start)
           script = true ->
         existsb resumes_child
           (fst (afl_start_forkserver P (is_persistent rt) script)) = false))).
Proof.
  split; [reflexivity|].
  split; [intros rt c rt' tr; apply rt_exec_keeps_flag|].
  intros rt Hreach. pose proof (reachable_flag P rt Hreach) as Hflag.
  split; [exact Hflag|]. split; [|split].
  - intros budget.
    destruct (not_persistent_call P budget rt Hflag)
      as (rt' & Hcall & Hptr & Hinit & _).
    exists rt'. split; [exact Hcall|]. split; assumption.
  - intros Hfirst n budget. eexists.
    apply not_persistent_calls; assumption.
  - intros script. rewrite Hflag. unfold afl_start_forkserver.
    pose proof (fs_run_plain_waits P script (FsAt AtHandshake fs_locals_start)
                  ltac:(intros pt l E; inversion E; reflexivity)) as Hw.
    split.
    + destruct (fs_run P 0 (FsAt AtHandshake fs_locals_start) script) as [tr s].
      simpl in *. exact Hw.
    + intros Hk.
      destruct (fs_run_never_resumes P script (FsAt AtHandshake fs_locals_start)
                  ltac:(intros pt l E; inversion E; reflexivity) Hk) as [Hr _].
      destruct (fs_run P 0 (FsAt AtHandshake fs_locals_start) script) as [tr s].
      simpl in *. exact Hr.
Qed.

(** The theorem in the state the example platform reaches by attaching
    segment 7, finding no controller, and recording one edge: three
    calls of the handler with a budget of 1000 give 1, 0, 0, and a fork
    server that serves one run makes plain calls only. *)
Lemma persistent_mode_unreachable_witness :
  exists rt,
    rt_run (example_platform (env_of "__AFL_SHM_ID" "7"))
      [CallAutoInit [Answer (-1) 0]; CallEdge 5]
      (runtime_start (example_platform (env_of "__AFL_SHM_ID" "7")))
    = Returned rt [SysWrite 199 0] /\
    is_persistent rt = 0 /\
    (exists rt',
       loop_calls (example_platform (env_of "__AFL_SHM_ID" "7")) 3 1000 rt
       = Returned rt' ([1; 0; 0], [])) /\
    existsb reports_stops
      (fst (afl_start_forkserver (example_platform (env_of "__AFL_SHM_ID" "7"))
              (is_persistent rt)
              [Answer 4 0; Answer 4 0; Answer 9 0; Answer 4 0; Answer 9 0;
               Answer 4 0])) = false.
Proof.
  destruct (persistent_mode_unreachable
              (example_platform (env_of "__AFL_SHM_ID" "7")))
    as (_ & _ & Hreach).
  eexists. split; [vm_compute; reflexivity|].
  match goal with
  | |- is_persistent ?rt = 0 /\ _ =>
      destruct (Hreach rt) as (Hflag & _ & Hloop & Hfs)
  end.
  - eapply reach_step with (c := CallEdge 5);
      [eapply reach_step with (c := CallAutoInit [Answer (-1) 0]);
         [apply reach_start|vm_compute; reflexivity]
      |vm_compute; reflexivity].
  - split; [exact Hflag|]. split.
    + apply (Hloop ltac:(discriminate) 2%nat 1000).
    + apply Hfs.
Defined.

(** * Part III: more of the code *)

(** ** Edge coverage along a path *)

(** [__sanitizer_cov_trace_pc_guard] adds one modulo 256 to the byte the
    guard designates and changes nothing else: no other byte, not the
    previous-location register, not any other global. *)
Theorem trace_pc_guard_effect (rt : runtime) (guard counter : Z) :
  Mem.load_u8 (area rt) guard = Some counter ->
  exists rt',
    sanitizer_cov_trace_pc_guard guard rt = Some rt' /\
    Mem.load_u8 (area rt') guard = Some ((counter + 1) mod 256) /\
    (forall j, j <> guard -> Mem.load_u8 (area rt') j = Mem.load_u8 (area rt) j) /\
    afl_prev_loc rt' = afl_prev_loc rt /\
    rt' = set_area rt (<[Z.to_nat guard := (counter + 1) mod 256]> (area rt)).
Proof.
  intros Hload. pose proof (load_u8_bound _ _ _ Hload) as Hin.
  unfold sanitizer_cov_trace_pc_guard. rewrite Hload. simpl.
  rewrite store_u8_in_range by exact Hin. simpl.
  eexists. split; [reflexivity|]. rewrite area_set_area.
  split; [|split; [|split]].
  - apply load_u8_Some. split; [lia|]. apply list_lookup_insert_eq. lia.
  - intros j Hj. unfold Mem.load_u8. destruct (Z.leb_spec 0 j); [|reflexivity].
    apply list_lookup_insert_ne. lia.
  - unfold set_area. destruct (afl_area_ptr rt); reflexivity.
  - reflexivity.
Qed.

Lemma trace_pc_guard_effect_witness :
  exists rt',
    sanitizer_cov_trace_pc_guard 3
      (Runtime [0; 0; 0; 255] InitialArea 9 0 1 0 0) = Some rt' /\
    Mem.load_u8 (area rt') 3 = Some 0 /\ afl_prev_loc rt' = 9.
Proof.
  destruct (trace_pc_guard_effect
              (Runtime [0; 0; 0; 255] InitialArea 9 0 1 0 0) 3 255 eq_refl)
    as (rt' & Hrun & Hbyte & _ & Hprev & _).
  exists rt'. split; [exact Hrun|]. split; [exact Hbyte|exact Hprev].
Defined.

Lemma last_nonempty_default {A} (l : list A) (x d d' : A) :
  List.last (x :: l) d = List.last (x :: l) d'.
Proof.
  revert x. induction l as [|y l IH]; intros x; [reflexivity|].
  change (List.last (y :: l) d = List.last (y :: l) d'). apply IH.
Qed.

(** A path through a map whose size is a power of two, with locations
    and register below the size: every step stays inside the map, and at
    the end each byte has grown, modulo 256, by the number of times its
    index occurs among the keys [cur XOR prev] of the path; the register
    holds half the last location. *)
Theorem record_edges_counts (k : Z) (locs : list Z) : forall rt,
  0 <= k <= 31 ->
  Z.of_nat (length (area rt)) = 2 ^ k ->
  0 <= afl_prev_loc rt < 2 ^ k ->
  Forall (fun c => 0 <= c < 2 ^ k) locs ->
  exists rt',
    record_edges locs rt = Some rt' /\
    length (area rt') = length (area rt) /\
    afl_prev_loc rt' = List.last (map (fun c => Z.shiftr c 1) locs) (afl_prev_loc rt) /\
    is_persistent rt' = is_persistent rt /\
    forall j b,
      Mem.load_u8 (area rt) j = Some b -> 0 <= b < 256 ->
      Mem.load_u8 (area rt') j =
      Some ((b + Z.of_nat (count_occ Z.eq_dec (edge_keys (afl_prev_loc rt) locs) j))
            mod 256).
Proof.
  induction locs as [|c rest IH]; intros rt Hk Hlen Hprev Hlocs.
  - exists rt. simpl. repeat split; auto.
    intros j b Hj Hb. rewrite Z.add_0_r, Z.mod_small by lia. exact Hj.
  - inversion Hlocs as [|? ? Hc Hrest]; subst.
    pose proof (lxor_below_pow2 c (afl_prev_loc rt) k ltac:(lia) Hc Hprev) as Hx.
    assert (2 ^ k <= 2 ^ 31) as Hpow by (apply Z.pow_le_mono_r; lia).
    assert (2 ^ 31 < 2 ^ 32) as Hpow' by (apply Z.pow_lt_mono_r; lia).
    destruct (load_u8_in_range (area rt) (Z.lxor c (afl_prev_loc rt)))
      as [counter Hload]; [lia|].
    destruct (record_edge_step rt c counter)
      as (rt1 & Hrun & Hbyte & Hother & Hlen1 & Hprev1 & Hrt1);
      [lia|lia|exact Hload|].
    assert (0 <= afl_prev_loc rt1 < 2 ^ k) as Hp1.
    { rewrite Hprev1, Z.shiftr_div_pow2 by lia. change (2 ^ 1) with 2. split.
      - apply Z.div_pos; lia.
      - apply Z.div_lt_upper_bound; lia. }
    destruct (IH rt1 Hk ltac:(rewrite Hlen1; exact Hlen) Hp1 Hrest)
      as (rt' & Hrun' & Hlen' & Hprev' & Hpers' & Hcount).
    exists rt'. simpl record_edges. rewrite Hrun. simpl.
    split; [exact Hrun'|]. split; [congruence|]. split.
    { rewrite Hprev', Hprev1. destruct rest as [|z rest]; [reflexivity|].
      simpl map. apply last_nonempty_default. }
    split.
    { rewrite Hpers', Hrt1. simpl. apply is_persistent_set_area. }
    intros j b Hj Hb. simpl. rewrite <- Hprev1.
    destruct (Z.eq_dec (Z.lxor c (afl_prev_loc rt)) j) as [E|E].
    + subst j. rewrite Hload in Hj. inversion Hj; subst.
      rewrite (Hcount _ _ Hbyte) by (apply Z.mod_pos_bound; lia).
      f_equal. rewrite Zplus_mod_idemp_l, Nat2Z.inj_succ. f_equal. lia.
    + rewrite <- (Hother j) in Hj by congruence.
      rewrite (Hcount _ _ Hj Hb). reflexivity.
Qed.

(** The path 5, 5, 2 through the eight-byte map of the example platform:
    the keys are 5, 7 and 0. *)
Lemma record_edges_counts_witness :
  exists rt',
    record_edges [5; 5; 2] (runtime_start (example_platform no_env)) = Some rt' /\
    area rt' = [1; 0; 0; 0; 0; 1; 0; 1] /\ afl_prev_loc rt' = 1.
Proof.
  destruct (record_edges_counts 3 [5; 5; 2]
              (runtime_start (example_platform no_env)))
    as (rt' & Hrun & _ & Hprev & _).
  - lia.
  - reflexivity.
  - simpl. lia.
  - repeat constructor; lia.
  - exists rt'. split; [exact Hrun|].
    vm_compute in Hrun. inversion Hrun; subst. split; reflexivity.
Defined.

Lemma lxor_shift_nonzero (c : Z) : 0 < c -> Z.lxor c (Z.shiftr c 1) <> 0.
Proof.
  intros Hc E. apply Z.lxor_eq in E.
  assert (Z.testbit c (Z.log2 c) = true) as Hbit by (apply Z.bit_log2; lia).
  rewrite E in Hbit at 1. rewrite Z.shiftr_spec in Hbit by apply Z.log2_nonneg.
  rewrite Z.bits_above_log2 in Hbit; [discriminate|lia|lia].
Qed.

(** A block that follows itself.  On a map whose size is a power of
    two, two visits in a row of a block at a location [c > 0] both go
    through, and the edge instructions count the second visit at the
    index [c XOR (c >> 1)], which is not 0: that byte grows by one modulo
    256 and every other byte, byte 0 among them, stays as the first visit
    left it. *)
Theorem self_loop_key (k c : Z) (rt : runtime) :
  0 <= k <= 31 ->
  Z.of_nat (length (area rt)) = 2 ^ k ->
  0 < c < 2 ^ k -> 0 <= afl_prev_loc rt < 2 ^ k ->
  exists rt1 rt2 counter,
    record_edge c rt = Some rt1 /\
    record_edge c rt1 = Some rt2 /\
    Z.lxor c (Z.shiftr c 1) <> 0 /\
    Mem.load_u8 (area rt1) (Z.lxor c (Z.shiftr c 1)) = Some counter /\
    Mem.load_u8 (area rt2) (Z.lxor c (Z.shiftr c 1))
      = Some ((counter + 1) mod 256) /\
    (forall j, j <> Z.lxor c (Z.shiftr c 1) ->
       Mem.load_u8 (area rt2) j = Mem.load_u8 (area rt1) j) /\
    Mem.load_u8 (area rt2) 0 = Mem.load_u8 (area rt1) 0.
Proof.
  intros Hk Hlen Hc Hprev.
  assert (2 ^ k <= 2 ^ 31) as Hpow by (apply Z.pow_le_mono_r; lia).
  assert (2 ^ 31 < 2 ^ 32) as Hpow' by (apply Z.pow_lt_mono_r; lia).
  pose proof (lxor_below_pow2 c (afl_prev_loc rt) k ltac:(lia) ltac:(lia) Hprev)
    as Hx.
  destruct (load_u8_in_range (area rt) (Z.lxor c (afl_prev_loc rt)))
    as [counter0 Hload0]; [lia|].
  destruct (record_edge_step rt c counter0)
    as (rt1 & Hrun1 & _ & _ & Hlen1 & Hprev1 & _); [lia|lia|exact Hload0|].
  assert (0 <= Z.shiftr c 1 < 2 ^ k) as Hhalf.
  { rewrite Z.shiftr_div_pow2 by lia. change (2 ^ 1) with 2. split.
    - apply Z.div_pos; lia.
    - apply Z.div_lt_upper_bound; lia. }
  pose proof (lxor_below_pow2 c (Z.shiftr c 1) k ltac:(lia) ltac:(lia) Hhalf)
    as Hkey.
  pose proof (lxor_shift_nonzero c ltac:(lia)) as Hnz.
  destruct (load_u8_in_range (area rt1) (Z.lxor c (Z.shiftr c 1)))
    as [counter Hload1]; [rewrite Hlen1; lia|].
  destruct (record_edge_step rt1 c counter)
    as (rt2 & Hrun2 & Hbyte & Hother & _); [lia|rewrite Hprev1; lia| |].
  { rewrite Hprev1. exact Hload1. }
  rewrite Hprev1 in Hbyte, Hother.
  exists rt1, rt2, counter.
  split; [exact Hrun1|]. split; [exact Hrun2|]. split; [exact Hnz|].
  split; [exact Hload1|]. split; [exact Hbyte|]. split; [exact Hother|].
  apply Hother. congruence.
Qed.

(** The block at location 6 of the eight-byte map of the example
    platform, run twice from the start: the second visit is counted at
    index 5. *)
Lemma self_loop_key_witness :
  exists rt1 rt2,
    record_edge 6 (runtime_start (example_platform no_env)) = Some rt1 /\
    record_edge 6 rt1 = Some rt2 /\
    Mem.load_u8 (area rt2) 0 = Mem.load_u8 (area rt1) 0.
Proof.
  destruct (self_loop_key 3 6 (runtime_start (example_platform no_env)))
    as (rt1 & rt2 & counter & H1 & H2 & _ & _ & _ & _ & H0).
  - lia.
  - reflexivity.
  - simpl. lia.
  - simpl. lia.
  - exists rt1, rt2. split; [exact H1|]. split; [exact H2|exact H0].
Defined.

(** ** Guard table *)

Lemma R_range P n x : 0 < x -> 0 <= R P n x < x.
Proof. intros Hx. unfold R. apply Z.mod_pos_bound. exact Hx. Qed.

Lemma fill_guards_facts P inst_ratio guards : forall n,
  2 <= Z.of_nat (MAP_SIZE P) <= 2 ^ 32 ->
  length (fill_guards P inst_ratio n guards) = length guards /\
  Forall (fun g => 0 <= g < Z.of_nat (MAP_SIZE P))
         (fill_guards P inst_ratio n guards) /\
  (100 <= inst_ratio ->
   Forall (fun g => g <> 0) (fill_guards P inst_ratio n guards)).
Proof.
  induction guards as [|g rest IH]; intros n Hsize.
  - simpl. repeat split; constructor.
  - simpl.
    pose proof (R_range P (S n) (Z.of_nat (MAP_SIZE P) - 1) ltac:(lia)) as Hr.
    pose proof (R_range P n 100 ltac:(lia)) as Hr100.
    assert (CInt.uint 32 (R P (S n) (Z.of_nat (MAP_SIZE P) - 1) + 1)
            = R P (S n) (Z.of_nat (MAP_SIZE P) - 1) + 1) as Heq
      by (apply uint_small; lia).
    destruct (Z.ltb_spec (R P n 100) inst_ratio) as [Hlt|Hge].
    + destruct (IH (S (S n)) Hsize) as (Hl & Hf & Hnz).
      split; [simpl; congruence|]. split.
      * constructor; [rewrite Heq; lia|exact Hf].
      * intros Hfull. constructor; [rewrite Heq; lia|apply Hnz, Hfull].
    + destruct (IH (S n) Hsize) as (Hl & Hf & Hnz).
      split; [simpl; congruence|]. split.
      * constructor; [lia|exact Hf].
      * intros Hfull. lia.
Qed.

(** [__sanitizer_cov_trace_pc_guard_init] on a table not yet initialised,
    with the ratio unset or in 1-100 and a map of 2 to [2 ^ 32] bytes:
    the table keeps its length, its first guard becomes a location
    between 1 and [MAP_SIZE - 1], every other guard becomes 0 or such a
    location, nothing is written to stderr, and a second call on the
    table is a no-op; with the ratio unset or 100 no guard is left 0. *)
Theorem guard_init_fills (P : platform) (rest : list Z) :
  2 <= Z.of_nat (MAP_SIZE P) <= 2 ^ 32 ->
  (getenv P "AFL_INST_RATIO" = None \/
   exists s, getenv P "AFL_INST_RATIO" = Some s /\
             1 <= CInt.uint 32 (atoi P s) <= 100) ->
  exists g0 guards,
    sanitizer_cov_trace_pc_guard_init P (0 :: rest)
      = Returned (g0 :: guards, []) tt /\
    length guards = length rest /\
    1 <= g0 < Z.of_nat (MAP_SIZE P) /\
    Forall (fun g => 0 <= g < Z.of_nat (MAP_SIZE P)) guards /\
    sanitizer_cov_trace_pc_guard_init P (g0 :: guards)
      = Returned (g0 :: guards, []) tt /\
    ((getenv P "AFL_INST_RATIO" = None \/
      exists s, getenv P "AFL_INST_RATIO" = Some s /\
                CInt.uint 32 (atoi P s) = 100) ->
     Forall (fun g => g <> 0) guards).
Proof.
  intros Hsize Henv.
  pose proof (R_range P 0 (Z.of_nat (MAP_SIZE P) - 1) ltac:(lia)) as Hr.
  assert (CInt.uint 32 (R P 0 (Z.of_nat (MAP_SIZE P) - 1) + 1)
          = R P 0 (Z.of_nat (MAP_SIZE P) - 1) + 1) as Heq
    by (apply uint_small; lia).
  set (inst_ratio := match getenv P "AFL_INST_RATIO" with
                     | Some x => CInt.uint 32 (atoi P x)
                     | None => 100
                     end).
  assert (1 <= inst_ratio <= 100) as Hratio.
  { unfold inst_ratio. destruct Henv as [->|(s & -> & Hs)]; lia. }
  destruct (fill_guards_facts P inst_ratio rest 1%nat Hsize) as (Hl & Hf & Hnz).
  exists (R P 0 (Z.of_nat (MAP_SIZE P) - 1) + 1), (fill_guards P inst_ratio 1 rest).
  split.
  - unfold sanitizer_cov_trace_pc_guard_init. simpl negb. cbv iota.
    fold inst_ratio.
    destruct (Z.eqb_spec inst_ratio 0); [lia|].
    destruct (Z.gtb_spec inst_ratio 100); [lia|].
    simpl orb. cbv iota. rewrite Heq. reflexivity.
  - split; [exact Hl|]. split; [lia|]. split; [exact Hf|]. split.
    + unfold sanitizer_cov_trace_pc_guard_init.
      destruct (Z.eqb_spec (R P 0 (Z.of_nat (MAP_SIZE P) - 1) + 1) 0); [lia|].
      reflexivity.
    + intros Hfull. apply Hnz. unfold inst_ratio.
      destruct Hfull as [->|(s & -> & Hs)]; lia.
Qed.

Lemma guard_init_fills_witness :
  exists g0 guards,
    sanitizer_cov_trace_pc_guard_init
      (example_platform (env_of "AFL_INST_RATIO" "50")) [0; 0; 0; 0; 0]
      = Returned (g0 :: guards, []) tt /\
    length guards = 4%nat /\ 1 <= g0 < 8.
Proof.
  destruct (guard_init_fills (example_platform (env_of "AFL_INST_RATIO" "50"))
              [0; 0; 0; 0])
    as (g0 & guards & Hrun & Hlen & Hg0 & _).
  - simpl. lia.
  - right. exists "50". split; [reflexivity|]. vm_compute. split; congruence.
  - exists g0, guards. split; [exact Hrun|]. split; [exact Hlen|exact Hg0].
Defined.

(** ** Initialisation *)

(** [__afl_manual_init] runs once: when a call of it returns, the
    initialisation flag is set, and every later call returns at once,
    makes no system call and leaves the state as it is, whatever the
    outside world would answer. *)
Theorem manual_init_once (P : platform) (script : list answer)
    (rt rt' : runtime) (tr : list syscall) :
  afl_manual_init P script rt = Returned rt' tr ->
  init_done rt' <> 0 /\
  forall script', afl_manual_init P script' rt' = Returned rt' [] /\
                  afl_auto_init P script' rt' = Returned rt' [].
Proof.
  intros Hrun.
  assert (init_done rt' <> 0) as Hdone.
  { unfold afl_manual_init in Hrun.
    destruct (Z.eqb_spec (init_done rt) 0) as [E|E].
    - destruct (afl_map_shm P rt) as [rt1 []|?|?|]; try discriminate.
      destruct (afl_start_forkserver P (is_persistent rt1) script)
        as [tr' [pt l|[| |code]]]; try discriminate;
        inversion Hrun; subst; simpl; lia.
    - inversion Hrun; subst. exact E. }
  split; [exact Hdone|]. intros script'.
  unfold afl_auto_init, afl_manual_init.
  destruct (Z.eqb_spec (init_done rt') 0); [contradiction|]. split; reflexivity.
Qed.

Lemma manual_init_once_witness :
  afl_manual_init (example_platform no_env) [Answer 4 0; Answer 4 0]
    (set_init_done (runtime_start (example_platform no_env)) 1)
  = Returned (set_init_done (runtime_start (example_platform no_env)) 1) [].
Proof.
  apply (manual_init_once (example_platform no_env) [Answer (-1) 0]
           (runtime_start (example_platform no_env))
           (set_init_done (runtime_start (example_platform no_env)) 1)
           [SysWrite 199 0] eq_refl).
Defined.

(** ** Fork server: the protocol *)

(** The only way into the child is the [fork] that returned 0, and the
    child closes both descriptors before anything else. *)
Lemma fs_step_child P pt l a calls :
  fs_step P pt l a = (calls, FsEnded InChild) ->
  pt = AtFork /\ calls = [SysClose (FORKSRV_FD P); SysClose (FORKSRV_FD P + 1)].
Proof.
  destruct pt; simpl; unfold fork_or_resume;
    repeat match goal with
           | |- context [if ?b then _ else _] => destruct b
           end; intros E; inversion E; subst; auto.
Qed.

Lemma fs_run_child P isp script : forall pt l tr,
  fs_run P isp (FsAt pt l) script = (tr, FsEnded InChild) ->
  exists tr0,
    pending P isp pt l :: tr =
    tr0 ++ [SysFork; SysClose (FORKSRV_FD P); SysClose (FORKSRV_FD P + 1)].
Proof.
  induction script as [|a rest IH]; intros pt l tr Hrun.
  - simpl in Hrun. inversion Hrun.
  - simpl in Hrun. destruct (fs_step P pt l a) as [calls s'] eqn:Hstep.
    destruct s' as [pt' l'|e].
    + destruct (fs_run P isp (FsAt pt' l') rest) as [tr' s''] eqn:Hrest.
      inversion Hrun; subst.
      destruct (IH pt' l' tr' Hrest) as [tr0 Htr0].
      exists (pending P isp pt l :: calls ++ tr0).
      simpl. rewrite <- app_assoc. simpl in Htr0. rewrite <- Htr0. reflexivity.
    + rewrite fs_run_ended in Hrun. inversion Hrun; subst.
      apply fs_step_child in Hstep as [-> ->].
      exists []. reflexivity.
Qed.

(** When [__afl_start_forkserver] returns in a forked child, the last
    three calls it made are the [fork] and the [close] of the two
    handshake descriptors, in that order: the child does not keep them. *)
Theorem forkserver_child_closes (P : platform) (isp : Z)
    (script : list answer) (tr : list syscall) :
  afl_start_forkserver P isp script = (tr, FsEnded InChild) ->
  exists tr0,
    tr = tr0 ++ [SysFork; SysClose (FORKSRV_FD P); SysClose (FORKSRV_FD P + 1)].
Proof.
  unfold afl_start_forkserver.
  destruct (fs_run P isp (FsAt AtHandshake fs_locals_start) script)
    as [tr' s] eqn:Hrun.
  intros E. inversion E; subst.
  apply (fs_run_child P isp script AtHandshake fs_locals_start tr' Hrun).
Qed.

Lemma forkserver_child_closes_witness :
  exists tr0,
    [SysWrite 199 0; SysRead 198; SysFork; SysClose 198; SysClose 199]
    = tr0 ++ [SysFork; SysClose 198; SysClose 199].
Proof.
  apply (forkserver_child_closes (example_platform no_env) 0
           [Answer 4 0; Answer 4 0; Answer 0 0]). reflexivity.
Defined.

Lemma names_child_pending P isp pt l :
  names_child_inv pt l -> names_child (pending P isp pt l) = true.
Proof.
  intros [Hpt _]. destruct pt; simpl; try reflexivity;
    apply Z.ltb_lt, Hpt; auto.
Qed.

Lemma names_child_step P pt l a calls s' :
  names_child_inv pt l -> fs_step P pt l a = (calls, s') ->
  forallb names_child calls = true /\
  forall pt' l', s' = FsAt pt' l' -> names_child_inv pt' l'.
Proof.
  intros [Hpt Hstop]. unfold names_child_inv.
  assert (forall l0, (child_stopped l0 <> 0 -> 0 < child_pid l0) ->
            forall calls0 s0, fork_or_resume l0 = (calls0, s0) ->
            forallb names_child calls0 = true /\
            forall pt' l', s0 = FsAt pt' l' ->
              (pt' = AtReap \/ pt' = AtWritePid \/ pt' = AtWait \/
               pt' = AtWriteStatus -> 0 < child_pid l') /\
              (child_stopped l' <> 0 -> 0 < child_pid l')) as Hfork.
  { intros l0 Hl0 calls0 s0. unfold fork_or_resume.
    destruct (Z.eqb_spec (child_stopped l0) 0) as [E0|E0];
      intros E; inversion E; subst; simpl.
    - split; [reflexivity|]. intros pt' l' E'. inversion E'; subst.
      split; [intros [H|[H|[H|H]]]; discriminate|exact Hl0].
    - specialize (Hl0 E0). split.
      + rewrite andb_true_r. apply Z.ltb_lt, Hl0.
      + intros pt' l' E'. inversion E'; subst. simpl. split; auto. }
  destruct pt; simpl.
  - destruct (ret a =? 4); intros E; inversion E; subst;
      (split; [reflexivity|]); intros pt' l' E'; inversion E'; subst.
    split; [intros [H|[H|[H|H]]]; discriminate|exact Hstop].
  - destruct (ret a =? 4).
    + destruct (negb (child_stopped l =? 0) && negb (CInt.uint 32 (data a) =? 0))
        eqn:Hrace.
      * intros E; inversion E; subst. split; [reflexivity|].
        intros pt' l' E'. inversion E'; subst. simpl.
        apply andb_prop in Hrace as [Hs _].
        apply negb_true_iff, Z.eqb_neq in Hs.
        split; [intros _; apply Hstop, Hs|lia].
      * intros E. apply Hfork in E; [exact E|]. simpl. exact Hstop.
    + intros E; inversion E; subst. split; [reflexivity|].
      intros pt' l' E'. discriminate.
  - destruct (ret a <? 0).
    + intros E; inversion E; subst. split; [reflexivity|].
      intros pt' l' E'. discriminate.
    + intros E. apply Hfork in E; [exact E|]. simpl. intros _. apply Hpt. auto.
  - destruct (Z.ltb_spec (CInt.sint 32 (ret a)) 0).
    + intros E; inversion E; subst. split; [reflexivity|].
      intros pt' l' E'. discriminate.
    + destruct (Z.eqb_spec (CInt.sint 32 (ret a)) 0).
      * intros E; inversion E; subst. split; [reflexivity|].
        intros pt' l' E'. discriminate.
      * intros E; inversion E; subst. split; [reflexivity|].
        intros pt' l' E'. inversion E'; subst. simpl. split; intros; lia.
  - destruct (ret a =? 4); intros E; inversion E; subst;
      (split; [reflexivity|]); intros pt' l' E'; inversion E'; subst.
    split; [intros _; apply Hpt; auto|exact Hstop].
  - destruct (ret a <? 0); intros E; inversion E; subst;
      (split; [reflexivity|]); intros pt' l' E'; inversion E'; subst.
    simpl. split; intros _; apply Hpt; auto.
  - destruct (ret a =? 4); intros E; inversion E; subst;
      (split; [reflexivity|]); intros pt' l' E'; inversion E'; subst.
    split; [intros [H|[H|[H|H]]]; discriminate|].
    intros _. apply Hpt. auto.
Qed.

Lemma fs_run_names_children P isp script : forall pt l,
  names_child_inv pt l ->
  forallb names_child (fst (fs_run P isp (FsAt pt l) script)) = true.
Proof.
  induction script as [|a rest IH]; intros pt l Hinv; [reflexivity|].
  simpl. destruct (fs_step P pt l a) as [calls s'] eqn:Hstep.
  destruct (names_child_step P pt l a calls s' Hinv Hstep) as [Hcalls Hnext].
  destruct s' as [pt' l'|e].
  - specialize (Hnext pt' l' eq_refl). specialize (IH pt' l' Hnext).
    destruct (fs_run P isp (FsAt pt' l') rest) as [tr s'']. simpl in *.
    rewrite forallb_app, Hcalls. simpl.
    rewrite (names_child_pending P isp pt' l' Hnext), IH. reflexivity.
  - rewrite fs_run_ended. simpl. rewrite app_nil_r. exact Hcalls.
Qed.

(** Every [waitpid] and every [kill] the fork server makes names a
    positive pid, in persistent mode or not and whatever the outside
    world answers: the local [child_pid], which starts without a value,
    is never used before a [fork] has set it, and the fork server never
    waits for or signals a process group or every process. *)
Theorem forkserver_names_children (P : platform) (isp : Z)
    (script : list answer) :
  forallb names_child (fst (afl_start_forkserver P isp script)) = true.
Proof.
  unfold afl_start_forkserver.
  assert (names_child_inv AtHandshake fs_locals_start) as Hinv.
  { split; [intros [H|[H|[H|H]]]; discriminate|simpl; lia]. }
  pose proof (fs_run_names_children P isp script _ _ Hinv) as H.
  destruct (fs_run P isp (FsAt AtHandshake fs_locals_start) script) as [tr s].
  simpl in *. exact H.
Qed.

Lemma fs_run_step P isp pt l a rest calls pt' l' :
  fs_step P pt l a = (calls, FsAt pt' l') ->
  fs_run P isp (FsAt pt l) (a :: rest) =
  (calls ++ pending P isp pt' l' :: fst (fs_run P isp (FsAt pt' l') rest),
   snd (fs_run P isp (FsAt pt' l') rest)).
Proof.
  intros Hstep. simpl. rewrite Hstep.
  destruct (fs_run P isp (FsAt pt' l') rest) as [tr s]. reflexivity.
Qed.

(** One request served.  From the point where the function reads a
    request with no stopped child, a request read in full, a [fork]
    that returns a positive pid, a pid write in full, a [waitpid] that
    does not fail and a status write in full add to the trace exactly:
    the [fork], one write of the pid, the [waitpid] for that pid, one
    write of the status [waitpid] stored, and the next read; the
    function is back at the read with the pid recorded and
    [child_stopped] telling whether the status was a stop. *)
Theorem forkserver_serves_request (P : platform) (isp : Z)
    (pre : list answer) (tr : list syscall) (l : fs_locals)
    (a1 a2 a3 a4 a5 : answer) :
  afl_start_forkserver P isp pre = (tr, FsAt AtRead l) ->
  child_stopped l = 0 ->
  ret a1 = 4 -> 0 < CInt.sint 32 (ret a2) -> ret a3 = 4 ->
  0 <= ret a4 -> ret a5 = 4 ->
  afl_start_forkserver P isp (pre ++ [a1; a2; a3; a4; a5]) =
  (tr ++ [SysFork;
          SysWrite (FORKSRV_FD P + 1) (CInt.sint 32 (ret a2));
          SysWaitpid (CInt.sint 32 (ret a2))
            (if isp =? 0 then 0 else WUNTRACED);
          SysWrite (FORKSRV_FD P + 1) (CInt.sint 32 (data a4));
          SysRead (FORKSRV_FD P)],
   FsAt AtRead
     {| child_pid := CInt.sint 32 (ret a2);
        child_stopped := if WIFSTOPPED (CInt.sint 32 (data a4)) then 1 else 0;
        was_killed := CInt.uint 32 (data a1);
        status := CInt.sint 32 (data a4) |}).
Proof.
  intros Hpre Hstop H1 H2 H3 H4 H5.
  rewrite (forkserver_after _ _ _ _ _ _ _ Hpre).
  set (l1 := {| child_pid := child_pid l; child_stopped := child_stopped l;
                was_killed := CInt.uint 32 (data a1); status := status l |}).
  set (l2 := {| child_pid := CInt.sint 32 (ret a2);
                child_stopped := child_stopped l1;
                was_killed := was_killed l1; status := status l1 |}).
  set (l4 := {| child_pid := child_pid l2;
                child_stopped := if WIFSTOPPED (CInt.sint 32 (data a4))
                                 then 1 else child_stopped l2;
                was_killed := was_killed l2;
                status := CInt.sint 32 (data a4) |}).
  assert (fs_step P AtRead l a1 = ([], FsAt AtFork l1)) as S1.
  { unfold l1. simpl. rewrite H1. simpl. unfold fork_or_resume. simpl.
    rewrite Hstop. reflexivity. }
  assert (fs_step P AtFork l1 a2 = ([], FsAt AtWritePid l2)) as S2.
  { simpl. destruct (Z.ltb_spec (CInt.sint 32 (ret a2)) 0); [lia|].
    destruct (Z.eqb_spec (CInt.sint 32 (ret a2)) 0); [lia|]. reflexivity. }
  assert (fs_step P AtWritePid l2 a3 = ([], FsAt AtWait l2)) as S3.
  { simpl. rewrite H3. reflexivity. }
  assert (fs_step P AtWait l2 a4 = ([], FsAt AtWriteStatus l4)) as S4.
  { simpl. destruct (Z.ltb_spec (ret a4) 0); [lia|]. reflexivity. }
  assert (fs_step P AtWriteStatus l4 a5 = ([], FsAt AtRead l4)) as S5.
  { simpl. rewrite H5. reflexivity. }
  rewrite (fs_run_step _ _ _ _ _ _ _ _ _ S1).
  rewrite (fs_run_step _ _ _ _ _ _ _ _ _ S2).
  rewrite (fs_run_step _ _ _ _ _ _ _ _ _ S3).
  rewrite (fs_run_step _ _ _ _ _ _ _ _ _ S4).
  rewrite (fs_run_step _ _ _ _ _ _ _ _ _ S5).
  unfold l4, l2, l1. simpl. rewrite Hstop. reflexivity.
Qed.

Lemma forkserver_serves_request_witness :
  afl_start_forkserver (example_platform no_env) 0
    ([Answer 4 0] ++ [Answer 4 0; Answer 9 0; Answer 4 0; Answer 9 256; Answer 4 0])
  = ([SysWrite 199 0; SysRead 198] ++
     [SysFork; SysWrite 199 9; SysWaitpid 9 0; SysWrite 199 256; SysRead 198],
     FsAt AtRead (FsLocals 9 0 0 256)).
Proof.
  apply (forkserver_serves_request (example_platform no_env) 0 [Answer 4 0]
           [SysWrite 199 0; SysRead 198] fs_locals_start
           (Answer 4 0) (Answer 9 0) (Answer 4 0) (Answer 9 256) (Answer 4 0));
    try reflexivity; simpl; lia.
Defined.

(** The stopped child.  At the read with a stopped child [p]: a request
    whose word is 0 makes the function send [SIGCONT] to [p] and report
    [p] again, with no [fork]; a request whose word is not 0 (the
    controller has killed [p]) makes it collect [p] with a plain
    [waitpid] first and then, if that does not fail, [fork]. *)
Theorem forkserver_stopped_child (P : platform) (isp : Z)
    (pre : list answer) (tr : list syscall) (l : fs_locals) (a b : answer) :
  afl_start_forkserver P isp pre = (tr, FsAt AtRead l) ->
  child_stopped l <> 0 -> ret a = 4 ->
  (CInt.uint 32 (data a) = 0 ->
   afl_start_forkserver P isp (pre ++ [a]) =
   (tr ++ [SysKill (child_pid l) SIGCONT;
           SysWrite (FORKSRV_FD P + 1) (child_pid l)],
    FsAt AtWritePid
      {| child_pid := child_pid l; child_stopped := 0;
         was_killed := 0; status := status l |})) /\
  (CInt.uint 32 (data a) <> 0 -> 0 <= ret b ->
   afl_start_forkserver P isp (pre ++ [a; b]) =
   (tr ++ [SysWaitpid (child_pid l) 0; SysFork],
    FsAt AtFork
      {| child_pid := child_pid l; child_stopped := 0;
         was_killed := CInt.uint 32 (data a);
         status := CInt.sint 32 (data b) |})).
Proof.
  intros Hpre Hstop Ha.
  assert ((child_stopped l =? 0) = false) as Hs by (apply Z.eqb_neq, Hstop).
  split.
  - intros Hw. rewrite (forkserver_after _ _ _ _ _ _ _ Hpre).
    erewrite fs_run_step.
    2:{ simpl. rewrite Ha. simpl. rewrite Hs, Hw. simpl.
        unfold fork_or_resume. simpl. rewrite Hs. reflexivity. }
    reflexivity.
  - intros Hw Hb. rewrite (forkserver_after _ _ _ _ _ _ _ Hpre).
    assert ((CInt.uint 32 (data a) =? 0) = false) as Hw' by (apply Z.eqb_neq, Hw).
    erewrite fs_run_step.
    2:{ simpl. rewrite Ha. simpl. rewrite Hs, Hw'. reflexivity. }
    erewrite fs_run_step.
    2:{ simpl. destruct (Z.ltb_spec (ret b) 0); [lia|].
        unfold fork_or_resume. reflexivity. }
    reflexivity.
Qed.

Lemma forkserver_stopped_child_witness :
  afl_start_forkserver (example_platform no_env) 1
    ([Answer 4 0; Answer 4 0; Answer 9 0; Answer 4 0; Answer 9 4991; Answer 4 0]
     ++ [Answer 4 0])
  = ([SysWrite 199 0; SysRead 198; SysFork; SysWrite 199 9; SysWaitpid 9 2;
      SysWrite 199 4991; SysRead 198] ++ [SysKill 9 SIGCONT; SysWrite 199 9],
     FsAt AtWritePid (FsLocals 9 0 0 4991)).
Proof.
  destruct (forkserver_stopped_child (example_platform no_env) 1
              [Answer 4 0; Answer 4 0; Answer 9 0; Answer 4 0; Answer 9 4991;
               Answer 4 0]
              [SysWrite 199 0; SysRead 198; SysFork; SysWrite 199 9;
               SysWaitpid 9 2; SysWrite 199 4991; SysRead 198]
              (FsLocals 9 1 0 4991) (Answer 4 0) (Answer 0 0))
    as [Hcont _].
  - reflexivity.
  - simpl. lia.
  - reflexivity.
  - apply Hcont. reflexivity.
Defined.

(** ** Persistent mode handler: more *)

(** The first call in persistent mode on a map of [MAP_SIZE] bytes
    leaves a map that is 1 at byte 0 and 0 everywhere else, whatever it
    held, resets the previous-location register and keeps the pointer on
    the same buffer. *)
Theorem persistent_first_call_clears (P : platform) (budget : Z) (rt : runtime) :
  first_pass rt <> 0 -> is_persistent rt <> 0 ->
  length (area rt) = MAP_SIZE P -> (0 < MAP_SIZE P)%nat ->
  exists rt',
    afl_persistent_loop P budget rt = Returned rt' (1, []) /\
    area rt' = 1 :: replicate (MAP_SIZE P - 1) 0 /\
    afl_prev_loc rt' = 0 /\
    cycle_cnt rt' = CInt.uint 32 budget /\
    (afl_area_ptr rt = InitialArea <-> afl_area_ptr rt' = InitialArea).
Proof.
  intros Hfirst Hpers Hlen Hsize. unfold afl_persistent_loop.
  destruct (Z.eqb_spec (first_pass rt) 0); [contradiction|].
  destruct (Z.eqb_spec (is_persistent rt) 0); [contradiction|]. simpl.
  unfold Mem.memset.
  destruct (Nat.leb_spec (MAP_SIZE P) (length (area rt))); [|lia].
  rewrite drop_ge, app_nil_r by lia.
  rewrite store_u8_in_range by (rewrite length_replicate; lia).
  eexists. split; [reflexivity|].
  assert (forall m, area (set_first_pass
            (set_cycle_cnt (set_prev_loc (set_area rt m) 0)
               (CInt.uint 32 budget)) 0) = m) as Harea.
  { intros m. unfold area, set_area. destruct (afl_area_ptr rt); reflexivity. }
  rewrite Harea. split; [|split; [|split]].
  - destruct (MAP_SIZE P) as [|size]; [lia|]. simpl.
    rewrite Nat.sub_0_r. reflexivity.
  - reflexivity.
  - reflexivity.
  - unfold set_first_pass, set_cycle_cnt, set_prev_loc, set_area. simpl.
    destruct (afl_area_ptr rt); simpl; split; intros E;
      try reflexivity; discriminate.
Qed.

Lemma persistent_first_call_clears_witness :
  exists rt',
    afl_persistent_loop (example_platform no_env) 5
      (Runtime (replicate 8 9) InitialArea 77 1 1 0 0) = Returned rt' (1, []) /\
    area rt' = [1; 0; 0; 0; 0; 0; 0; 0] /\ afl_prev_loc rt' = 0.
Proof.
  destruct (persistent_first_call_clears (example_platform no_env) 5
              (Runtime (replicate 8 9) InitialArea 77 1 1 0 0))
    as (rt' & Hrun & Harea & Hprev & _); try discriminate.
  - reflexivity.
  - simpl. lia.
  - exists rt'. split; [exact Hrun|]. split; [exact Harea|exact Hprev].
Defined.

(** Where the pointer is after a call in persistent mode: a call that
    returns 0 leaves [__afl_area_ptr] on the private buffer, so that what
    runs after the loop is not recorded in the shared map; a call that
    returns 1 leaves it on the buffer it was on; and no call writes the
    private buffer while the pointer is on the shared one. *)
Theorem persistent_loop_pointer (P : platform) (budget : Z)
    (rt rt' : runtime) (r : Z) (raised : list syscall) :
  is_persistent rt <> 0 ->
  afl_persistent_loop P budget rt = Returned rt' (r, raised) ->
  (r = 0 -> afl_area_ptr rt' = InitialArea) /\
  (r <> 0 ->
   (afl_area_ptr rt = InitialArea <-> afl_area_ptr rt' = InitialArea)) /\
  (afl_area_ptr rt <> InitialArea ->
   afl_area_initial rt' = afl_area_initial rt).
Proof.
  intros Hpers. unfold afl_persistent_loop.
  destruct (Z.eqb_spec (is_persistent rt) 0); [contradiction|]. simpl.
  destruct (first_pass rt =? 0); simpl.
  - destruct (CInt.uint 32 (cycle_cnt rt - 1) =? 0); simpl.
    + intros E. inversion E; subst. simpl.
      split; [reflexivity|]. split; [intros H; contradiction|reflexivity].
    + destruct (Mem.store_u8 _ 0 1) as [m|]; [|discriminate].
      intros E. inversion E; subst.
      unfold set_prev_loc, set_area, stopped_and_resumed, set_cycle_cnt,
        set_area_ptr. simpl.
      destruct (afl_area_ptr rt); simpl;
        (split; [intros H; discriminate|]);
        (split; [intros _; split; intros H; try reflexivity; discriminate|]);
        intros H; first [contradiction|reflexivity].
  - destruct (Mem.memset (area rt) 0 (MAP_SIZE P)) as [m0|]; [|discriminate].
    destruct (Mem.store_u8 m0 0 1) as [m1|]; [|discriminate].
    intros E. inversion E; subst.
    unfold set_first_pass, set_cycle_cnt, set_prev_loc, set_area. simpl.
    destruct (afl_area_ptr rt); simpl;
      (split; [intros H; discriminate|]);
      (split; [intros _; split; intros H; try reflexivity; discriminate|]);
      intros H; first [contradiction|reflexivity].
Qed.

Lemma persistent_loop_pointer_witness :
  afl_area_ptr
    (set_area_ptr (set_cycle_cnt (Runtime [0] (SharedArea [1]) 0 1 0 1 0) 0)
       InitialArea) = InitialArea.
Proof.
  destruct (persistent_loop_pointer (example_platform no_env) 3
              (Runtime [0] (SharedArea [1]) 0 1 0 1 0)
              (set_area_ptr
                 (set_cycle_cnt (Runtime [0] (SharedArea [1]) 0 1 0 1 0) 0)
                 InitialArea) 0 [])
    as (Hzero & _).
  - discriminate.
  - reflexivity.
  - apply Hzero. reflexivity.
Defined.

(** The call in persistent mode that finds the counter at 0: the
    decrement wraps and the call goes on as with budget left. *)
Lemma persistent_wrap_call P budget rt :
  first_pass rt = 0 -> is_persistent rt <> 0 -> cycle_cnt rt = 0 ->
  (0 < length (area rt))%nat ->
  (forall seg, length (on_stop P seg) = length seg) ->
  exists rt',
    afl_persistent_loop P budget rt = Returned rt' (1, [SysRaise SIGSTOP]) /\
    first_pass rt' = 0 /\ is_persistent rt' = is_persistent rt /\
    cycle_cnt rt' = 2 ^ 32 - 1 /\
    (0 < length (area rt'))%nat.
Proof.
  intros Hfirst Hpers Hcnt Hlen Hstop. unfold afl_persistent_loop.
  rewrite Hfirst, Hcnt. simpl.
  destruct (Z.eqb_spec (is_persistent rt) 0); [contradiction|]. simpl.
  change (CInt.uint 32 (0 - 1)) with (2 ^ 32 - 1).
  change (2 ^ 32 - 1 =? 0) with false. simpl.
  set (rt2 := stopped_and_resumed P (set_cycle_cnt rt (2 ^ 32 - 1))).
  assert (length (area rt2) = length (area rt)) as Hl.
  { unfold rt2, stopped_and_resumed, area, set_cycle_cnt. simpl.
    destruct (afl_area_ptr rt); simpl; [reflexivity|apply Hstop]. }
  rewrite store_u8_in_range by lia.
  eexists. split; [reflexivity|].
  assert (forall m, area (set_prev_loc (set_area rt2 m) 0) = m) as Harea.
  { intros m. unfold area, set_area. destruct (afl_area_ptr rt2); reflexivity. }
  rewrite Harea, length_insert.
  assert (first_pass rt2 = 0 /\ is_persistent rt2 = is_persistent rt /\
          cycle_cnt rt2 = 2 ^ 32 - 1) as (F1 & F2 & F3).
  { unfold rt2, stopped_and_resumed, set_cycle_cnt. simpl.
    destruct (afl_area_ptr rt); simpl; auto. }
  assert (forall m,
            first_pass (set_prev_loc (set_area rt2 m) 0) = first_pass rt2 /\
            is_persistent (set_prev_loc (set_area rt2 m) 0) = is_persistent rt2 /\
            cycle_cnt (set_prev_loc (set_area rt2 m) 0) = cycle_cnt rt2)
    as Hfields.
  { intros m. unfold set_prev_loc, set_area.
    destruct (afl_area_ptr rt2); simpl; auto. }
  destruct (Hfields (<[Z.to_nat 0 := 1 mod 256]> (area rt2))) as (G1 & G2 & G3).
  split; [congruence|]. split; [congruence|]. split; [congruence|]. lia.
Qed.

(** A budget of 0 does not stop the loop: in persistent mode, with
    [__AFL_LOOP(0)], each of the first [2 ^ 32] calls returns 1. *)
Theorem persistent_zero_budget (P : platform) (rt : runtime) (n : nat) :
  first_pass rt <> 0 -> is_persistent rt <> 0 ->
  (MAP_SIZE P <= length (area rt))%nat -> (0 < length (area rt))%nat ->
  (forall seg, length (on_stop P seg) = length seg) ->
  Z.of_nat n <= 2 ^ 32 ->
  exists rt' raised,
    loop_calls P n 0 rt = Returned rt' (replicate n 1, raised).
Proof.
  intros Hfirst Hpers Hsize Hlen Hstop Hn.
  destruct n as [|[|n]].
  - exists rt, []. reflexivity.
  - destruct (persistent_first_call P 0 rt Hfirst Hpers Hsize Hlen)
      as (rt1 & Hcall & _).
    exists rt1, []. simpl. rewrite Hcall. reflexivity.
  - destruct (persistent_first_call P 0 rt Hfirst Hpers Hsize Hlen)
      as (rt1 & Hcall & Hf1 & Hp1 & Hc1 & Hl1 & _).
    destruct (persistent_wrap_call P 0 rt1 Hf1 ltac:(congruence) Hc1
                ltac:(lia) Hstop)
      as (rt2 & Hcall2 & Hf2 & Hp2 & Hc2 & Hl2).
    destruct (persistent_proceeds P 0 n rt2 Hf2 ltac:(congruence)
                ltac:(lia) Hl2 Hstop)
      as (rt' & Hrest & _).
    exists rt'. eexists. simpl loop_calls.
    rewrite Hcall, Hcall2, Hrest. reflexivity.
Qed.

Lemma persistent_zero_budget_witness :
  exists rt' raised,
    loop_calls (example_platform no_env) 5 0
      (Runtime (replicate 8 9) InitialArea 0 1 1 0 0)
    = Returned rt' ([1; 1; 1; 1; 1], raised).
Proof.
  apply (persistent_zero_budget (example_platform no_env)
           (Runtime (replicate 8 9) InitialArea 0 1 1 0 0) 5);
    try discriminate; simpl; try lia.
  intros seg. apply length_replicate.
Defined.

(** ** String recorders *)

Lemma packed_cell (k len : Z) :
  0 <= k < 4 ->
  Z.shiftr ((k + CInt.sint 32 (Z.shiftl len 2)) mod 256) 2 = len mod 64.
Proof.
  intros Hk.
  destruct (sint_congruent 32 (Z.shiftl len 2)) as [q ->]; [lia|].
  rewrite Z.shiftl_mul_pow2, Z.shiftr_div_pow2 by lia.
  change (2 ^ 2) with 4. change (2 ^ 32) with 4294967296.
  pose proof (Z.div_mod len 64 ltac:(lia)) as Hlen.
  pose proof (Z.mod_pos_bound len 64 ltac:(lia)) as Hb.
  replace (k + (len * 4 - q * 4294967296))
    with ((k + 4 * (len mod 64)) + (len / 64 - q * 16777216) * 256) by lia.
  rewrite Z.mod_add by lia. rewrite Z.mod_small by lia.
  replace (k + 4 * (len mod 64)) with (k + (len mod 64) * 4) by lia.
  rewrite Z.div_add by lia. rewrite Z.div_small by lia. lia.
Qed.

(** [log_strncmp] either writes nothing, or leaves in the cell the
    compared length modulo 64 above the two state bits; every other cell
    is as before.  The length kept is thus the one of the call that last
    changed the state, and a length of 64 or more is kept modulo 64. *)
Theorem strncmp_packs_length (m : list Z) (br_id type len r cl cell : Z) :
  Mem.load_u8 m br_id = Some cell -> 0 <= cell < 256 ->
  exists m',
    log_strncmp m br_id type len r cl = Some m' /\
    (m' = m \/
     exists cell',
       Mem.load_u8 m' br_id = Some cell' /\
       Z.shiftr cell' 2 = len mod 64 /\
       0 < Z.land cell' 3 /\
       forall j, j <> br_id -> Mem.load_u8 m' j = Mem.load_u8 m j).
Proof.
  intros Hload Hb. pose proof (load_u8_bound _ _ _ Hload) as Hin.
  change (log_strncmp m br_id type len r cl)
    with (record_branch m br_id (Strncmp type len r cl)).
  rewrite (record_branch_mark _ _ _ _ Hload).
  unfold observed. cbn [family_of distance_of holds packed_len].
  rewrite mark_store.
  assert (forall k, 0 < k < 4 ->
    exists m',
      Mem.store_u8 m br_id (k + CInt.sint 32 (Z.shiftl len 2)) = Some m' /\
      (m' = m \/
       exists cell',
         Mem.load_u8 m' br_id = Some cell' /\
         Z.shiftr cell' 2 = len mod 64 /\
         0 < Z.land cell' 3 /\
         forall j, j <> br_id -> Mem.load_u8 m' j = Mem.load_u8 m j)) as Hstore.
  { intros k Hk. eexists. split; [apply store_u8_in_range, Hin|]. right.
    eexists. split; [eapply load_store_same, store_u8_in_range, Hin|].
    split; [apply packed_cell; lia|]. split.
    - pose proof (packed_len_aligned (Strncmp type len r cl)) as Hal.
      simpl in Hal. rewrite (land3_stored k _ ltac:(lia) Hal). lia.
    - intros j Hj. eapply load_store_other;
        [apply store_u8_in_range, Hin|exact Hj]. }
  destruct (state_read (Strncmp type len r cl) cell =? 0).
  - apply Hstore. destruct (r =? 0); lia.
  - destruct (state_read (Strncmp type len r cl) cell =? _).
    + apply Hstore. lia.
    + exists m. split; [reflexivity|left; reflexivity].
Qed.

Lemma strncmp_packs_length_witness :
  exists m',
    log_strncmp [0; 0] 1 0 70 0 0 = Some m' /\
    (m' = [0; 0] \/
     exists cell',
       Mem.load_u8 m' 1 = Some cell' /\
       Z.shiftr cell' 2 = 70 mod 64 /\
       0 < Z.land cell' 3 /\
       forall j, j <> 1 -> Mem.load_u8 m' j = Mem.load_u8 [0; 0] j).
Proof.
  apply (strncmp_packs_length [0; 0] 1 0 70 0 0 0); [reflexivity|lia].
Defined.

Lemma spec_next_join s p :
  spec_next s (Some p) = state_join s (polarity_state p).
Proof. destruct s, p; reflexivity. Qed.

Lemma state_join_assoc a b c :
  state_join (state_join a b) c = state_join a (state_join b c).
Proof. destruct a, b, c; reflexivity. Qed.

Lemma spec_final_cons p obs :
  spec_final (p :: obs) = state_join (polarity_state p) (spec_final obs).
Proof.
  unfold spec_final. simpl.
  destruct p, (existsb id obs), (existsb negb obs); reflexivity.
Qed.

Lemma spec_final_Permutation obs obs' :
  Permutation obs obs' -> spec_final obs = spec_final obs'.
Proof.
  intros H. unfold spec_final.
  rewrite (existsb_Permutation id _ _ H), (existsb_Permutation negb _ _ H).
  reflexivity.
Qed.

(** A recorder that packs nothing keeps a cell that reads 0, 1, 2 or 3
    among these values. *)
Lemma record_plain_small m br_id c cell m' cell' :
  Mem.load_u8 m br_id = Some cell -> 0 <= cell < 4 ->
  packed_len c = 0 ->
  record_branch m br_id c = Some m' -> Mem.load_u8 m' br_id = Some cell' ->
  0 <= cell' < 4.
Proof.
  intros Hload Hc Hpack. rewrite (record_branch_mark _ _ _ _ Hload).
  destruct (observed c) as [p|].
  - rewrite mark_store, Hpack, !Z.add_0_r.
    destruct (_ =? 0).
    + intros Hst Hl. rewrite (load_store_same _ _ _ _ Hst) in Hl.
      inversion Hl; subst. destruct p; vm_compute; split; congruence.
    + destruct (_ =? _).
      * intros Hst Hl. rewrite (load_store_same _ _ _ _ Hst) in Hl.
        inversion Hl; subst. vm_compute; split; congruence.
      * intros E Hl. inversion E; subst. rewrite Hload in Hl.
        inversion Hl; subst. exact Hc.
  - intros E Hl. inversion E; subst. rewrite Hload in Hl.
    inversion Hl; subst. exact Hc.
Qed.

(** A stream of calls that all observe a polarity, each reading the
    state of the cell: the final state is the join of the first state
    with what the observations give. *)
Lemma record_stream_state cs : forall m br_id cell obs,
  Mem.load_u8 m br_id = Some cell -> 0 <= cell < 256 ->
  map observed cs = map Some obs ->
  (Forall (fun c => masks_cell c = true) cs \/
   Forall (fun c => packed_len c = 0) cs /\ cell < 4) ->
  exists m' cell',
    record_all m br_id cs = Some m' /\
    Mem.load_u8 m' br_id = Some cell' /\
    state_of cell' = state_join (state_of cell) (spec_final obs).
Proof.
  induction cs as [|c rest IH]; intros m br_id cell obs Hload Hb Hobs Hkind.
  - destruct obs; [|discriminate]. exists m, cell. simpl.
    split; [reflexivity|]. split; [exact Hload|].
    destruct (state_of cell); reflexivity.
  - destruct obs as [|p obs]; [discriminate|].
    simpl in Hobs. inversion Hobs as [[Hp Hrest]].
    destruct (record_branch_step m br_id c cell Hload Hb)
      as (m1 & cell1 & Hrec & Hload1 & Hb1 & _ & _ & _ & Hnext & _).
    assert (masks_cell c = true \/ cell < 4) as Hread.
    { destruct Hkind as [Hm|[_ Hc]]; [left|right; exact Hc].
      inversion Hm; subst; assumption. }
    specialize (Hnext Hread). rewrite Hp, spec_next_join in Hnext.
    assert (Forall (fun c => masks_cell c = true) rest \/
            Forall (fun c => packed_len c = 0) rest /\ cell1 < 4) as Hkind1.
    { destruct Hkind as [Hm|[Hz Hc]].
      - left. inversion Hm; subst; assumption.
      - right. inversion Hz; subst. split; [assumption|].
        eapply (record_plain_small m br_id c cell m1 cell1); eauto. lia. }
    destruct (IH m1 br_id cell1 obs Hload1 Hb1 Hrest Hkind1)
      as (m' & cell' & Hall & Hload' & Hstate).
    exists m', cell'. simpl. rewrite Hrec. simpl.
    split; [exact Hall|]. split; [exact Hload'|].
    rewrite Hstate, Hnext, spec_final_cons, state_join_assoc. reflexivity.
Qed.

(** For [log_strncmp], fed a stream of lengths and [strncmp] results for
    one branch id, and for [log_strcmp], fed a stream of [strcmp]
    results at a cell that reads 0, 1, 2 or 3: the final state of the
    cell is the join of its first state with polarity-1 if some result
    was 0 and polarity-2 if some result was not 0; so it is the same for
    every order of the stream. *)
Theorem string_state_order_independent (m : list Z) (br_id cell : Z) :
  Mem.load_u8 m br_id = Some cell -> 0 <= cell < 256 ->
  (forall rs rs', Permutation rs rs' ->
     exists m1 m2 c1 c2,
       record_all m br_id (strncmp_calls rs) = Some m1 /\
       record_all m br_id (strncmp_calls rs') = Some m2 /\
       Mem.load_u8 m1 br_id = Some c1 /\ Mem.load_u8 m2 br_id = Some c2 /\
       state_of c1 = state_of c2 /\
       state_of c1 = state_join (state_of cell)
                       (spec_final (map (fun lr => snd lr =? 0) rs))) /\
  (cell < 4 ->
   forall rets rets', Permutation rets rets' ->
     exists m1 m2 c1 c2,
       record_all m br_id (strcmp_calls rets) = Some m1 /\
       record_all m br_id (strcmp_calls rets') = Some m2 /\
       Mem.load_u8 m1 br_id = Some c1 /\ Mem.load_u8 m2 br_id = Some c2 /\
       state_of c1 = state_of c2 /\
       state_of c1 = state_join (state_of cell)
                       (spec_final (map (fun r => r =? 0) rets))).
Proof.
  intros Hload Hb. split.
  - intros rs rs' Hperm.
    assert (forall l, map observed (strncmp_calls l)
                      = map Some (map (fun lr : Z * Z => snd lr =? 0) l)) as Hobs.
    { intros l. unfold strncmp_calls. rewrite !map_map. reflexivity. }
    assert (forall l, Forall (fun c => masks_cell c = true) (strncmp_calls l))
      as Hmask.
    { intros l. unfold strncmp_calls.
      induction l; simpl; constructor; auto. }
    destruct (record_stream_state _ m br_id cell _ Hload Hb (Hobs rs)
                (or_introl (Hmask rs))) as (m1 & c1 & H1 & L1 & S1).
    destruct (record_stream_state _ m br_id cell _ Hload Hb (Hobs rs')
                (or_introl (Hmask rs'))) as (m2 & c2 & H2 & L2 & S2).
    exists m1, m2, c1, c2. repeat (split; [assumption|]).
    split; [|exact S1]. rewrite S1, S2. f_equal.
    apply spec_final_Permutation, Permutation_map, Hperm.
  - intros Hc rets rets' Hperm.
    assert (forall l, map observed (strcmp_calls l)
                      = map Some (map (fun r : Z => r =? 0) l)) as Hobs.
    { intros l. unfold strcmp_calls. rewrite !map_map. reflexivity. }
    assert (forall l, Forall (fun c => packed_len c = 0) (strcmp_calls l))
      as Hplain.
    { intros l. unfold strcmp_calls.
      induction l; simpl; constructor; auto. }
    destruct (record_stream_state _ m br_id cell _ Hload Hb (Hobs rets)
                (or_intror (conj (Hplain rets) Hc))) as (m1 & c1 & H1 & L1 & S1).
    destruct (record_stream_state _ m br_id cell _ Hload Hb (Hobs rets')
                (or_intror (conj (Hplain rets') Hc))) as (m2 & c2 & H2 & L2 & S2).
    exists m1, m2, c1, c2. repeat (split; [assumption|]).
    split; [|exact S1]. rewrite S1, S2. f_equal.
    apply spec_final_Permutation, Permutation_map, Hperm.
Qed.

Lemma string_state_order_independent_witness :
  exists m1 m2 c1 c2,
    record_all [0; 0] 1 (strncmp_calls [(1, 0); (2, 7)]) = Some m1 /\
    record_all [0; 0] 1 (strncmp_calls [(2, 7); (1, 0)]) = Some m2 /\
    Mem.load_u8 m1 1 = Some c1 /\ Mem.load_u8 m2 1 = Some c2 /\
    state_of c1 = state_of c2 /\
    state_of c1 = state_join (state_of 0)
                    (spec_final (map (fun lr => snd lr =? 0) [(1, 0); (2, 7)])).
Proof.
  destruct (string_state_order_independent [0; 0] 1 0 eq_refl ltac:(lia))
    as [Hn _].
  apply (Hn [(1, 0); (2, 7)] [(2, 7); (1, 0)]). apply perm_swap.
Defined.

(** ** Hexadecimal strings *)

Lemma store_after pre o rest b :
  Mem.store_u8 (pre ++ o :: rest) (Z.of_nat (length pre)) b
  = Some (pre ++ b mod 256 :: rest).
Proof.
  rewrite store_u8_in_range by (rewrite length_app; simpl; lia).
  rewrite Nat2Z.id.
  replace (length pre) with (length pre + 0)%nat at 1 by lia.
  rewrite insert_app_r. reflexivity.
Qed.

Lemma write_bytes_over bs : forall pre old post,
  length old = length bs -> Forall (fun b => 0 <= b < 256) bs ->
  write_bytes (pre ++ old ++ post) (Z.of_nat (length pre)) bs
  = Some (pre ++ bs ++ post).
Proof.
  induction bs as [|b bs IH]; intros pre old post Hlen Hbytes.
  - destruct old; [reflexivity|discriminate].
  - destruct old as [|o old]; [discriminate|].
    inversion Hbytes; subst. simpl in Hlen.
    cbn [write_bytes]. change ((o :: old) ++ post) with (o :: old ++ post).
    rewrite store_after. simpl.
    rewrite Z.mod_small by assumption.
    replace (pre ++ b :: old ++ post) with ((pre ++ [b]) ++ old ++ post)
      by (rewrite <- app_assoc; reflexivity).
    replace (Z.of_nat (length pre) + 1) with (Z.of_nat (length (pre ++ [b])))
      by (rewrite length_app; simpl; lia).
    rewrite IH by (auto; lia).
    rewrite <- app_assoc. reflexivity.
Qed.

Lemma hex_digit_range d : 0 <= d < 16 -> 48 <= hex_digit d < 71.
Proof. intros Hd. unfold hex_digit. destruct (Z.ltb_spec d 10); lia. Qed.

Lemma unhex_hex_digit d : 0 <= d < 16 -> unhex_digit (hex_digit d) = d.
Proof.
  intros Hd. unfold unhex_digit, hex_digit.
  destruct (Z.ltb_spec d 10) as [H|H].
  - destruct (Z.ltb_spec (48 + d) 58); lia.
  - destruct (Z.ltb_spec (55 + d) 58); lia.
Qed.

(** A character below 128 is printed as its two hexadecimal digits. *)
Lemma sprintf_ascii b : 1 <= b <= 127 -> sprintf_02X (CInt.sint 8 b) = hex_pair b.
Proof.
  intros Hb. rewrite sint8_byte by lia.
  destruct (Z.ltb_spec b 128); [|lia].
  unfold sprintf_02X, hex_pair. rewrite uint_small by lia.
  cbn [to_hex]. destruct (Z.ltb_spec b 16) as [H16|H16].
  - simpl. rewrite Z.div_small, Z.mod_small by lia. reflexivity.
  - assert (b / 16 < 16) as Hq by (apply Z.div_lt_upper_bound; lia).
    destruct (Z.ltb_spec (b / 16) 16); [|lia]. reflexivity.
Qed.

Lemma hex_pair_bytes b :
  0 <= b < 256 -> Forall (fun x => 0 <= x < 256) (hex_pair b ++ [0]).
Proof.
  intros Hb. unfold hex_pair.
  assert (0 <= b / 16 < 16) as Hq.
  { split; [apply Z.div_pos; lia|apply Z.div_lt_upper_bound; lia]. }
  pose proof (Z.mod_pos_bound b 16 ltac:(lia)) as Hr.
  pose proof (hex_digit_range _ Hq). pose proof (hex_digit_range _ Hr).
  repeat constructor; lia.
Qed.

(** The loop and the final store, started anywhere in the output. *)
Lemma hex_loopn_from s1 : forall pre region post x tail loop len,
  Forall (fun b => 1 <= b <= 127) s1 ->
  length region = (2 * length s1 + 1)%nat ->
  s1 = [] \/ loop + Z.of_nat (length s1) <= len ->
  CInt.sint 8 x = 0 \/ len <= loop + Z.of_nat (length s1) ->
  (r ← hex_loopn (s1 ++ x :: tail) (pre ++ region ++ post)
         (Z.of_nat (length pre)) loop len;
   Mem.store_u8 (fst r) (snd r) 0)
  = Some (pre ++ hex_text s1 ++ 0 :: post).
Proof.
  induction s1 as [|b s1 IH];
    intros pre region post x tail loop len Hascii Hlen Hin Hstop.
  - destruct region as [|o [|? ?]]; try discriminate.
    cbn [app hex_loopn length] in *.
    assert (negb (CInt.sint 8 x =? 0) && (loop <? len) = false) as ->.
    { destruct Hstop as [->|Hstop]; [reflexivity|].
      rewrite andb_false_iff. right. apply Z.ltb_ge. lia. }
    simpl. rewrite store_after. reflexivity.
  - inversion Hascii as [|? ? Hb Hrest]; subst.
    destruct region as [|r1 [|r2 [|r3 region]]]; simpl in Hlen; try lia.
    destruct Hin as [Hin|Hin]; [discriminate|]. simpl length in Hin, Hstop.
    cbn [app hex_loopn].
    assert (negb (CInt.sint 8 b =? 0) && (loop <? len) = true) as ->.
    { rewrite sint8_byte by lia. destruct (Z.ltb_spec b 128); [|lia].
      destruct (Z.eqb_spec b 0); [lia|]. simpl. apply Z.ltb_lt. lia. }
    rewrite sprintf_ascii by exact Hb.
    change (pre ++ r1 :: r2 :: r3 :: region ++ post)
      with (pre ++ [r1; r2; r3] ++ (region ++ post)).
    rewrite write_bytes_over;
      [|reflexivity|apply hex_pair_bytes; lia].
    cbn [mbind option_bind].
    replace (pre ++ (hex_pair b ++ [0]) ++ region ++ post)
      with ((pre ++ hex_pair b) ++ (0 :: region) ++ post)
      by (rewrite <- !app_assoc; reflexivity).
    replace (Z.of_nat (length pre) + 2)
      with (Z.of_nat (length (pre ++ hex_pair b)))
      by (rewrite length_app; simpl; lia).
    rewrite (IH (pre ++ hex_pair b) (0 :: region) post x tail (loop + 1) len
               Hrest).
    + rewrite <- !app_assoc. reflexivity.
    + simpl. lia.
    + destruct s1; [left; reflexivity|right]. simpl length in *. lia.
    + destruct Hstop as [Hx|Hl]; [left; exact Hx|right; lia].
Qed.

(** The unbounded loop is the bounded one with a bound that the input
    buffer cannot reach. *)
Lemma hex_loop_loopn input : forall output i loop,
  hex_loop input output i =
  hex_loopn input output i loop (loop + Z.of_nat (length input)).
Proof.
  induction input as [|b rest IH]; intros output i loop; [reflexivity|].
  cbn [hex_loop hex_loopn length].
  assert ((loop <? loop + Z.of_nat (S (length rest))) = true) as ->
    by (apply Z.ltb_lt; lia).
  rewrite andb_true_r. destruct (negb (CInt.sint 8 b =? 0)); [|reflexivity].
  destruct (write_bytes output i (sprintf_02X (CInt.sint 8 b) ++ [0]));
    [|reflexivity].
  simpl. rewrite (IH _ _ (loop + 1)).
  f_equal. lia.
Qed.

Lemma c_string_hex_text s post :
  Forall (fun b => 0 <= b < 256) s -> c_string (hex_text s ++ 0 :: post) = hex_text s.
Proof.
  induction s as [|b s IH]; intros Hs; [reflexivity|].
  inversion Hs; subst. unfold hex_text. simpl.
  assert (0 <= b / 16 < 16) as Hq.
  { split; [apply Z.div_pos; lia|apply Z.div_lt_upper_bound; lia]. }
  pose proof (Z.mod_pos_bound b 16 ltac:(lia)) as Hr.
  pose proof (hex_digit_range _ Hq). pose proof (hex_digit_range _ Hr).
  destruct (Z.eqb_spec (hex_digit (b / 16)) 0); [lia|].
  destruct (Z.eqb_spec (hex_digit (b mod 16)) 0); [lia|].
  f_equal. f_equal. apply IH. assumption.
Qed.

Lemma unhex_hex_text s :
  Forall (fun b => 0 <= b < 256) s -> unhex_text (hex_text s) = s.
Proof.
  induction s as [|b s IH]; intros Hs; [reflexivity|].
  inversion Hs; subst. unfold hex_text. simpl.
  assert (0 <= b / 16 < 16) as Hq.
  { split; [apply Z.div_pos; lia|apply Z.div_lt_upper_bound; lia]. }
  pose proof (Z.mod_pos_bound b 16 ltac:(lia)) as Hr.
  rewrite !unhex_hex_digit by assumption.
  f_equal; [|apply IH; assumption].
  pose proof (Z.div_mod b 16). lia.
Qed.

(** [string2hexString] on a text of characters below 128 followed by its
    NUL, with [2 n + 1] bytes of output for the [n] characters: the
    output receives two upper-case hexadecimal digits per character and
    a NUL, and nothing after them is touched; the text written decodes
    back to the input. *)
Theorem string2hexString_ascii (s tail region post : list Z) :
  Forall (fun b => 1 <= b <= 127) s ->
  length region = (2 * length s + 1)%nat ->
  string2hexString (s ++ 0 :: tail) (region ++ post)
    = Some (hex_text s ++ 0 :: post) /\
  c_string (hex_text s ++ 0 :: post) = hex_text s /\
  unhex_text (hex_text s) = s.
Proof.
  intros Hascii Hlen.
  assert (Forall (fun b => 0 <= b < 256) s) as Hbytes.
  { eapply Forall_impl; [exact Hascii|]. simpl. intros; lia. }
  split; [|split].
  - unfold string2hexString.
    rewrite (hex_loop_loopn _ _ _ 0).
    apply (hex_loopn_from s [] region post 0 tail 0
             (0 + Z.of_nat (length (s ++ 0 :: tail))) Hascii Hlen).
    + right. rewrite length_app. lia.
    + left. reflexivity.
  - apply c_string_hex_text, Hbytes.
  - apply unhex_hex_text, Hbytes.
Qed.

(** The text "Hi" in a buffer, printed into five bytes of an output of
    six. *)
Lemma string2hexString_ascii_witness :
  string2hexString ([72; 105] ++ 0 :: [9]) ([1; 1; 1; 1; 1] ++ [7])
    = Some (hex_text [72; 105] ++ 0 :: [7]) /\
  c_string (hex_text [72; 105] ++ 0 :: [7]) = hex_text [72; 105] /\
  unhex_text (hex_text [72; 105]) = [72; 105].
Proof.
  apply (string2hexString_ascii [72; 105] [9] [1; 1; 1; 1; 1] [7]).
  - repeat constructor; lia.
  - reflexivity.
Defined.

(** [string2hexStringn] on such a text prints the characters before
    position [len] only: the output receives the digits of the first
    [len] characters (of all of them when the text is shorter, of none
    when [len] is not positive) and a NUL. *)
Theorem string2hexStringn_prefix (s tail region post : list Z) (len : Z) :
  Forall (fun b => 1 <= b <= 127) s ->
  length region = (2 * length (take (Z.to_nat len) s) + 1)%nat ->
  string2hexStringn (s ++ 0 :: tail) (region ++ post) len
    = Some (hex_text (take (Z.to_nat len) s) ++ 0 :: post).
Proof.
  intros Hascii Hlen. unfold string2hexStringn.
  remember (Z.to_nat len) as n eqn:Hn.
  rewrite <- (take_drop n s) at 1. rewrite <- app_assoc.
  assert (Forall (fun b => 1 <= b <= 127) (take n s)) as Htake.
  { apply Forall_take, Hascii. }
  assert (take n s = [] \/ 0 + Z.of_nat (length (take n s)) <= len) as Hin.
  { destruct n as [|n']; [left; reflexivity|right].
    rewrite length_take. lia. }
  destruct (drop n s) as [|x rest] eqn:Hdrop.
  - apply (hex_loopn_from (take n s) [] region post 0 tail 0 len Htake Hlen Hin).
    left. reflexivity.
  - change ((x :: rest) ++ 0 :: tail) with (x :: rest ++ 0 :: tail).
    assert (n < length s)%nat as Hlt.
    { apply (f_equal length) in Hdrop. rewrite length_drop in Hdrop.
      simpl in Hdrop. lia. }
    apply (hex_loopn_from (take n s) [] region post x (rest ++ 0 :: tail)
             0 len Htake Hlen Hin).
    right. rewrite length_take. lia.
Qed.

Lemma string2hexStringn_prefix_witness :
  string2hexStringn ([72; 105; 33] ++ 0 :: []) ([1; 1; 1; 1; 1] ++ [7]) 2
    = Some (hex_text [72; 105] ++ 0 :: [7]).
Proof.
  apply (string2hexStringn_prefix [72; 105; 33] [] [1; 1; 1; 1; 1] [7] 2).
  - repeat constructor; lia.
  - reflexivity.
Defined.

(** [string2hexStringn] reads [input[loop]] before it tests
    [loop < len]: on an input buffer of at most [len] bytes none of
    which is NUL, it reads past the end of the buffer, whatever the
    output buffer is. *)
Theorem string2hexStringn_reads_past (input output : list Z) (len : Z) :
  Forall (fun b => CInt.sint 8 b <> 0) input ->
  Z.of_nat (length input) <= len ->
  string2hexStringn input output len = None.
Proof.
  intros Hnz Hlen. unfold string2hexStringn.
  assert (forall inp out i loop,
            Forall (fun b => CInt.sint 8 b <> 0) inp ->
            loop + Z.of_nat (length inp) <= len ->
            hex_loopn inp out i loop len = None) as Hloop.
  { induction inp as [|b rest IH]; intros out i loop Hf Hl; [reflexivity|].
    inversion Hf; subst. cbn [hex_loopn]. simpl length in Hl.
    destruct (Z.eqb_spec (CInt.sint 8 b) 0); [contradiction|].
    destruct (Z.ltb_spec loop len); [|lia]. simpl.
    destruct (write_bytes out i (sprintf_02X (CInt.sint 8 b) ++ [0]));
      [|reflexivity].
    simpl. apply IH; [assumption|lia]. }
  rewrite (Hloop input output 0 0 Hnz ltac:(lia)). reflexivity.
Qed.

Lemma string2hexStringn_reads_past_witness :
  string2hexStringn [72; 105] (replicate 16 0) 2 = None.
Proof.
  apply (string2hexStringn_reads_past [72; 105] (replicate 16 0) 2).
  - repeat constructor; vm_compute; congruence.
  - simpl. lia.
Defined.


(** A character of 128 or more is a negative [char]: it is printed as
    the eight digits of a negative [int]. *)
Lemma sprintf_high b :
  128 <= b < 256 ->
  sprintf_02X (CInt.sint 8 b) =
  [70; 70; 70; 70; 70; 70; hex_digit (b / 16); hex_digit (b mod 16)].
Proof.
  intros Hb. rewrite sint8_byte by lia.
  destruct (Z.ltb_spec b 128); [lia|].
  unfold sprintf_02X, CInt.uint. change (2 ^ 32) with 4294967296.
  replace ((b - 256) mod 4294967296) with (4294967040 + b).
  2:{ apply (Z.mod_unique _ _ (-1)); lia. }
  pose proof (Z.div_mod b 16 ltac:(lia)) as Hdm.
  pose proof (Z.mod_pos_bound b 16 ltac:(lia)) as Hr.
  assert (0 <= b / 16 < 16) as Hq.
  { split; [apply Z.div_pos; lia|apply Z.div_lt_upper_bound; lia]. }
  assert ((4294967040 + b) / 16 = 268435440 + b / 16) as E1.
  { symmetry. apply (Z.div_unique _ _ _ (b mod 16)); lia. }
  assert ((4294967040 + b) mod 16 = b mod 16) as E2.
  { symmetry. apply (Z.mod_unique _ _ (268435440 + b / 16)); lia. }
  assert ((268435440 + b / 16) / 16 = 16777215) as E3.
  { symmetry. apply (Z.div_unique _ _ _ (b / 16)); lia. }
  assert ((268435440 + b / 16) mod 16 = b / 16) as E4.
  { symmetry. apply (Z.mod_unique _ _ 16777215); lia. }
  cbn [to_hex].
  destruct (Z.ltb_spec (4294967040 + b) 16); [lia|].
  rewrite E1, E2.
  destruct (Z.ltb_spec (268435440 + b / 16) 16); [lia|].
  rewrite E3, E4. reflexivity.
Qed.

Lemma write_bytes_short bs : forall m i,
  0 <= i <= Z.of_nat (length m) ->
  Z.of_nat (length m) < i + Z.of_nat (length bs) ->
  write_bytes m i bs = None.
Proof.
  induction bs as [|b bs IH]; intros m i Hi Hlen; simpl in *; [lia|].
  destruct (Mem.store_u8 m i b) as [m1|] eqn:E; [|reflexivity].
  simpl. pose proof (store_u8_Some _ _ _ _ E) as [Hin _].
  apply IH; rewrite (store_u8_length _ _ _ _ E); lia.
Qed.

(** A character of 128 or more breaks the two-digits-per-character
    layout of [string2hexString]: for a text of one such character the
    function needs nine bytes of output, not three, and the text it
    leaves is "FF" whatever the character. *)
Theorem string2hexString_high_char (b : Z) (tail output : list Z) :
  128 <= b < 256 ->
  ((length output < 9)%nat ->
   string2hexString (b :: 0 :: tail) output = None) /\
  (forall region post,
     output = region ++ post -> length region = 9%nat ->
     exists out',
       string2hexString (b :: 0 :: tail) output = Some out' /\
       c_string out' = [70; 70] /\
       out' = [70; 70; 0; 70; 70; 70; hex_digit (b / 16);
               hex_digit (b mod 16); 0] ++ post).
Proof.
  intros Hb.
  assert ((CInt.sint 8 b =? 0) = false) as Hnz.
  { rewrite sint8_byte by lia. destruct (Z.ltb_spec b 128); [lia|].
    apply Z.eqb_neq. lia. }
  assert (0 <= b / 16 < 16) as Hq.
  { split; [apply Z.div_pos; lia|apply Z.div_lt_upper_bound; lia]. }
  pose proof (Z.mod_pos_bound b 16 ltac:(lia)) as Hr.
  pose proof (hex_digit_range _ Hq) as Hd1.
  pose proof (hex_digit_range _ Hr) as Hd2.
  unfold string2hexString. cbn [hex_loop]. rewrite Hnz. cbn [negb].
  rewrite (sprintf_high b Hb). split.
  - intros Hshort. rewrite write_bytes_short; [reflexivity|lia|simpl; lia].
  - intros region post -> Hlen.
    assert (write_bytes (region ++ post) 0
              ([70; 70; 70; 70; 70; 70; hex_digit (b / 16);
                hex_digit (b mod 16)] ++ [0])
            = Some ([70; 70; 70; 70; 70; 70; hex_digit (b / 16);
                     hex_digit (b mod 16); 0] ++ post)) as Hw.
    { apply (write_bytes_over
               [70; 70; 70; 70; 70; 70; hex_digit (b / 16);
                hex_digit (b mod 16); 0] [] region post);
        [exact Hlen|repeat constructor; lia]. }
    rewrite Hw.
    cbn [mbind option_bind hex_loop]. change (CInt.sint 8 0 =? 0) with true.
    cbn [negb fst snd].
    exists (<[2%nat := 0]>
              ([70; 70; 70; 70; 70; 70; hex_digit (b / 16);
                hex_digit (b mod 16); 0] ++ post)).
    split; [|split; reflexivity].
    change (Mem.store_u8
              ([70; 70; 70; 70; 70; 70; hex_digit (b / 16);
                hex_digit (b mod 16); 0] ++ post) 2 0
            = Some (<[2%nat := 0]>
                      ([70; 70; 70; 70; 70; 70; hex_digit (b / 16);
                        hex_digit (b mod 16); 0] ++ post))).
    rewrite store_u8_in_range by (rewrite length_app; simpl; lia).
    reflexivity.
Qed.

Lemma string2hexString_high_char_witness :
  string2hexString [200; 0] (replicate 8 0) = None /\
  exists out',
    string2hexString [200; 0] (replicate 9 1 ++ [5]) = Some out' /\
    c_string out' = [70; 70].
Proof.
  destruct (string2hexString_high_char 200 [] (replicate 8 0)) as [Hshort _];
    [lia|].
  destruct (string2hexString_high_char 200 [] (replicate 9 1 ++ [5]))
    as [_ Hroom]; [lia|].
  split.
  - apply Hshort. simpl. lia.
  - destruct (Hroom (replicate 9 1) [5] eq_refl eq_refl)
      as (out' & Hrun & Htext & _).
    exists out'. split; [exact Hrun|exact Htext].
Defined.

(** ** The pass: distances and locations *)

Lemma pass_br_dist_narrow bits op1 op2 :
  0 < bits <= 64 -> pass_br_dist bits op1 op2 = CInt.sint bits (op1 - op2).
Proof.
  intros Hb. unfold pass_br_dist.
  destruct (Z.ltb_spec bits 64); [reflexivity|].
  destruct (Z.eqb_spec bits 128); [lia|reflexivity].
Qed.

(** The distance the pass hands to [log_br] for operands of an integer
    type of at most 64 bits is the difference computed in that type: the
    exact difference when it fits the type, and otherwise the difference
    moved by [2 ^ bits], whose sign is the opposite of the sign of the
    exact difference. *)
Theorem pass_distance_sign (bits op1 op2 : Z) :
  0 < bits <= 64 -> CInt.fits bits op1 -> CInt.fits bits op2 ->
  (CInt.fits bits (op1 - op2) -> pass_br_dist bits op1 op2 = op1 - op2) /\
  (2 ^ (bits - 1) <= op1 - op2 ->
   pass_br_dist bits op1 op2 = op1 - op2 - 2 ^ bits /\
   pass_br_dist bits op1 op2 < 0) /\
  (op1 - op2 < - 2 ^ (bits - 1) ->
   pass_br_dist bits op1 op2 = op1 - op2 + 2 ^ bits /\
   0 <= pass_br_dist bits op1 op2).
Proof.
  intros Hb H1 H2. rewrite pass_br_dist_narrow by exact Hb.
  assert (0 < bits) as Hpos by lia.
  pose proof (pow2_double bits Hpos) as E.
  assert (0 < 2 ^ (bits - 1)) as Hh by (apply Z.pow_pos_nonneg; lia).
  unfold CInt.fits in *. split; [|split].
  - intros Hfit. apply sint_fits; [exact Hpos|exact Hfit].
  - intros Hbig.
    assert (CInt.sint bits (op1 - op2) = op1 - op2 - 2 ^ bits) as ->.
    { unfold CInt.sint.
      rewrite <- (Z.mod_unique (op1 - op2 + 2 ^ (bits - 1)) (2 ^ bits) 1
                    (op1 - op2 + 2 ^ (bits - 1) - 2 ^ bits)); lia. }
    lia.
  - intros Hsmall.
    assert (CInt.sint bits (op1 - op2) = op1 - op2 + 2 ^ bits) as ->.
    { unfold CInt.sint.
      rewrite <- (Z.mod_unique (op1 - op2 + 2 ^ (bits - 1)) (2 ^ bits) (-1)
                    (op1 - op2 + 2 ^ (bits - 1) + 2 ^ bits)); lia. }
    lia.
Qed.

(** For [char] operands 127 and -128 the pass reports the distance -1. *)
Lemma pass_distance_sign_witness :
  pass_br_dist 8 127 (-128) = 127 - -128 - 2 ^ 8 /\
  pass_br_dist 8 127 (-128) < 0.
Proof.
  destruct (pass_distance_sign 8 127 (-128)) as (_ & Hbig & _);
    [lia|vm_compute; split; congruence|vm_compute; split; congruence|].
  apply Hbig. vm_compute. congruence.
Defined.

(** Whatever the random source and the density, the pass gives each
    block of the module one decision, every location it assigns is an
    index of the map, and at density 100 no block is left out. *)
Theorem assigned_locations_in_map (P : platform) (inst_ratio : Z)
    (blocks : nat) :
  (0 < MAP_SIZE P)%nat ->
  forall n,
    length (assign_locations P inst_ratio n blocks) = blocks /\
    Forall (fun o => match o with
                     | Some c => 0 <= c < Z.of_nat (MAP_SIZE P)
                     | None => True
                     end)
           (assign_locations P inst_ratio n blocks) /\
    (100 <= inst_ratio ->
     Forall (fun o => o <> None) (assign_locations P inst_ratio n blocks)).
Proof.
  intros Hsize. induction blocks as [|blocks IH]; intros n.
  - simpl. split; [reflexivity|]. split; [constructor|]. intros _. constructor.
  - cbn [assign_locations].
    pose proof (R_range P n 100 ltac:(lia)) as Hr.
    destruct (Z.geb_spec (R P n 100) inst_ratio) as [Hskip|Hinst].
    + destruct (IH (S n)) as (Hlen & Hin & Hall).
      split; [simpl; rewrite Hlen; reflexivity|].
      split; [constructor; [exact I|exact Hin]|].
      intros Hfull. lia.
    + destruct (IH (S (S n))) as (Hlen & Hin & Hall).
      split; [simpl; rewrite Hlen; reflexivity|].
      split.
      * constructor; [|exact Hin]. apply R_range. lia.
      * intros Hfull. constructor; [discriminate|exact (Hall Hfull)].
Qed.

Lemma assigned_locations_in_map_witness :
  length (assign_locations (example_platform no_env) 100 0 3) = 3%nat /\
  Forall (fun o => match o with
                   | Some c => 0 <= c < Z.of_nat (MAP_SIZE (example_platform no_env))
                   | None => True
                   end)
         (assign_locations (example_platform no_env) 100 0 3) /\
  (100 <= 100 ->
   Forall (fun o => o <> None) (assign_locations (example_platform no_env) 100 0 3)).
Proof.
  apply (assigned_locations_in_map (example_platform no_env) 100 3). simpl. lia.
Defined.
